From Stdlib Require Import ZArith String Ascii List Lia Decimal DecimalString DecimalN.
From stdpp Require Import base option list strings gmap.
Open Scope Z_scope.
#[local] Arguments String.append !_ _ / : simpl nomatch.

(** * Safe-Storage: the store and its default serializer

    A model of [src/core/serializer.ts] and [src/core/store.ts], with the
    parts of the JavaScript runtime they run on: JSON text, JSON.stringify
    with a replacer, JSON.parse with a reviver, Date, Map and Set, and the
    browser's Storage.

    Numbers are integers: the model has no NaN, no infinity, no negative
    zero and no fraction, and it keeps every digit of an integer, where
    JavaScript rounds beyond 2^53 and JSON.stringify writes an exponent from
    10^21 on.  Strings are sequences of 8-bit characters, and objects are
    lists of own properties in insertion order (names that look like array
    indices are not moved to the front).  Date.now() gives the same reading
    throughout one operation of the store.  User code (schemas, migrations,
    callbacks, error handlers) is a function that returns or throws.  Where
    a property depends on one of these limits, its statement says which
    values it is about ([safe_integers]).  The first part holds the model, the second part the properties
    proved of it. *)

(** * JSON documents and JSON text *)

#[local] Unset Elimination Schemes.
Inductive json : Type :=
| JNull
| JBool (b : bool)
| JNum (n : Z)
| JStr (s : string)
| JArr (xs : list json)
| JObj (ms : list (string * json)).
#[local] Set Elimination Schemes.

Definition dquote : ascii := "034"%char.
Definition bslash : ascii := "092"%char.

Definition hex_digit (n : N) : ascii :=
  (if n <? 10 then ascii_of_N (48 + n) else ascii_of_N (87 + n))%N.

Definition hex_val (c : ascii) : option N :=
  let n := N_of_ascii c in
  (if (48 <=? n) && (n <=? 57) then Some (n - 48)
   else if (97 <=? n) && (n <=? 102) then Some (n - 87)
   else if (65 <=? n) && (n <=? 70) then Some (n - 55)
   else None)%N.

(** QuoteJSONString: one code unit. *)
Definition escape_char (c : ascii) : string :=
  if Ascii.eqb c dquote then String bslash (String dquote "")
  else if Ascii.eqb c bslash then String bslash (String bslash "")
  else match N_of_ascii c with
       | 8 => "\b" | 9 => "\t" | 10 => "\n" | 12 => "\f" | 13 => "\r"
       | n => if n <? 32
              then "\u00" +:+ String (hex_digit (n / 16)) (String (hex_digit (n mod 16)) "")
              else String c ""
       end%N.

Fixpoint emit_chars (s : string) (k : string) : string :=
  match s with
  | "" => k
  | String c s' => escape_char c +:+ emit_chars s' k
  end.

Definition emit_string (s : string) (k : string) : string :=
  String dquote (emit_chars s (String dquote k)).

Definition print_N (n : N) : string := NilEmpty.string_of_uint (N.to_uint n).

Definition emit_number (z : Z) (k : string) : string :=
  if z <? 0 then String "-" (print_N (Z.to_N (- z)) +:+ k)
  else print_N (Z.to_N z) +:+ k.

Definition emit_elements (E : json -> string -> string) (k : string)
  : list json -> string :=
  fix tail (ys : list json) : string :=
    match ys with
    | [] => String "]" k
    | y :: ys' => String "," (E y (tail ys'))
    end.

Definition emit_members (E : json -> string -> string) (k : string)
  : list (string * json) -> string :=
  fix tail (ys : list (string * json)) : string :=
    match ys with
    | [] => String "}" k
    | m :: ys' => String "," (emit_string (fst m) (String ":" (E (snd m) (tail ys'))))
    end.

(** [emit j k] is the text of [j] followed by [k]. *)
Fixpoint emit (j : json) (k : string) : string :=
  match j with
  | JNull => "null" +:+ k
  | JBool true => "true" +:+ k
  | JBool false => "false" +:+ k
  | JNum n => emit_number n k
  | JStr s => emit_string s k
  | JArr xs =>
      String "[" (match xs with
                  | [] => String "]" k
                  | x :: xs' => emit x (emit_elements emit k xs')
                  end)
  | JObj ms =>
      String "{" (match ms with
                  | [] => String "}" k
                  | m :: ms' =>
                      emit_string (fst m)
                        (String ":" (emit (snd m) (emit_members emit k ms')))
                  end)
  end.

Definition JSON_print (j : json) : string := emit j "".

(** ** Reading *)

Definition is_ws (c : ascii) : bool :=
  match c with
  | " " | "009" | "010" | "013" => true
  | _ => false
  end%char.

Fixpoint skip_ws (s : string) : string :=
  match s with
  | String c s' => if is_ws c then skip_ws s' else s
  | "" => ""
  end.

Definition is_digit (c : ascii) : bool :=
  let n := N_of_ascii c in ((48 <=? n) && (n <=? 57))%N.

Fixpoint span_digits (s : string) : string * string :=
  match s with
  | String c s' =>
      if is_digit c then let '(d, r) := span_digits s' in (String c d, r)
      else ("", s)
  | "" => ("", "")
  end.

Definition frac_start (s : string) : bool :=
  match s with
  | String "." _ | String "e" _ | String "E" _ => true
  | _ => false
  end.

(** Integers only: the model's numbers are integers, a text with a fraction
    or an exponent is not read. *)
Definition read_unsigned (neg : bool) (s : string) : option (Z * string) :=
  let '(ds, rest) := span_digits s in
  d ← NilEmpty.uint_of_string ds;
  let n := N.of_uint d in
  if negb (String.eqb (print_N n) ds) then None
  else if frac_start rest then None
  else Some (if neg then - Z.of_N n else Z.of_N n, rest).

Definition read_number (s : string) : option (Z * string) :=
  match s with
  | String c s' => if Ascii.eqb c "-" then read_unsigned true s' else read_unsigned false s
  | "" => None
  end.

Definition cons_char (c : ascii) (r : option (string * string)) : option (string * string) :=
  '(s, k) ← r; Some (String c s, k).

Definition hex4 (a b c d : ascii) : option N :=
  x ← hex_val a; y ← hex_val b; z ← hex_val c; w ← hex_val d;
  Some (((x * 16 + y) * 16 + z) * 16 + w)%N.

(** The characters after an opening quote, up to the closing one. *)
Fixpoint read_chars (s : string) : option (string * string) :=
  match s with
  | "" => None
  | String c s' =>
      if Ascii.eqb c dquote then Some ("", s')
      else if Ascii.eqb c bslash then
        match s' with
        | String e s'' =>
            if Ascii.eqb e dquote then cons_char dquote (read_chars s'')
            else if Ascii.eqb e bslash then cons_char bslash (read_chars s'')
            else match e with
                 | "/" => cons_char "/" (read_chars s'')
                 | "b" => cons_char "008" (read_chars s'')
                 | "f" => cons_char "012" (read_chars s'')
                 | "n" => cons_char "010" (read_chars s'')
                 | "r" => cons_char "013" (read_chars s'')
                 | "t" => cons_char "009" (read_chars s'')
                 | "u" =>
                     match s'' with
                     | String h1 (String h2 (String h3 (String h4 s5))) =>
                         match hex4 h1 h2 h3 h4 with
                         | Some n => if (n <? 256)%N
                                     then cons_char (ascii_of_N n) (read_chars s5)
                                     else None
                         | None => None
                         end
                     | _ => None
                     end
                 | _ => None
                 end%char
        | "" => None
        end
      else if (N_of_ascii c <? 32)%N then None
      else cons_char c (read_chars s')
  end.

Definition read_string (s : string) : option (string * string) :=
  match s with
  | String c s' => if Ascii.eqb c dquote then read_chars s' else None
  | "" => None
  end.

Fixpoint strip_prefix (p s : string) : option string :=
  match p, s with
  | "", _ => Some s
  | String a p', String b s' => if Ascii.eqb a b then strip_prefix p' s' else None
  | _, _ => None
  end.

(** An object keeps one value per name: a repeated name overwrites the
    value and keeps the first position. *)
Fixpoint obj_set {A} (n : string) (x : A) (ms : list (string * A)) : list (string * A) :=
  match ms with
  | [] => [(n, x)]
  | (m, y) :: ms' => if String.eqb m n then (m, x) :: ms' else (m, y) :: obj_set n x ms'
  end.

Fixpoint read_value (fuel : nat) (s : string) {struct fuel} : option (json * string) :=
  match fuel with
  | O => None
  | S f =>
      match skip_ws s with
      | String "[" s1 =>
          match skip_ws s1 with
          | String "]" s2 => Some (JArr [], s2)
          | _ => read_elements f s1 []
          end
      | String "{" s1 =>
          match skip_ws s1 with
          | String "}" s2 => Some (JObj [], s2)
          | _ => read_members f s1 []
          end
      | String "n" _ => k ← strip_prefix "null" (skip_ws s); Some (JNull, k)
      | String "t" _ => k ← strip_prefix "true" (skip_ws s); Some (JBool true, k)
      | String "f" _ => k ← strip_prefix "false" (skip_ws s); Some (JBool false, k)
      | String c s1 =>
          if Ascii.eqb c dquote then '(x, k) ← read_chars s1; Some (JStr x, k)
          else '(n, k) ← read_number (skip_ws s); Some (JNum n, k)
      | "" => None
      end
  end
with read_elements (fuel : nat) (s : string) (acc : list json) {struct fuel}
  : option (json * string) :=
  match fuel with
  | O => None
  | S f =>
      '(x, s1) ← read_value f s;
      match skip_ws s1 with
      | String "," s2 => read_elements f s2 (acc ++ [x])
      | String "]" s2 => Some (JArr (acc ++ [x]), s2)
      | _ => None
      end
  end
with read_members (fuel : nat) (s : string) (acc : list (string * json)) {struct fuel}
  : option (json * string) :=
  match fuel with
  | O => None
  | S f =>
      '(n, s1) ← read_string (skip_ws s);
      match skip_ws s1 with
      | String ":" s2 =>
          '(x, s3) ← read_value f s2;
          match skip_ws s3 with
          | String "," s4 => read_members f s4 (obj_set n x acc)
          | String "}" s4 => Some (JObj (obj_set n x acc), s4)
          | _ => None
          end
      | _ => None
      end
  end.

(** JSON.parse without a reviver: [None] is a SyntaxError. *)
Definition JSON_read (s : string) : option json :=
  '(j, k) ← read_value (S (String.length s)) s;
  match skip_ws k with
  | "" => Some j
  | _ => None
  end.


(** * Dates: time values and their ISO text *)

(** Days since the epoch to a civil date and back, by 400-year eras of
    146097 days; [doe] is the day of the era, [yoe] the year of the era,
    both counted from 1 March. *)
Definition civil_of_doe (doe : Z) : Z * Z * Z :=
  let yoe := (doe - doe / 1460 + doe / 36524 - doe / 146096) / 365 in
  let doy := doe - (365 * yoe + yoe / 4 - yoe / 100) in
  let mp := (5 * doy + 2) / 153 in
  let d := doy - (153 * mp + 2) / 5 + 1 in
  let m := if mp <? 10 then mp + 3 else mp - 9 in
  (yoe, m, d).

Definition doe_of_civil (yoe m d : Z) : Z :=
  let doy := (153 * (if m >? 2 then m - 3 else m + 9) + 2) / 5 + d - 1 in
  yoe * 365 + yoe / 4 - yoe / 100 + doy.

Definition civil_from_days (z : Z) : Z * Z * Z :=
  let z := z + 719468 in
  let era := z / 146097 in
  let '(yoe, m, d) := civil_of_doe (z mod 146097) in
  (yoe + era * 400 + (if m <=? 2 then 1 else 0), m, d).

Definition days_from_civil (y m d : Z) : Z :=
  let y := y - (if m <=? 2 then 1 else 0) in
  (y / 400) * 146097 + doe_of_civil (y mod 400) m d - 719468.

Definition msPerDay : Z := 86400000.
Definition maxTime : Z := 8640000000000000.

Definition MakeTime (h mi s ms : Z) : Z := ((h * 60 + mi) * 60 + s) * 1000 + ms.
Definition MakeDate (day time : Z) : Z := day * msPerDay + time.

Definition digit_char (n : Z) : ascii := ascii_of_N (Z.to_N (48 + n)).
Definition digit_value (c : ascii) : option Z :=
  let n := Z.of_N (N_of_ascii c) in
  if (48 <=? n) && (n <=? 57) then Some (n - 48) else None.

(** [n] decimal digits of [v], most significant first, then [k]. *)
Fixpoint emit_digits (n : nat) (v : Z) (k : string) : string :=
  match n with
  | O => k
  | S n' => emit_digits n' (v / 10) (String (digit_char (v mod 10)) k)
  end.

Fixpoint take_digits (n : nat) (acc : Z) (s : string) : option (Z * string) :=
  match n with
  | O => Some (acc, s)
  | S n' =>
      match s with
      | String c s' => v ← digit_value c; take_digits n' (acc * 10 + v) s'
      | "" => None
      end
  end.

Definition emit_year (y : Z) (k : string) : string :=
  if (0 <=? y) && (y <=? 9999) then emit_digits 4 y k
  else if y <? 0 then String "-" (emit_digits 6 (- y) k)
  else String "+" (emit_digits 6 y k).

Definition take_year (s : string) : option (Z * string) :=
  match s with
  | String c s' =>
      if Ascii.eqb c "+" then take_digits 6 0 s'
      else if Ascii.eqb c "-" then
        match take_digits 6 0 s' with
        | Some (y, k) => Some (Z.opp y, k)
        | None => None
        end
      else take_digits 4 0 s
  | "" => None
  end.

Definition expect (c : ascii) (s : string) : option string :=
  match s with
  | String c' s' => if Ascii.eqb c c' then Some s' else None
  | "" => None
  end.

(** Date.prototype.toISOString of a time value in range. *)
Definition toISOString (t : Z) : string :=
  let '(y, m, d) := civil_from_days (t / msPerDay) in
  let r := t mod msPerDay in
  emit_year y (String "-" (emit_digits 2 m (String "-" (emit_digits 2 d
    (String "T" (emit_digits 2 (r / 3600000)
    (String ":" (emit_digits 2 (r / 60000 mod 60)
    (String ":" (emit_digits 2 (r / 1000 mod 60)
    (String "." (emit_digits 3 (r mod 1000) "Z")))))))))))).

(** Date.parse on the ISO date-time form with a Z offset, and on the
    date-only form; any other text is not a date for this model. *)
Definition Date_parse (s : string) : option Z :=
  '(y, s) ← take_year s;
  s ← expect "-" s;
  '(m, s) ← take_digits 2 0 s;
  s ← expect "-" s;
  '(d, s) ← take_digits 2 0 s;
  let day := days_from_civil y m d in
  if negb (bool_decide (civil_from_days day = (y, m, d))) then None
  else
    t ← match s with
        | "" => Some (MakeDate day 0)
        | _ =>
            s ← expect "T" s;
            '(h, s) ← take_digits 2 0 s;
            s ← expect ":" s;
            '(mi, s) ← take_digits 2 0 s;
            s ← expect ":" s;
            '(sec, s) ← take_digits 2 0 s;
            s ← expect "." s;
            '(ms, s) ← take_digits 3 0 s;
            s ← expect "Z" s;
            match s with
            | "" => if (h <? 24) && (mi <? 60) && (sec <? 60)
                    then Some (MakeDate day (MakeTime h mi sec ms)) else None
            | _ => None
            end
        end;
    if (- maxTime <=? t) && (t <=? maxTime) then Some t else None.


(** * JavaScript values *)

#[local] Unset Elimination Schemes.
Inductive jsvalue : Type :=
| VUndef
| VNull
| VBool (b : bool)
| VNum (n : Z)
| VStr (s : string)
| VArr (xs : list (option jsvalue))        (* [None] is a hole *)
| VObj (ps : list (string * jsvalue))      (* own properties, in order *)
| VDate (t : option Z)                   (* [None] is an Invalid Date *)
| VMap (es : list (jsvalue * jsvalue))
| VSet (xs : list jsvalue).
#[local] Set Elimination Schemes.

Inductive exn : Type :=
| SyntaxError
| TypeError
| RangeError
| QuotaExceededError
| Error (msg : string)
| ErrorValue (v : jsvalue).

Inductive result (A : Type) : Type :=
| Ok (a : A)
| Throw (e : exn).
Arguments Ok {A} a.
Arguments Throw {A} e.

#[global] Instance result_ret : MRet result := fun A a => Ok a.
#[global] Instance result_bind : MBind result :=
  fun A B f m => match m with Ok a => f a | Throw e => Throw e end.
#[global] Instance result_fmap : FMap result :=
  fun A B f m => match m with Ok a => Ok (f a) | Throw e => Throw e end.

(** [f] on each element with its index, left to right, stopping at the
    first exception. *)
Definition mapM_i {A B} (f : nat -> A -> result B) : nat -> list A -> result (list B) :=
  fix go (i : nat) (l : list A) : result (list B) :=
    match l with
    | [] => Ok []
    | x :: l' =>
        match f i x with
        | Ok y => match go (S i) l' with
                  | Ok ys => Ok (y :: ys)
                  | Throw e => Throw e
                  end
        | Throw e => Throw e
        end
    end.

Definition mapM_r {A B} (f : A -> result B) (l : list A) : result (list B) :=
  mapM_i (fun _ => f) O l.

Definition is_undefined (v : jsvalue) : bool :=
  match v with VUndef => true | _ => false end.
Definition is_null (v : jsvalue) : bool :=
  match v with VNull => true | _ => false end.
Definition nullish (v : jsvalue) : bool := is_undefined v || is_null v.

(** [typeof v === 'object' && v !== null] *)
Definition is_object (v : jsvalue) : bool :=
  match v with
  | VArr _ | VObj _ | VDate _ | VMap _ | VSet _ => true
  | _ => false
  end.

(** ToBoolean *)
Definition truthy (v : jsvalue) : bool :=
  match v with
  | VUndef | VNull => false
  | VBool b => b
  | VNum n => negb (n =? 0)
  | VStr s => negb (String.eqb s "")
  | _ => true
  end.

Definition index_key (i : nat) : string := print_N (N.of_nat i).

(** The array index a property name denotes, if it is one in canonical form. *)
Definition key_index (key : string) : option nat :=
  d ← NilEmpty.uint_of_string key;
  let n := N.of_uint d in
  if String.eqb (print_N n) key then Some (N.to_nat n) else None.

Fixpoint assoc {A} (key : string) (ps : list (string * A)) : option A :=
  match ps with
  | [] => None
  | (k, x) :: ps' => if String.eqb k key then Some x else assoc key ps'
  end.

Fixpoint chars (s : string) : list string :=
  match s with
  | "" => []
  | String c s' => String c "" :: chars s'
  end.

(** [o[key]] for [o] other than null and undefined; only data properties
    are modelled, a method is not a value here. *)
Definition get_prop (o : jsvalue) (key : string) : jsvalue :=
  match o with
  | VObj ps => default VUndef (assoc key ps)
  | VArr xs =>
      if String.eqb key "length" then VNum (Z.of_nat (length xs))
      else match key_index key with
           | Some i => match xs !! i with
                       | Some (Some x) => x
                       | _ => VUndef
                       end
           | None => VUndef
           end
  | VStr s =>
      if String.eqb key "length" then VNum (Z.of_nat (String.length s))
      else match key_index key with
           | Some i => match chars s !! i with
                       | Some c => VStr c
                       | None => VUndef
                       end
           | None => VUndef
           end
  | VMap es => if String.eqb key "size" then VNum (Z.of_nat (length es)) else VUndef
  | VSet xs => if String.eqb key "size" then VNum (Z.of_nat (length xs)) else VUndef
  | _ => VUndef
  end.

(** [key in o], for an object [o]. *)
Definition has_property (o : jsvalue) (key : string) : bool :=
  match o with
  | VObj ps => match assoc key ps with Some _ => true | None => false end
  | VArr xs =>
      String.eqb key "length" ||
      match key_index key with
      | Some i => match xs !! i with Some (Some _) => true | _ => false end
      | None => false
      end
  | VMap _ | VSet _ => String.eqb key "size"
  | _ => false
  end.

(** [o.key]: a TypeError on null and undefined. *)
Definition Get (o : jsvalue) (key : string) : result jsvalue :=
  if nullish o then Throw TypeError else Ok (get_prop o key).

(** ** JSON.stringify with a replacer function *)

Definition replacer_fn : Type := jsvalue -> string -> jsvalue -> result jsvalue.

(** Date.prototype.toJSON is the only toJSON among the modelled values. *)
Definition toJSON (v : jsvalue) : jsvalue :=
  match v with
  | VDate (Some t) => VStr (toISOString t)
  | VDate None => VNull
  | _ => v
  end.

Definition omit_undefined {A} (l : list (option A)) : list A :=
  omap id l.

(** SerializeJSONProperty ( state, key, holder ); [Ok None] is undefined.
    [fuel] bounds the nesting, as the call stack does. *)
Fixpoint SerializeJSONProperty (fuel : nat) (R : replacer_fn) (key : string) (holder : jsvalue)
  {struct fuel} : result (option json) :=
  match fuel with
  | O => Throw RangeError
  | S f =>
      let value := toJSON (get_prop holder key) in
      match R holder key value with
      | Throw e => Throw e
      | Ok value =>
          match value with
          | VUndef => Ok None
          | VNull => Ok (Some JNull)
          | VBool b => Ok (Some (JBool b))
          | VNum n => Ok (Some (JNum n))
          | VStr s => Ok (Some (JStr s))
          | VArr xs =>
              match mapM_i (fun i _ =>
                              match SerializeJSONProperty f R (index_key i) value with
                              | Ok o => Ok (default JNull o)
                              | Throw e => Throw e
                              end) O xs with
              | Ok js => Ok (Some (JArr js))
              | Throw e => Throw e
              end
          | VObj ps =>
              match mapM_r (fun k =>
                              match SerializeJSONProperty f R k value with
                              | Ok o => Ok (pair k <$> o)
                              | Throw e => Throw e
                              end) (map fst ps) with
              | Ok ms => Ok (Some (JObj (omit_undefined ms)))
              | Throw e => Throw e
              end
          | VDate _ | VMap _ | VSet _ => Ok (Some (JObj []))
          end
      end
  end.

Definition JSON_stringify (fuel : nat) (v : jsvalue) (R : replacer_fn) : result (option string) :=
  match SerializeJSONProperty fuel R "" (VObj [("", v)]) with
  | Ok o => Ok (JSON_print <$> o)
  | Throw e => Throw e
  end.

(** ** JSON.parse with a reviver function *)

Definition reviver_fn : Type := string -> jsvalue -> result jsvalue.

Definition array_of (vs : list jsvalue) : jsvalue :=
  VArr (map (fun v => if is_undefined v then None else Some v) vs).

Definition object_of (ps : list (string * jsvalue)) : jsvalue :=
  VObj (filter (fun p => is_undefined (snd p) = false) ps).

(** InternalizeJSONProperty on the parsed document: children first, a
    child revived to undefined is deleted from its holder. *)
Fixpoint Internalize (R : reviver_fn) (key : string) (j : json) {struct j} : result jsvalue :=
  match j with
  | JNull => R key VNull
  | JBool b => R key (VBool b)
  | JNum n => R key (VNum n)
  | JStr s => R key (VStr s)
  | JArr xs =>
      match mapM_i (fun i x => Internalize R (index_key i) x) O xs with
      | Ok vs => R key (array_of vs)
      | Throw e => Throw e
      end
  | JObj ms =>
      match mapM_r (fun m => match Internalize R (fst m) (snd m) with
                             | Ok v => Ok (fst m, v)
                             | Throw e => Throw e
                             end) ms with
      | Ok ps => R key (object_of ps)
      | Throw e => Throw e
      end
  end.

Definition JSON_parse (text : string) (R : reviver_fn) : result jsvalue :=
  match JSON_read text with
  | Some j => Internalize R "" j
  | None => Throw SyntaxError
  end.

(** ** Date, Map and Set constructors *)

Definition TimeClip (n : Z) : option Z :=
  if (- maxTime <=? n) && (n <=? maxTime) then Some n else None.

(** SameValueZero; two objects of the model are never the same object. *)
Definition same_value_zero (a b : jsvalue) : bool :=
  match a, b with
  | VUndef, VUndef | VNull, VNull => true
  | VBool x, VBool y => Bool.eqb x y
  | VNum x, VNum y => x =? y
  | VStr x, VStr y => String.eqb x y
  | _, _ => false
  end.

Fixpoint map_set (k v : jsvalue) (es : list (jsvalue * jsvalue)) : list (jsvalue * jsvalue) :=
  match es with
  | [] => [(k, v)]
  | (k', v') :: es' =>
      if same_value_zero k' k then (k', v) :: es' else (k', v') :: map_set k v es'
  end.

Fixpoint set_add (x : jsvalue) (xs : list jsvalue) : list jsvalue :=
  match xs with
  | [] => [x]
  | y :: xs' => if same_value_zero y x then xs else y :: set_add x xs'
  end.

(** The values an iterable yields. *)
Definition iterate (v : jsvalue) : result (list jsvalue) :=
  match v with
  | VArr xs => Ok (map (default VUndef) xs)
  | VStr s => Ok (map VStr (chars s))
  | VMap es => Ok (map (fun e => VArr [Some (fst e); Some (snd e)]) es)
  | VSet xs => Ok xs
  | _ => Throw TypeError
  end.

Definition new_Map (v : jsvalue) : result jsvalue :=
  if nullish v then Ok (VMap [])
  else
    items ← iterate v;
    es ← foldl (fun acc item =>
                  es ← acc;
                  if is_object item
                  then Ok (map_set (get_prop item "0") (get_prop item "1") es)
                  else Throw TypeError) (Ok []) items;
    Ok (VMap es).

Definition new_Set (v : jsvalue) : result jsvalue :=
  if nullish v then Ok (VSet [])
  else items ← iterate v; Ok (VSet (foldl (fun acc x => set_add x acc) [] items)).

Definition join (sep : string) (l : list string) : string :=
  match l with
  | [] => ""
  | x :: l' => foldl (fun acc y => acc +:+ sep +:+ y) x l'
  end.

Definition print_Z (z : Z) : string := emit_number z "".

(** ToString of an array element, as Array.prototype.join sees it. A Date
    prints in an implementation-defined form; the model writes its ISO form. *)
Fixpoint element_text (v : jsvalue) : string :=
  match v with
  | VUndef | VNull => ""
  | VBool true => "true"
  | VBool false => "false"
  | VNum n => print_Z n
  | VStr s => s
  | VArr xs => join "," (map (fun o => match o with
                                       | Some x => element_text x
                                       | None => ""
                                       end) xs)
  | VObj _ => "[object Object]"
  | VDate (Some t) => toISOString t
  | VDate None => "Invalid Date"
  | VMap _ => "[object Map]"
  | VSet _ => "[object Set]"
  end.

(** [new Date(v)] with one argument. *)
Definition new_Date (v : jsvalue) : jsvalue :=
  match v with
  | VDate t => VDate t
  | VStr s => VDate (Date_parse s)
  | VUndef => VDate None
  | VNull => VDate (Some 0)
  | VBool b => VDate (Some (if b then 1 else 0))
  | VNum n => VDate (TimeClip n)
  | _ => VDate (Date_parse (element_text v))
  end.

(** * types/index.ts *)

Record ValidationResult : Type := {
  vr_success : bool;
  vr_data : jsvalue;       (* [VUndef] when absent *)
  vr_error : jsvalue;
}.

Record SchemaValidator : Type := {
  parse : jsvalue -> result jsvalue;
  safeParse : option (jsvalue -> result ValidationResult);
}.

Definition MigrationFunction : Type := jsvalue -> result jsvalue.
Definition ValidationErrorHandler : Type := exn -> string -> result unit.

(** An update callback is a function object: [cb_id] is its identity,
    [cb_run] what a call does (return or throw). *)
Record UpdateCallback : Type := {
  cb_id : nat;
  cb_run : jsvalue -> result unit;
}.

Record Serializer : Type := {
  serialize : jsvalue -> result string;
  deserialize : string -> result jsvalue;
}.

Record StoreOptions : Type := {
  opt_key : string;
  opt_schema : SchemaValidator;
  opt_version : option Z;
  opt_migrate : option MigrationFunction;
  opt_ttl : option Z;
  opt_defaultValue : jsvalue;                       (* [VUndef] when not given *)
  opt_onValidationError : option ValidationErrorHandler;
  opt_serializer : Serializer;                      (* [defaultSerializer] when not given *)
  opt_debounce : option Z;
  opt_throttle : option Z;
}.

(** * serializer.ts *)

Definition replacer (this : jsvalue) (key : string) (value : jsvalue) : result jsvalue :=
  let originalValue := if truthy (VStr key) then get_prop this key else value in
  match originalValue with
  | VDate t =>
      match t with
      | Some t => Ok (VObj [("__type", VStr "Date"); ("value", VStr (toISOString t))])
      | None => Throw RangeError
      end
  | VMap es =>
      Ok (VObj [("__type", VStr "Map");
                ("value", VArr (map (fun e => Some (VArr [Some (fst e); Some (snd e)])) es))])
  | VSet xs =>
      Ok (VObj [("__type", VStr "Set"); ("value", VArr (map Some xs))])
  | VUndef => Ok (VObj [("__type", VStr "undefined")])
  | _ => Ok value
  end.

Definition reviver (_key : string) (value : jsvalue) : result jsvalue :=
  if is_object value && has_property value "__type" then
    match get_prop value "__type" with
    | VStr type =>
        if String.eqb type "Date" then Ok (new_Date (get_prop value "value"))
        else if String.eqb type "Map" then new_Map (get_prop value "value")
        else if String.eqb type "Set" then new_Set (get_prop value "value")
        else if String.eqb type "undefined" then Ok VUndef
        else Ok value
    | _ => Ok value
    end
  else Ok value.

Fixpoint value_size (v : jsvalue) : nat :=
  match v with
  | VArr xs => S (fold_right (fun o n => (match o with Some x => value_size x | None => 1 end + n)%nat) O xs)
  | VObj ps => S (fold_right (fun p n => (value_size (snd p) + n)%nat) O ps)
  | VMap es => S (S (fold_right (fun e n => S (value_size (fst e) + value_size (snd e) + n)) O es))
  | VSet xs => S (S (fold_right (fun x n => (value_size x + n)%nat) O xs))
  | _ => 1%nat
  end.

(** Nesting the serializer may need for [data]: a Map adds three levels. *)
Definition stack_depth (data : jsvalue) : nat := (3 * value_size data + 3)%nat.

Definition defaultSerializer : Serializer := {|
  serialize := fun data =>
    let wrapped := VObj [("__root", data)] in
    match JSON_stringify (stack_depth data) wrapped replacer with
    | Ok (Some stringified) => Ok stringified
    | Ok None => Ok "undefined"
    | Throw e => Throw e
    end;
  deserialize := fun data =>
    match JSON_parse data reviver with
    | Ok parsed =>
        Ok (if truthy parsed && is_object parsed && has_property parsed "__root"
            then get_prop parsed "__root"
            else parsed)
    | Throw _ => Throw (Error "Failed to deserialize data")
    end;
|}.

(** * The browser around a store *)

(** A Storage area: its items and the room it has, counted in code units of
    names and values. *)
Record Storage : Type := {
  items : gmap string string;
  quota : N;
}.

Definition used (m : gmap string string) : nat :=
  map_fold (fun k v n => (String.length k + String.length v + n)%nat) O m.

Definition getItem (s : Storage) (k : string) : option string := items s !! k.

Definition setItem (s : Storage) (k v : string) : result Storage :=
  let m := <[k := v]> (items s) in
  if (N.of_nat (used m) <=? quota s)%N then Ok {| items := m; quota := quota s |}
  else Throw QuotaExceededError.

Definition removeItem (s : Storage) (k : string) : Storage :=
  {| items := delete k (items s); quota := quota s |}.

Inductive event : Type :=
| ConsoleError (msg : string) (e : exn)
| ConsoleWarn (msg : string)
| ErrorReported (e : exn) (k : string)      (* onValidationError was called *)
| MigrateCalled (old : jsvalue)             (* migrate was called *)
| Notified (cb : nat) (v : jsvalue).        (* an update callback was called *)

(** The pending timer of the debounce or throttle wrapper around set. *)
Record Limiter : Type := {
  timeoutId : option jsvalue;     (* an armed timer and the argument it captured *)
  lastArgs : option jsvalue;
  isThrottled : bool;
}.

Record World : Type := {
  storage : Storage;
  updateCallbacks : list UpdateCallback;   (* a Set, in insertion order *)
  listening : bool;                        (* the 'storage' listener is attached *)
  limiter : Limiter;
  clock : Z;                               (* Date.now() *)
  log : list event;                        (* calls observed, oldest first *)
}.

Definition with_storage (s : Storage) (w : World) : World :=
  {| storage := s; updateCallbacks := updateCallbacks w; listening := listening w;
     limiter := limiter w; clock := clock w; log := log w |}.
Definition with_callbacks (cs : list UpdateCallback) (l : bool) (w : World) : World :=
  {| storage := storage w; updateCallbacks := cs; listening := l;
     limiter := limiter w; clock := clock w; log := log w |}.
Definition with_limiter (t : Limiter) (w : World) : World :=
  {| storage := storage w; updateCallbacks := updateCallbacks w; listening := listening w;
     limiter := t; clock := clock w; log := log w |}.
Definition with_log (l : list event) (w : World) : World :=
  {| storage := storage w; updateCallbacks := updateCallbacks w; listening := listening w;
     limiter := limiter w; clock := clock w; log := l |}.

(** Synchronous code over the world: it returns or throws, and what it did
    before throwing stays done. *)
Definition M (A : Type) : Type := World -> result A * World.

#[global] Instance M_ret : MRet M := fun A a w => (Ok a, w).
#[global] Instance M_bind : MBind M :=
  fun A B f m w => match m w with
                   | (Ok a, w') => f a w'
                   | (Throw e, w') => (Throw e, w')
                   end.

Definition throw {A} (e : exn) : M A := fun w => (Throw e, w).
Definition lift {A} (r : result A) : M A := fun w => (r, w).
Definition try_catch {A} (body : M A) (handler : exn -> M A) : M A :=
  fun w => match body w with
           | (Throw e, w') => handler e w'
           | r => r
           end.
Definition record (e : event) : M unit := fun w => (Ok tt, with_log (log w ++ [e]) w).
Definition Date_now : M Z := fun w => (Ok (clock w), w).

(** Set.prototype.forEach over the elements as a list. *)
Fixpoint forEach {A} (l : list A) (f : A -> M unit) : M unit :=
  match l with
  | [] => mret tt
  | x :: l' => f x;; forEach l' f
  end.

Definition quoted (s : string) : string := String dquote (s +:+ String dquote "").

(** ToNumber, on the integers of the model; [None] is NaN. A string is read
    as decimal digits with an optional minus sign. *)
Definition StringToNumber (s : string) : option Z :=
  match s with
  | "" => Some 0
  | String c s' =>
      if Ascii.eqb c "-" then
        match s' with
        | "" => None
        | _ => d ← NilEmpty.uint_of_string s'; Some (Z.opp (Z.of_N (N.of_uint d)))
        end
      else d ← NilEmpty.uint_of_string s; Some (Z.of_N (N.of_uint d))
  end.

Definition ToNumber (v : jsvalue) : option Z :=
  match v with
  | VUndef => None
  | VNull => Some 0
  | VBool b => Some (if b then 1 else 0)
  | VNum n => Some n
  | VStr s => StringToNumber s
  | VDate t => t
  | VArr _ => StringToNumber (element_text v)
  | VObj _ | VMap _ | VSet _ => None
  end.

(** [a > b] for a number [a]. *)
Definition number_gt (a : Z) (b : jsvalue) : bool :=
  match ToNumber b with
  | Some n => a >? n
  | None => false
  end.

(** [a > b] for a number [b]. *)
Definition gt_number (a : jsvalue) (b : Z) : bool :=
  match ToNumber a with
  | Some n => n >? b
  | None => false
  end.

(** [a === b] for a number [b]. *)
Definition strict_eq_number (a : jsvalue) (b : Z) : bool :=
  match a with
  | VNum n => n =? b
  | _ => false
  end.

(** A number or undefined option as a value. *)
Definition number_or_undefined (n : option Z) : jsvalue :=
  match n with Some z => VNum z | None => VUndef end.

(** * store.ts *)

Section createStore.
Variable options : StoreOptions.

Local Abbreviation key := (opt_key options).
Local Abbreviation schema := (opt_schema options).
Local Abbreviation version := (opt_version options).
Local Abbreviation migrate := (opt_migrate options).
Local Abbreviation ttl := (opt_ttl options).
Local Abbreviation defaultValue := (opt_defaultValue options).
Local Abbreviation onValidationError := (opt_onValidationError options).
Local Abbreviation serializer := (opt_serializer options).
Local Abbreviation debounceMs := (opt_debounce options).
Local Abbreviation throttleMs := (opt_throttle options).

(** [if (onValidationError) onValidationError(error, key)] *)
Definition report (error : exn) : M unit :=
  match onValidationError with
  | Some handler => record (ErrorReported error key);; lift (handler error key)
  | None => mret tt
  end.

(** [defaultValue ?? null] *)
Definition default_or_null : jsvalue :=
  if nullish defaultValue then VNull else defaultValue.

Definition validate (data : jsvalue) : M jsvalue :=
  try_catch
    (match safeParse schema with
     | Some safeParse =>
         result ← lift (safeParse data);
         if vr_success result && negb (is_undefined (vr_data result))
         then mret (vr_data result)
         else report (ErrorValue (vr_error result));; mret VNull
     | None => lift (parse schema data)
     end)
    (fun error => report error;; mret VNull).


Definition isExpired (storedData : jsvalue) : M bool :=
expiresAt ← lift (Get storedData "expiresAt");
if negb (truthy expiresAt) then mret false
else now ← Date_now; mret (number_gt now expiresAt).

(** [!version] *)
Definition no_version : bool :=
match version with
| Some v => v =? 0
| None => true
end.

Definition migrateData (storedData : jsvalue) : M jsvalue :=
match migrate with
| None => lift (Get storedData "value")
| Some migrate =>
    if no_version then lift (Get storedData "value")
    else
      let version := default 0 version in
      storedVersion ← lift (Get storedData "version");
      if strict_eq_number storedVersion version then lift (Get storedData "value")
      else if truthy storedVersion && gt_number storedVersion version then
        record (ConsoleWarn ("SafeStorage: Stored data version (" +:+ element_text storedVersion
                             +:+ ") is newer than current version (" +:+ print_Z version
                             +:+ ") for key " +:+ quoted key));;
        lift (Get storedData "value")
      else
        try_catch
          (value ← lift (Get storedData "value");
           record (MigrateCalled value);;
           lift (migrate value))
          (fun error =>
             record (ConsoleError ("SafeStorage: Migration failed for key " +:+ quoted key) error);;
             report error;;
             mret VNull)
end.

Definition notifyCallbacks (value : jsvalue) : M unit :=
fun w =>
  forEach (updateCallbacks w)
    (fun callback =>
       try_catch
         (record (Notified (cb_id callback) value);; lift (cb_run callback value))
         (fun error => record (ConsoleError "SafeStorage: Update callback error" error))) w.

Definition storage_getItem (k : string) : M (option string) :=
fun w => (Ok (getItem (storage w) k), w).
Definition storage_setItem (k v : string) : M unit :=
fun w => match setItem (storage w) k v with
         | Ok s => (Ok tt, with_storage s w)
         | Throw e => (Throw e, w)
         end.
Definition storage_removeItem (k : string) : M unit :=
fun w => (Ok tt, with_storage (removeItem (storage w) k) w).

(** [!ttl] is false *)
Definition has_ttl : bool :=
match ttl with
| Some t => negb (t =? 0)
| None => false
end.

Definition _setInternal (data : jsvalue) : M unit :=
try_catch
  (validatedData ← validate data;
   (if is_null validatedData then throw (Error "Validation failed") else mret tt);;
   timestamp ← Date_now;
   let storedData := [("value", validatedData);
                      ("version", number_or_undefined version);
                      ("timestamp", VNum timestamp)] in
   storedData ← (if has_ttl
                 then now ← Date_now;
                      mret (storedData ++ [("expiresAt", VNum (now + default 0 ttl))])
                 else mret storedData);
   serialized ← lift (serialize serializer (VObj storedData));
   storage_setItem key serialized;;
   notifyCallbacks validatedData)
  (fun error =>
     record (ConsoleError ("SafeStorage: Failed to set value for key " +:+ quoted key) error);;
     throw error).

(** debounce.ts: the wrapped function only arms a timer; [debounce_timeout]
    is the timer's callback. *)
Definition truthy_ms (ms : option Z) : bool :=
match ms with
| Some d => negb (d =? 0)
| None => false
end.

Definition get_limiter : M Limiter := fun w => (Ok (limiter w), w).
Definition put_limiter (t : Limiter) : M unit := fun w => (Ok tt, with_limiter t w).

Definition debounce (fn : jsvalue -> M unit) : jsvalue -> M unit :=
fun args =>
  t ← get_limiter;
  put_limiter {| timeoutId := Some args; lastArgs := Some args; isThrottled := isThrottled t |}.

Definition debounce_timeout (fn : jsvalue -> M unit) : M unit :=
t ← get_limiter;
match timeoutId t with
| Some args =>
    fn args;;
    t ← get_limiter;
    put_limiter {| timeoutId := None; lastArgs := None; isThrottled := isThrottled t |}
| None => mret tt
end.

Definition throttle (fn : jsvalue -> M unit) : jsvalue -> M unit :=
fun args =>
  t ← get_limiter;
  if isThrottled t
  then put_limiter {| timeoutId := timeoutId t; lastArgs := Some args; isThrottled := true |}
  else
    fn args;;
    t ← get_limiter;
    put_limiter {| timeoutId := Some args; lastArgs := lastArgs t; isThrottled := true |}.

Definition throttle_timeout (fn : jsvalue -> M unit) : M unit :=
t ← get_limiter;
match timeoutId t with
| Some _ =>
    put_limiter {| timeoutId := timeoutId t; lastArgs := lastArgs t; isThrottled := false |};;
    match lastArgs t with
    | Some args =>
        fn args;;
        t ← get_limiter;
        put_limiter {| timeoutId := timeoutId t; lastArgs := None;
                       isThrottled := isThrottled t |}
    | None => mret tt
    end;;
    t ← get_limiter;
    put_limiter {| timeoutId := None; lastArgs := lastArgs t; isThrottled := isThrottled t |}
| None => mret tt
end.

Definition set : jsvalue -> M unit :=
if truthy_ms debounceMs then debounce _setInternal
else if truthy_ms throttleMs then throttle _setInternal
else _setInternal.

(** [!raw] for the string or null that getItem returns. *)
Definition no_raw (raw : option string) : bool :=
match raw with
| Some s => String.eqb s ""
| None => true
end.

(** The statements of get's try block. *)
Definition get_try : M jsvalue :=
raw ← storage_getItem key;
if no_raw raw then mret default_or_null
else
  storedData ← lift (deserialize serializer (default "" raw));
  expired ← isExpired storedData;
  if (expired : bool) then (storage_removeItem key;; mret default_or_null)
  else
    value ← migrateData storedData;
    if is_null value then mret default_or_null
    else
      value ← validate value;
      if is_null value then (storage_removeItem key;; mret default_or_null)
      else
        (if negb no_version
            && negb (strict_eq_number (get_prop storedData "version") (default 0 version))
         then set value else mret tt);;
        mret value.

Definition get : M jsvalue :=
try_catch get_try
  (fun error =>
     record (ConsoleError ("SafeStorage: Failed to get value for key " +:+ quoted key) error);;
     report error;;
     mret default_or_null).

Definition update (fn : jsvalue -> result jsvalue) : M unit :=
current ← get;
newValue ← lift (fn current);
set newValue.

Definition remove : M unit :=
storage_removeItem key;;
notifyCallbacks VNull.

Definition has : M bool :=
value ← get; mret (negb (is_null value)).

Definition getRaw : M jsvalue :=
try_catch
  (raw ← storage_getItem key;
   if no_raw raw then mret VNull
   else lift (deserialize serializer (default "" raw)))
  (fun _ => mret VNull).

(** A StorageEvent: [key] and [newValue] are strings or null. *)
Record StorageEvent : Type := {
  ev_key : option string;
  ev_newValue : option string;
}.

(** The statements of handleStorageEvent's try block. *)
Definition handleStorageEvent_try (newValue : string) : M unit :=
storedData ← lift (deserialize serializer newValue);
expired ← isExpired storedData;
if (expired : bool) then notifyCallbacks VNull
else
  value ← migrateData storedData;
  if negb (is_null value) then
    value ← validate value;
    if negb (is_null value) then notifyCallbacks value else mret tt
  else mret tt.

Definition handleStorageEvent (event : StorageEvent) : M unit :=
if negb (bool_decide (ev_key event = Some key)) then mret tt
else
  match ev_newValue event with
  | None => notifyCallbacks VNull
  | Some newValue =>
      try_catch (handleStorageEvent_try newValue)
        (fun error =>
           record (ConsoleError ("SafeStorage: Failed to handle storage event for key "
                                 +:+ quoted key) error))
  end.

Definition same_callback (a b : UpdateCallback) : bool := Nat.eqb (cb_id a) (cb_id b).

Definition onUpdate (callback : UpdateCallback) : M unit :=
fun w =>
  let cs := updateCallbacks w in
  (Ok tt, with_callbacks (if existsb (same_callback callback) cs then cs else cs ++ [callback])
                         true w).

(** The function onUpdate returns. *)
Definition unsubscribe (callback : UpdateCallback) : M unit :=
fun w =>
  let cs := filter (fun c => same_callback callback c = false) (updateCallbacks w) in
  (Ok tt, with_callbacks cs (if decide (cs = []) then false else listening w) w).

End createStore.

(** * Properties *)

(** ** Reading back what was printed *)

Section JsonInd.
Variable P : json -> Prop.
Hypothesis HNull : P JNull.
Hypothesis HBool : forall b, P (JBool b).
Hypothesis HNum : forall n, P (JNum n).
Hypothesis HStr : forall s, P (JStr s).
Hypothesis HArr : forall xs, Forall P xs -> P (JArr xs).
Hypothesis HObj : forall ms, Forall (fun m => P (snd m)) ms -> P (JObj ms).

Fixpoint json_ind (j : json) : P j :=
  match j with
  | JNull => HNull
  | JBool b => HBool b
  | JNum n => HNum n
  | JStr s => HStr s
  | JArr xs =>
      HArr xs ((fix go (l : list json) : Forall P l :=
                  match l with
                  | [] => List.Forall_nil P
                  | x :: l' => List.Forall_cons P x l' (json_ind x) (go l')
                  end) xs)
  | JObj ms =>
      HObj ms ((fix go (l : list (string * json)) : Forall (fun m => P (snd m)) l :=
                  match l with
                  | [] => List.Forall_nil _
                  | m :: l' => List.Forall_cons _ m l' (json_ind (snd m)) (go l')
                  end) ms)
  end.
End JsonInd.

(** Object names are pairwise distinct, at every depth. *)
Fixpoint json_wf (j : json) : Prop :=
  match j with
  | JArr xs => (fix all (l : list json) : Prop :=
                  match l with [] => True | x :: l' => json_wf x /\ all l' end) xs
  | JObj ms => NoDup (map fst ms) /\
               (fix all (l : list (string * json)) : Prop :=
                  match l with [] => True | m :: l' => json_wf (snd m) /\ all l' end) ms
  | _ => True
  end.

Fixpoint json_size (j : json) : nat :=
  match j with
  | JArr xs => S (fold_right (fun x n => S (json_size x + n)) O xs)
  | JObj ms => S (fold_right (fun m n => S (json_size (snd m) + n)) O ms)
  | _ => 1%nat
  end.

Definition is_delim (k : string) : bool :=
  match k with
  | "" => true
  | String c _ => Ascii.eqb c "," || Ascii.eqb c "]" || Ascii.eqb c "}"
  end.

Lemma append_assoc' (a b c : string) : (a +:+ b) +:+ c = a +:+ (b +:+ c).
Proof. induction a; simpl; congruence. Qed.

Lemma span_digits_uint (d : uint) (k : string) :
  match k with String c _ => is_digit c = false | "" => True end ->
  span_digits (NilEmpty.string_of_uint d +:+ k) = (NilEmpty.string_of_uint d, k).
Proof.
  intros Hk. induction d; simpl; try (rewrite IHd; reflexivity).
  destruct k as [|c k']; [reflexivity|]. simpl. now rewrite Hk.
Qed.

Lemma delim_not_digit (k : string) :
  is_delim k = true -> match k with String c _ => is_digit c = false | "" => True end.
Proof.
  destruct k as [|c k']; [easy|]. simpl. intros H.
  apply orb_prop in H as [H|H]; [apply orb_prop in H as [H|H]|];
    apply Ascii.eqb_eq in H; subst c; reflexivity.
Qed.

Lemma delim_not_frac (k : string) : is_delim k = true -> frac_start k = false.
Proof.
  destruct k as [|c k']; [easy|]. simpl. intros H.
  apply orb_prop in H as [H|H]; [apply orb_prop in H as [H|H]|];
    apply Ascii.eqb_eq in H; subst c; reflexivity.
Qed.

Lemma print_N_head (n : N) : exists c s, print_N n = String c s /\ is_digit c = true.
Proof.
  unfold print_N. destruct n as [|p]; simpl; [eexists _, _; split; reflexivity|].
  pose proof (DecimalPos.Unsigned.to_uint_nonnil p) as Hn.
  destruct (Pos.to_uint p); try congruence; simpl; eexists _, _; split; reflexivity.
Qed.

Lemma read_unsigned_print (neg : bool) (n : N) (k : string) :
  is_delim k = true ->
  read_unsigned neg (print_N n +:+ k) = Some (if neg then - Z.of_N n else Z.of_N n, k).
Proof.
  intros Hk. unfold read_unsigned, print_N at 1.
  rewrite span_digits_uint by now apply delim_not_digit.
  rewrite NilEmpty.usu. simpl.
  rewrite DecimalN.Unsigned.of_to. fold (print_N n).
  rewrite String.eqb_refl. simpl. now rewrite delim_not_frac.
Qed.

Lemma read_number_emit (z : Z) (k : string) :
  is_delim k = true -> read_number (emit_number z k) = Some (z, k).
Proof.
  intros Hk. unfold emit_number, read_number.
  destruct (Z.ltb_spec z 0) as [Hz|Hz].
  - simpl. rewrite read_unsigned_print by assumption. f_equal. f_equal. lia.
  - destruct (print_N_head (Z.to_N z)) as (c & s & Hp & Hc).
    rewrite Hp. simpl.
    destruct (Ascii.eqb_spec c "-") as [->|_]; [discriminate|].
    change (String c (s +:+ k)) with (String c s +:+ k). rewrite <- Hp.
    rewrite read_unsigned_print by assumption. f_equal. f_equal. lia.
Qed.

Lemma emit_number_head (z : Z) (k : string) :
  exists c s, emit_number z k = String c s /\
              (c = "-"%char \/ is_digit c = true).
Proof.
  unfold emit_number. destruct (z <? 0).
  - eexists _, _; split; [reflexivity|now left].
  - destruct (print_N_head (Z.to_N z)) as (c & s & -> & Hc).
    exists c, (s +:+ k); split; [reflexivity|now right].
Qed.

(** Strings *)

Lemma hex_val_digit (n : N) : (n < 16)%N -> hex_val (hex_digit n) = Some n.
Proof.
  intros H. assert (Hc : n ∈ [0;1;2;3;4;5;6;7;8;9;10;11;12;13;14;15]%N).
  { rewrite !elem_of_cons. lia. }
  rewrite !elem_of_cons in Hc.
  repeat (destruct Hc as [->|Hc]; [reflexivity|]). now apply elem_of_nil in Hc.
Qed.

Lemma read_chars_emit (s k : string) :
  read_chars (emit_chars s (String dquote k)) = Some (s, k).
Proof.
  induction s as [|c s IH]; [reflexivity|].
  simpl emit_chars.
  destruct c as [[] [] [] [] [] [] [] []];
    (vm_compute escape_char; simpl; rewrite IH; reflexivity).
Qed.

Lemma read_string_emit (s k : string) :
  read_string (emit_string s k) = Some (s, k).
Proof. unfold emit_string. simpl. apply read_chars_emit. Qed.

(** Values *)

Lemma emit_head (j : json) (k : string) :
  exists c s, emit j k = String c s /\ is_ws c = false /\
              c <> "]"%char /\ c <> "}"%char.
Proof.
  destruct j as [|[]|n|s|[|x xs]|[|m ms]]; simpl;
    try (eexists _, _; split; [reflexivity|repeat split; discriminate]).
  destruct (emit_number_head n k) as (c & s & -> & [->|Hc]).
  - eexists _, _; split; [reflexivity|repeat split; discriminate].
  - exists c, s; split; [reflexivity|].
    destruct c as [[] [] [] [] [] [] [] []]; try discriminate; repeat split; discriminate.
Qed.

Lemma skip_ws_emit (j : json) (k : string) : skip_ws (emit j k) = emit j k.
Proof.
  destruct (emit_head j k) as (c & s & -> & Hc & _). simpl. now rewrite Hc.
Qed.

Lemma obj_set_fresh {A} (n : string) (x : A) (acc : list (string * A)) :
  n ∉ map fst acc -> obj_set n x acc = acc ++ [(n, x)].
Proof.
  induction acc as [|[m y] acc IH]; simpl; [reflexivity|].
  intros Hn. apply not_elem_of_cons in Hn as [Hm Hn].
  destruct (String.eqb_spec m n) as [->|_]; [congruence|]. now rewrite IH.
Qed.

Lemma is_delim_elements E k ys : is_delim (emit_elements E k ys) = true.
Proof. destruct ys; reflexivity. Qed.

Lemma is_delim_members E k ys : is_delim (emit_members E k ys) = true.
Proof. destruct ys; reflexivity. Qed.

Definition elements_size (xs : list json) : nat :=
  fold_right (fun x n => S (json_size x + n)) O xs.
Definition members_size (ms : list (string * json)) : nat :=
  fold_right (fun m n => S (json_size (snd m) + n)) O ms.

Definition reads_back (j : json) : Prop :=
  json_wf j -> forall fuel k, (json_size j <= fuel)%nat -> is_delim k = true ->
  read_value fuel (emit j k) = Some (j, k).

Lemma read_elements_S f s acc :
  read_elements (S f) s acc =
  '(x, s1) ← read_value f s;
  match skip_ws s1 with
  | String "," s2 => read_elements f s2 (acc ++ [x])
  | String "]" s2 => Some (JArr (acc ++ [x]), s2)
  | _ => None
  end.
Proof. reflexivity. Qed.

Lemma read_members_S f s acc :
  read_members (S f) s acc =
  '(n, s1) ← read_string (skip_ws s);
  match skip_ws s1 with
  | String ":" s2 =>
      '(x, s3) ← read_value f s2;
      match skip_ws s3 with
      | String "," s4 => read_members f s4 (obj_set n x acc)
      | String "}" s4 => Some (JObj (obj_set n x acc), s4)
      | _ => None
      end
  | _ => None
  end.
Proof. reflexivity. Qed.

Lemma skip_ws_emit_string s k : skip_ws (emit_string s k) = emit_string s k.
Proof. reflexivity. Qed.

Lemma read_elements_emit (xs : list json) :
  Forall reads_back xs ->
  forall x acc fuel k,
    reads_back x -> json_wf (JArr (x :: xs)) ->
    (elements_size (x :: xs) <= fuel)%nat ->
    read_elements fuel (emit x (emit_elements emit k xs)) acc
    = Some (JArr (acc ++ x :: xs), k).
Proof.
  induction 1 as [|y ys Hy _ IH]; intros x acc fuel k Hx Hwf Hsz.
  - destruct fuel as [|f]; [simpl in Hsz; lia|]. simpl in Hsz, Hwf.
    rewrite read_elements_S. rewrite Hx; [|tauto|lia|reflexivity]. reflexivity.
  - destruct fuel as [|f]; [simpl in Hsz; lia|].
    change (elements_size (x :: y :: ys)) with (S (json_size x + elements_size (y :: ys))) in Hsz.
    rewrite read_elements_S. simpl in Hwf.
    rewrite Hx; [|tauto|lia|reflexivity]. simpl.
    rewrite (IH y (acc ++ [x]) f k Hy); [|simpl; tauto|lia].
    now rewrite <- app_assoc.
Qed.

Lemma read_members_emit (ms : list (string * json)) :
  Forall (fun m => reads_back (snd m)) ms ->
  forall n x acc fuel k,
    reads_back x ->
    NoDup (map fst (acc ++ (n, x) :: ms)) ->
    json_wf (JObj ((n, x) :: ms)) ->
    (members_size ((n, x) :: ms) <= fuel)%nat ->
    read_members fuel (emit_string n (String ":" (emit x (emit_members emit k ms)))) acc
    = Some (JObj (acc ++ (n, x) :: ms), k).
Proof.
  induction 1 as [|[m y] ys Hy _ IH]; intros n x acc fuel k Hx Hnd Hwf Hsz;
    (destruct fuel as [|f]; [simpl in Hsz; lia|]);
    assert (Hfresh : n ∉ map fst acc)
      by (rewrite map_app in Hnd; apply NoDup_app in Hnd as (_ & Hd & _);
          intros Hin; apply (Hd n Hin); simpl; left);
    rewrite read_members_S, skip_ws_emit_string, read_string_emit; simpl;
    simpl in Hwf.
  - simpl in Hsz. rewrite Hx; [|tauto|lia|reflexivity]. simpl.
    now rewrite obj_set_fresh.
  - change (members_size ((n, x) :: (m, y) :: ys))
      with (S (json_size x + members_size ((m, y) :: ys))) in Hsz.
    rewrite Hx; [|tauto|lia|reflexivity]. simpl.
    rewrite obj_set_fresh by assumption.
    rewrite (IH m y (acc ++ [(n, x)]) f k Hy).
    + now rewrite <- app_assoc.
    + now rewrite <- app_assoc.
    + simpl. destruct Hwf as (Hnd' & _ & Hy' & Hys). split; [|tauto].
      now apply NoDup_cons in Hnd' as [_ ?].
    + lia.
Qed.

Lemma read_value_emit (j : json) : reads_back j.
Proof.
  induction j as [|b|n|s|xs IH|ms IH] using json_ind;
    intros Hwf fuel k Hsz Hk; (destruct fuel as [|f]; [simpl in Hsz; lia|]).
  - reflexivity.
  - destruct b; reflexivity.
  - simpl emit. destruct (emit_number_head n k) as (c & s & He & Hc).
    pose proof (read_number_emit n k Hk) as Hr. rewrite He in *.
    destruct Hc as [->|Hc].
    + simpl. simpl in Hr. now rewrite Hr.
    + destruct c as [[] [] [] [] [] [] [] []]; try discriminate;
        (simpl; simpl in Hr; (rewrite Hr || idtac); reflexivity).
  - simpl. now rewrite read_chars_emit.
  - destruct xs as [|x xs]; [reflexivity|].
    apply Forall_cons in IH as [Hx Hxs].
    simpl emit. simpl read_value.
    rewrite skip_ws_emit.
    destruct (emit_head x (emit_elements emit k xs)) as (c & s & He & _ & Hc & _).
    rewrite He. rewrite <- He.
    replace (match String c s with String "]"%char s2 => Some (JArr [], s2) | _ => read_elements f (emit x (emit_elements emit k xs)) [] end)
      with (read_elements f (emit x (emit_elements emit k xs)) []).
    + rewrite (read_elements_emit xs Hxs x [] f k Hx Hwf); [reflexivity|].
      simpl in Hsz. unfold elements_size. simpl. lia.
    + destruct c as [[] [] [] [] [] [] [] []]; try reflexivity. congruence.
  - destruct ms as [|[n x] ms]; [reflexivity|].
    apply Forall_cons in IH as [Hx Hxs].
    simpl emit. simpl read_value.
    rewrite (read_members_emit ms Hxs n x [] f k Hx); [reflexivity| |exact Hwf|].
    + simpl in Hwf. simpl. tauto.
    + simpl in Hsz. unfold members_size. simpl. lia.
Qed.

Lemma length_append (a b : string) :
  String.length (a +:+ b) = (String.length a + String.length b)%nat.
Proof. induction a; simpl; congruence. Qed.

Lemma length_emit_string s k : (String.length k < String.length (emit_string s k))%nat.
Proof.
  unfold emit_string. simpl. apply Nat.lt_succ_r.
  induction s as [|c s IH]; simpl; [lia|]. rewrite length_append. lia.
Qed.

Lemma length_emit_number n k : (String.length k < String.length (emit_number n k))%nat.
Proof.
  destruct (emit_number_head n k) as (c & s & He & _).
  unfold emit_number in *. destruct (n <? 0).
  - simpl. rewrite length_append. lia.
  - destruct (print_N_head (Z.to_N n)) as (c' & s' & Hp & _).
    rewrite Hp. simpl. rewrite length_append. lia.
Qed.

Lemma length_emit (j : json) :
  forall k, (json_size j + String.length k <= String.length (emit j k))%nat.
Proof.
  induction j as [|b|n|s|xs IH|ms IH] using json_ind; intros k.
  - simpl. lia.
  - destruct b; simpl; lia.
  - pose proof (length_emit_number n k).
    change (emit (JNum n) k) with (emit_number n k). simpl json_size. lia.
  - pose proof (length_emit_string s k).
    change (emit (JStr s) k) with (emit_string s k). simpl json_size. lia.
  - destruct xs as [|x xs]; [simpl; lia|].
    apply Forall_cons in IH as [Hx Hxs].
    assert (Ht : (elements_size xs + S (String.length k)
                  <= String.length (emit_elements emit k xs))%nat).
    { induction Hxs as [|y ys Hy _ IHys]; simpl; [lia|].
      specialize (Hy (emit_elements emit k ys)). lia. }
    specialize (Hx (emit_elements emit k xs)).
    change (json_size (JArr (x :: xs))) with (S (S (json_size x + elements_size xs))).
    simpl emit. simpl String.length. lia.
  - destruct ms as [|[n x] ms]; [simpl; lia|].
    apply Forall_cons in IH as [Hx Hxs]. simpl in Hx.
    assert (Ht : (members_size ms + S (String.length k)
                  <= String.length (emit_members emit k ms))%nat).
    { induction Hxs as [|[m y] ys Hy _ IHys]; simpl; [lia|].
      pose proof (length_emit_string m (String ":" (emit y (emit_members emit k ys)))) as Hl.
      specialize (Hy (emit_members emit k ys)). simpl in Hl, Hy. lia. }
    specialize (Hx (emit_members emit k ms)).
    pose proof (length_emit_string n (String ":" (emit x (emit_members emit k ms)))) as Hl.
    change (json_size (JObj ((n, x) :: ms))) with (S (S (json_size x + members_size ms))).
    simpl emit. simpl String.length. simpl in Hl. lia.
Qed.

(** JSON.parse(JSON.stringify(j)) is [j]. *)
Lemma JSON_read_print (j : json) : json_wf j -> JSON_read (JSON_print j) = Some j.
Proof.
  intros Hwf. unfold JSON_read, JSON_print.
  rewrite read_value_emit; [reflexivity|assumption| |reflexivity].
  pose proof (length_emit j ""). simpl in *. lia.
Qed.
(** ** Date.parse reads back toISOString *)

Lemma digit_value_char (x : Z) : 0 <= x <= 9 -> digit_value (digit_char x) = Some x.
Proof.
  intros H. assert (Hc : x ∈ [0;1;2;3;4;5;6;7;8;9]) by (rewrite !elem_of_cons; lia).
  rewrite !elem_of_cons in Hc.
  repeat (destruct Hc as [->|Hc]; [reflexivity|]). now apply elem_of_nil in Hc.
Qed.

Lemma digit_char_not_sign (x : Z) :
  0 <= x <= 9 ->
  Ascii.eqb (digit_char x) "+" = false /\ Ascii.eqb (digit_char x) "-" = false.
Proof.
  intros H. assert (Hc : x ∈ [0;1;2;3;4;5;6;7;8;9]) by (rewrite !elem_of_cons; lia).
  rewrite !elem_of_cons in Hc.
  repeat (destruct Hc as [->|Hc]; [split; reflexivity|]). now apply elem_of_nil in Hc.
Qed.

Lemma take_digits_emit (n : nat) :
  forall (m : nat) (v acc : Z) (k : string),
    0 <= v < 10 ^ Z.of_nat n ->
    take_digits (n + m) acc (emit_digits n v k)
    = take_digits m (acc * 10 ^ Z.of_nat n + v) k.
Proof.
  induction n as [|n IH]; intros m v acc k Hv.
  - simpl in *. f_equal. lia.
  - rewrite Nat2Z.inj_succ, Z.pow_succ_r in Hv by lia.
    simpl emit_digits. replace (S n + m)%nat with (n + S m)%nat by lia.
    rewrite IH by (split; [apply Z.div_pos; lia|apply Z.div_lt_upper_bound; lia]).
    simpl take_digits.
    rewrite digit_value_char by (pose proof (Z.mod_pos_bound v 10); lia). simpl.
    f_equal. rewrite Nat2Z.inj_succ, Z.pow_succ_r by lia.
    pose proof (Z.div_mod v 10 ltac:(lia)). lia.
Qed.

Lemma take_digits_emit0 (n : nat) (v : Z) (k : string) :
  0 <= v < 10 ^ Z.of_nat n ->
  take_digits n 0 (emit_digits n v k) = Some (v, k).
Proof.
  intros Hv. pose proof (take_digits_emit n 0 v 0 k Hv) as H.
  rewrite Nat.add_0_r in H. rewrite H. reflexivity.
Qed.

Lemma emit_digits_head (n : nat) (v : Z) (k : string) :
  0 <= v ->
  exists x s, emit_digits (S n) v k = String (digit_char x) s /\ 0 <= x <= 9.
Proof.
  revert v k. induction n as [|n IH]; intros v k Hv.
  - simpl. eexists _, _; split; [reflexivity|]. pose proof (Z.mod_pos_bound v 10). lia.
  - change (emit_digits (S (S n)) v k)
      with (emit_digits (S n) (v / 10) (String (digit_char (v mod 10)) k)).
    apply IH. apply Z.div_pos; lia.
Qed.

Lemma take_year_emit (y : Z) (k : string) :
  -999999 <= y <= 999999 -> take_year (emit_year y k) = Some (y, k).
Proof.
  intros Hy. unfold emit_year.
  destruct ((0 <=? y) && (y <=? 9999)) eqn:E.
  - apply andb_prop in E as [H0 H1].
    apply Z.leb_le in H0. apply Z.leb_le in H1.
    destruct (emit_digits_head 3 y k H0) as (x & s & He & Hx). rewrite He.
    unfold take_year. destruct (digit_char_not_sign x Hx) as [-> ->]. rewrite <- He.
    apply take_digits_emit0. simpl. lia.
  - assert (Hr : y < 0 \/ 9999 < y).
    { apply andb_false_iff in E as [E|E]; [apply Z.leb_gt in E|apply Z.leb_gt in E]; lia. }
    destruct (Z.ltb_spec y 0) as [Hn|Hn].
    + change (take_year (String "-" (emit_digits 6 (- y) k)))
        with (match take_digits 6 0 (emit_digits 6 (- y) k) with
              | Some (v, r) => Some (Z.opp v, r)
              | None => None
              end).
      rewrite (take_digits_emit0 6) by (simpl; lia). f_equal. f_equal. lia.
    + change (take_year (String "+" (emit_digits 6 y k)))
        with (take_digits 6 0 (emit_digits 6 y k)).
      apply (take_digits_emit0 6). simpl. lia.
Qed.

(** The calendar, one era checked exhaustively. *)
Definition era_ok (doe : Z) : bool :=
  let '(yoe, m, d) := civil_of_doe doe in
  (0 <=? yoe) && (yoe <? 400) && (1 <=? m) && (m <=? 12) && (1 <=? d) && (d <=? 31)
  && (doe_of_civil yoe m d =? doe).

Fixpoint all_from (n : nat) (z : Z) (p : Z -> bool) : bool :=
  match n with
  | O => true
  | S n' => p z && all_from n' (z + 1) p
  end.

Lemma all_from_spec (n : nat) :
  forall z p, all_from n z p = true ->
  forall i, z <= i < z + Z.of_nat n -> p i = true.
Proof.
  induction n as [|n IH]; intros z p H i Hi; [lia|].
  simpl in H. apply andb_prop in H as [Hz Hn].
  destruct (Z.eq_dec i z) as [->|Hne]; [assumption|].
  apply (IH (z + 1) p Hn). lia.
Qed.

Lemma era_checked : all_from (Z.to_nat 146097) 0 era_ok = true.
Proof. vm_cast_no_check (eq_refl true). Qed.

Lemma era_ok_all (doe : Z) : 0 <= doe < 146097 -> era_ok doe = true.
Proof. intros H. apply (all_from_spec _ _ _ era_checked). lia. Qed.

Lemma civil_days (z : Z) :
  let '(y, m, d) := civil_from_days z in
  days_from_civil y m d = z /\ 1 <= m <= 12 /\ 1 <= d <= 31.
Proof.
  unfold civil_from_days, days_from_civil.
  pose proof (Z.mod_pos_bound (z + 719468) 146097 ltac:(lia)) as Hdoe.
  pose proof (era_ok_all _ Hdoe) as Hok. unfold era_ok in Hok.
  destruct (civil_of_doe ((z + 719468) mod 146097)) as [[yoe m] d].
  repeat (apply andb_prop in Hok as [Hok ?]).
  set (e := (z + 719468) / 146097) in *.
  replace (yoe + e * 400 + (if m <=? 2 then 1 else 0) - (if m <=? 2 then 1 else 0))
    with (yoe + e * 400) by lia.
  assert (Hy : 0 <= yoe < 400) by lia.
  rewrite Z.div_add by lia. rewrite Z.mod_add by lia.
  rewrite Z.div_small, Z.mod_small by lia.
  split; [|lia].
  replace (doe_of_civil yoe m d) with ((z + 719468) mod 146097) by lia.
  pose proof (Z.div_mod (z + 719468) 146097 ltac:(lia)). subst e. lia.
Qed.

Lemma civil_year_bound (z : Z) :
  -100000000 <= z <= 100000000 ->
  -999999 <= fst (fst (civil_from_days z)) <= 999999.
Proof.
  intros Hz. unfold civil_from_days.
  pose proof (Z.mod_pos_bound (z + 719468) 146097 ltac:(lia)) as Hdoe.
  pose proof (era_ok_all _ Hdoe) as Hok. unfold era_ok in Hok.
  destruct (civil_of_doe ((z + 719468) mod 146097)) as [[yoe m] d].
  repeat (apply andb_prop in Hok as [Hok ?]). simpl.
  assert (-700 <= (z + 719468) / 146097 <= 700).
  { split; [apply Z.div_le_lower_bound|apply Z.div_le_upper_bound]; lia. }
  destruct (m <=? 2); lia.
Qed.

#[local] Ltac step :=
  cbn -[emit_digits take_digits Z.div Z.modulo days_from_civil civil_from_days
       Z.ltb Z.leb MakeDate MakeTime Z.opp].

Lemma Date_parse_toISOString (t : Z) :
  - maxTime <= t <= maxTime -> Date_parse (toISOString t) = Some t.
Proof.
  intros Ht. unfold toISOString, Date_parse, maxTime, msPerDay in *.
  pose proof (civil_days (t / 86400000)) as Hc.
  pose proof (civil_year_bound (t / 86400000)) as Hy.
  destruct (civil_from_days (t / 86400000)) as [[y m] d] eqn:Ecivil.
  destruct Hc as (Hdays & Hm & Hd). simpl in Hy.
  assert (Hday : -100000000 <= t / 86400000 <= 100000000).
  { split; [apply Z.div_le_lower_bound|apply Z.div_le_upper_bound]; lia. }
  specialize (Hy Hday).
  pose proof (Z.mod_pos_bound t 86400000 ltac:(lia)) as Hr.
  set (r := t mod 86400000) in *.
  assert (Hh : 0 <= r / 3600000 < 24).
  { split; [apply Z.div_pos|apply Z.div_lt_upper_bound]; lia. }
  pose proof (Z.mod_pos_bound (r / 60000) 60 ltac:(lia)) as Hmi.
  pose proof (Z.mod_pos_bound (r / 1000) 60 ltac:(lia)) as Hs.
  pose proof (Z.mod_pos_bound r 1000 ltac:(lia)) as Hms.
  rewrite take_year_emit by assumption. step.
  rewrite (take_digits_emit0 2) by (simpl; lia). step.
  rewrite (take_digits_emit0 2) by (simpl; lia). step.
  rewrite Hdays, Ecivil. rewrite bool_decide_eq_true_2 by reflexivity. step.
  rewrite (take_digits_emit0 2) by (simpl; lia). step.
  rewrite (take_digits_emit0 2) by (simpl; lia). step.
  rewrite (take_digits_emit0 2) by (simpl; lia). step.
  rewrite (take_digits_emit0 3) by (simpl; lia). step.
  destruct (Z.ltb_spec (r / 3600000) 24); [|lia].
  destruct (Z.ltb_spec (r / 60000 mod 60) 60); [|lia].
  destruct (Z.ltb_spec (r / 1000 mod 60) 60); [|lia]. simpl.
  assert (Heq : MakeDate (t / 86400000)
                  (MakeTime (r / 3600000) (r / 60000 mod 60) (r / 1000 mod 60) (r mod 1000)) = t).
  { unfold MakeDate, MakeTime, msPerDay. subst r.
    Z.div_mod_to_equations. lia. }
  rewrite Heq.
  assert (Hlo : (- (8640000000000000) <=? t) = true) by (apply Z.leb_le; lia).
  assert (Hhi : (t <=? 8640000000000000) = true) by (apply Z.leb_le; lia).
  rewrite Hlo, Hhi. reflexivity.
Qed.
(** * The serializer's round trip *)

Section ValueInd.
Variable P : jsvalue -> Prop.
Hypothesis HUndef : P VUndef.
Hypothesis HNull : P VNull.
Hypothesis HBool : forall b, P (VBool b).
Hypothesis HNum : forall n, P (VNum n).
Hypothesis HStr : forall s, P (VStr s).
Hypothesis HArr : forall xs, Forall (fun o => forall x, o = Some x -> P x) xs -> P (VArr xs).
Hypothesis HObj : forall ps, Forall (fun p => P (snd p)) ps -> P (VObj ps).
Hypothesis HDate : forall t, P (VDate t).
Hypothesis HMap : forall es, Forall (fun e => P (fst e) /\ P (snd e)) es -> P (VMap es).
Hypothesis HSet : forall xs, Forall P xs -> P (VSet xs).

Fixpoint jsvalue_ind (v : jsvalue) : P v :=
  match v with
  | VUndef => HUndef
  | VNull => HNull
  | VBool b => HBool b
  | VNum n => HNum n
  | VStr s => HStr s
  | VArr xs =>
      HArr xs ((fix go (l : list (option jsvalue)) :
                  Forall (fun o => forall x, o = Some x -> P x) l :=
                  match l with
                  | [] => List.Forall_nil _
                  | o :: l' =>
                      List.Forall_cons _ o l'
                        (match o return forall x, o = Some x -> P x with
                         | Some y => fun x E =>
                             match E in _ = r return match r with Some z => P z | None => True end with
                             | eq_refl => jsvalue_ind y
                             end
                         | None => fun x E => match E with end
                         end)
                        (go l')
                  end) xs)
  | VObj ps =>
      HObj ps ((fix go (l : list (string * jsvalue)) : Forall (fun p => P (snd p)) l :=
                  match l with
                  | [] => List.Forall_nil _
                  | p :: l' => List.Forall_cons _ p l' (jsvalue_ind (snd p)) (go l')
                  end) ps)
  | VDate t => HDate t
  | VMap es =>
      HMap es ((fix go (l : list (jsvalue * jsvalue)) :
                  Forall (fun e => P (fst e) /\ P (snd e)) l :=
                  match l with
                  | [] => List.Forall_nil _
                  | e :: l' =>
                      List.Forall_cons _ e l'
                        (conj (jsvalue_ind (fst e)) (jsvalue_ind (snd e))) (go l')
                  end) es)
  | VSet xs =>
      HSet xs ((fix go (l : list jsvalue) : Forall P l :=
                  match l with
                  | [] => List.Forall_nil _
                  | x :: l' => List.Forall_cons _ x l' (jsvalue_ind x) (go l')
                  end) xs)
  end.
End ValueInd.

(** What JSON.stringify with [replacer] writes for a value held under a
    property name other than the empty one. *)
Definition tag_undefined : json := JObj [("__type", JStr "undefined")].
Definition tagged (type : string) (payload : json) : json :=
  JObj [("__type", JStr type); ("value", payload)].

Fixpoint enc (v : jsvalue) : json :=
  match v with
  | VUndef => tag_undefined
  | VNull => JNull
  | VBool b => JBool b
  | VNum n => JNum n
  | VStr s => JStr s
  | VArr xs => JArr (map (fun o => match o with
                                   | Some x => enc x
                                   | None => tag_undefined
                                   end) xs)
  | VObj ps =>
      JObj (map (fun p =>
                   (fst p,
                    match snd p with
                    | VDate (Some t) =>
                        if String.eqb (fst p) "" then JStr (toISOString t) else enc (snd p)
                    | _ => enc (snd p)
                    end)) ps)
  | VDate (Some t) => tagged "Date" (JStr (toISOString t))
  | VDate None => JNull
  | VMap es => tagged "Map" (JArr (map (fun e => JArr [enc (fst e); enc (snd e)]) es))
  | VSet xs => tagged "Set" (JArr (map enc xs))
  end.

Definition enc_slot (o : option jsvalue) : json :=
  match o with Some x => enc x | None => tag_undefined end.

(** ... and under any name: under the empty name toJSON has already turned
    a Date into its text when the replacer looks. *)
Definition enc_at (key : string) (x : jsvalue) : json :=
  match x with
  | VDate (Some t) => if String.eqb key "" then JStr (toISOString t) else enc x
  | _ => enc x
  end.

Definition is_date (v : jsvalue) : bool :=
  match v with VDate _ => true | _ => false end.

Definition type_tags : list string := ["Date"; "Map"; "Set"; "undefined"].

(** A plain object does not look like one of the serializer's tagged objects. *)
Definition untagged (ps : list (string * jsvalue)) : Prop :=
  match assoc "__type" ps with
  | Some (VStr t) => t ∉ type_tags
  | _ => True
  end.

Fixpoint distinct (xs : list jsvalue) : Prop :=
  match xs with
  | [] => True
  | x :: xs' => Forall (fun y => same_value_zero y x = false) xs' /\ distinct xs'
  end.

(** The values the tagged encoding reads back: object names, Map keys and
    Set elements are distinct as in any JavaScript value, every Date is valid,
    no plain object looks like a tagged one, and no Date sits under the empty
    property name. *)
Fixpoint sound (v : jsvalue) : Prop :=
  match v with
  | VArr xs =>
      (fix all (l : list (option jsvalue)) : Prop :=
         match l with
         | [] => True
         | o :: l' =>
             match o with
             | Some x => sound x
             | None => True
             end /\ all l'
         end) xs
  | VObj ps =>
      NoDup (map fst ps) /\ untagged ps /\
      (fix all (l : list (string * jsvalue)) : Prop :=
         match l with
         | [] => True
         | p :: l' => ((fst p = "" -> is_date (snd p) = false) /\ sound (snd p)) /\ all l'
         end) ps
  | VDate t =>
      match t with
      | Some t => - maxTime <= t <= maxTime
      | None => False
      end
  | VMap es =>
      distinct (map fst es) /\
      (fix all (l : list (jsvalue * jsvalue)) : Prop :=
         match l with
         | [] => True
         | e :: l' => (sound (fst e) /\ sound (snd e)) /\ all l'
         end) es
  | VSet xs =>
      distinct xs /\
      (fix all (l : list jsvalue) : Prop :=
         match l with
         | [] => True
         | x :: l' => sound x /\ all l'
         end) xs
  | _ => True
  end.

(** An array element as JSON.parse leaves it: deleted when revived to
    undefined. *)
Definition slot (v : jsvalue) : option jsvalue :=
  if is_undefined v then None else Some v.

(** What comes back for a value: a property that held undefined is gone, an
    array element that held undefined is a hole; Maps and Sets keep theirs. *)
Fixpoint revived (v : jsvalue) : jsvalue :=
  match v with
  | VArr xs => VArr (map (fun o => match o with
                                   | Some x => slot (revived x)
                                   | None => None
                                   end) xs)
  | VObj ps => VObj (filter (fun p => is_undefined (snd p) = false)
                            (map (fun p => (fst p, revived (snd p))) ps))
  | VMap es => VMap (map (fun e => (revived (fst e), revived (snd e))) es)
  | VSet xs => VSet (map revived xs)
  | _ => v
  end.

(** The values the serializer gives back unchanged. Object names, Map keys
    and Set elements are distinct as in any JavaScript value; the other
    conditions exclude what the tagged encoding cannot tell apart. *)
Fixpoint stable (v : jsvalue) : Prop :=
  match v with
  | VArr xs =>
      (fix all (l : list (option jsvalue)) : Prop :=
         match l with
         | [] => True
         | o :: l' =>
             match o with
             | Some x => x <> VUndef /\ stable x
             | None => True
             end /\ all l'
         end) xs
  | VObj ps =>
      NoDup (map fst ps) /\ untagged ps /\
      (fix all (l : list (string * jsvalue)) : Prop :=
         match l with
         | [] => True
         | p :: l' =>
             (snd p <> VUndef /\ (fst p = "" -> is_date (snd p) = false) /\ stable (snd p))
             /\ all l'
         end) ps
  | VDate t =>
      match t with
      | Some t => - maxTime <= t <= maxTime
      | None => False
      end
  | VMap es =>
      distinct (map fst es) /\
      (fix all (l : list (jsvalue * jsvalue)) : Prop :=
         match l with
         | [] => True
         | e :: l' => (stable (fst e) /\ stable (snd e)) /\ all l'
         end) es
  | VSet xs =>
      distinct xs /\
      (fix all (l : list jsvalue) : Prop :=
         match l with
         | [] => True
         | x :: l' => stable x /\ all l'
         end) xs
  | _ => True
  end.

(** The nested conjunctions as [Forall]. *)
Lemma stable_arr xs :
  stable (VArr xs) <->
  Forall (fun o => forall x, o = Some x -> x <> VUndef /\ stable x) xs.
Proof.
  simpl. induction xs as [|o xs IH]; [split; [constructor|trivial]|].
  rewrite Forall_cons, <- IH. destruct o as [x|].
  - split; intros [H1 H2]; (split; [|exact H2]).
    + intros y [= <-]. exact H1.
    + now apply H1.
  - split; intros [H1 H2]; (split; [|exact H2]); [intros y [=]|trivial].
Qed.

Lemma stable_obj ps :
  stable (VObj ps) <->
  NoDup (map fst ps) /\ untagged ps /\
  Forall (fun p => snd p <> VUndef /\ (fst p = "" -> is_date (snd p) = false) /\ stable (snd p)) ps.
Proof.
  simpl. enough (Hall : forall l,
    (fix all (l : list (string * jsvalue)) : Prop :=
       match l with
       | [] => True
       | p :: l' =>
           (snd p <> VUndef /\ (fst p = "" -> is_date (snd p) = false) /\ stable (snd p))
           /\ all l'
       end) l <->
    Forall (fun p => snd p <> VUndef /\ (fst p = "" -> is_date (snd p) = false) /\ stable (snd p)) l)
    by (rewrite Hall; reflexivity).
  induction l as [|p l IH]; [split; [constructor|trivial]|].
  rewrite Forall_cons, <- IH. reflexivity.
Qed.

Lemma stable_map es :
  stable (VMap es) <->
  distinct (map fst es) /\ Forall (fun e => stable (fst e) /\ stable (snd e)) es.
Proof.
  simpl. enough (Hall : forall l,
    (fix all (l : list (jsvalue * jsvalue)) : Prop :=
       match l with
       | [] => True
       | e :: l' => (stable (fst e) /\ stable (snd e)) /\ all l'
       end) l <-> Forall (fun e => stable (fst e) /\ stable (snd e)) l)
    by (rewrite Hall; reflexivity).
  induction l as [|p l IH]; [split; [constructor|trivial]|].
  rewrite Forall_cons, <- IH. reflexivity.
Qed.

Lemma stable_set xs :
  stable (VSet xs) <-> distinct xs /\ Forall stable xs.
Proof.
  simpl. enough (Hall : forall l,
    (fix all (l : list jsvalue) : Prop :=
       match l with
       | [] => True
       | x :: l' => stable x /\ all l'
       end) l <-> Forall stable l)
    by (rewrite Hall; reflexivity).
  induction l as [|p l IH]; [split; [constructor|trivial]|].
  rewrite Forall_cons, <- IH. reflexivity.
Qed.

(** The numbers a value holds, at any depth (the time value of a Date is
    not one of them). *)
Fixpoint numbers (v : jsvalue) : list Z :=
  match v with
  | VNum n => [n]
  | VArr xs => flat_map (fun o => match o with Some x => numbers x | None => [] end) xs
  | VObj ps => flat_map (fun p => numbers (snd p)) ps
  | VMap es => flat_map (fun e => numbers (fst e) ++ numbers (snd e)) es
  | VSet xs => flat_map numbers xs
  | _ => []
  end.

(** Number.isSafeInteger, on the integers of the model: the integers that
    a JavaScript number holds exactly, and that JSON text gives back
    exactly. *)
Definition safe_integer (n : Z) : Prop := - (2 ^ 53 - 1) <= n <= 2 ^ 53 - 1.

(** Every number of the value is a safe integer: the value holds no NaN, no
    infinity, no negative zero, no fraction and no integer beyond 2^53 - 1. *)
Definition safe_integers (v : jsvalue) : Prop := Forall safe_integer (numbers v).

(** ** JSON.stringify with [replacer] writes [enc] *)

(** What the replacer accepts: distinct names in every object, no Invalid Date. *)
Fixpoint encodable (v : jsvalue) : Prop :=
  match v with
  | VArr xs =>
      (fix all (l : list (option jsvalue)) : Prop :=
         match l with
         | [] => True
         | o :: l' => match o with Some x => encodable x | None => True end /\ all l'
         end) xs
  | VObj ps =>
      NoDup (map fst ps) /\
      (fix all (l : list (string * jsvalue)) : Prop :=
         match l with
         | [] => True
         | p :: l' => encodable (snd p) /\ all l'
         end) ps
  | VDate t => is_Some t
  | VMap es =>
      (fix all (l : list (jsvalue * jsvalue)) : Prop :=
         match l with
         | [] => True
         | e :: l' => (encodable (fst e) /\ encodable (snd e)) /\ all l'
         end) es
  | VSet xs =>
      (fix all (l : list jsvalue) : Prop :=
         match l with
         | [] => True
         | x :: l' => encodable x /\ all l'
         end) xs
  | _ => True
  end.

Lemma encodable_arr xs :
  encodable (VArr xs) <-> Forall (fun o => forall x, o = Some x -> encodable x) xs.
Proof.
  simpl. induction xs as [|o xs IH]; [split; [constructor|trivial]|].
  rewrite Forall_cons, <- IH. destruct o as [x|].
  - split; intros [H1 H2]; (split; [|exact H2]); [intros y [= <-]; exact H1|now apply H1].
  - split; intros [H1 H2]; (split; [|exact H2]); [intros y [=]|trivial].
Qed.

Lemma encodable_obj ps :
  encodable (VObj ps) <-> NoDup (map fst ps) /\ Forall (fun p => encodable (snd p)) ps.
Proof.
  simpl. enough (Hall : forall l,
    (fix all (l : list (string * jsvalue)) : Prop :=
       match l with [] => True | p :: l' => encodable (snd p) /\ all l' end) l
    <-> Forall (fun p => encodable (snd p)) l) by (rewrite Hall; reflexivity).
  induction l as [|p l IH]; [split; [constructor|trivial]|].
  rewrite Forall_cons, <- IH. reflexivity.
Qed.

Lemma encodable_map es :
  encodable (VMap es) <-> Forall (fun e => encodable (fst e) /\ encodable (snd e)) es.
Proof.
  simpl. induction es as [|e es IH]; [split; [constructor|trivial]|].
  rewrite Forall_cons, <- IH. reflexivity.
Qed.

Lemma encodable_set xs : encodable (VSet xs) <-> Forall encodable xs.
Proof.
  simpl. induction xs as [|e es IH]; [split; [constructor|trivial]|].
  rewrite Forall_cons, <- IH. reflexivity.
Qed.

Lemma sound_arr xs :
  sound (VArr xs) <-> Forall (fun o => forall x, o = Some x -> sound x) xs.
Proof.
  simpl. induction xs as [|o xs IH]; [split; [constructor|trivial]|].
  rewrite Forall_cons, <- IH. destruct o as [x|].
  - split; intros [H1 H2]; (split; [|exact H2]); [intros y [= <-]; exact H1|now apply H1].
  - split; intros [H1 H2]; (split; [|exact H2]); [intros y [=]|trivial].
Qed.

Lemma sound_obj ps :
  sound (VObj ps) <->
  NoDup (map fst ps) /\ untagged ps /\
  Forall (fun p => (fst p = "" -> is_date (snd p) = false) /\ sound (snd p)) ps.
Proof.
  simpl. enough (Hall : forall l,
    (fix all (l : list (string * jsvalue)) : Prop :=
       match l with
       | [] => True
       | p :: l' => ((fst p = "" -> is_date (snd p) = false) /\ sound (snd p)) /\ all l'
       end) l <->
    Forall (fun p => (fst p = "" -> is_date (snd p) = false) /\ sound (snd p)) l)
    by (rewrite Hall; reflexivity).
  induction l as [|p l IH]; [split; [constructor|trivial]|].
  rewrite Forall_cons, <- IH. reflexivity.
Qed.

Lemma sound_map es :
  sound (VMap es) <->
  distinct (map fst es) /\ Forall (fun e => sound (fst e) /\ sound (snd e)) es.
Proof.
  simpl. enough (Hall : forall l,
    (fix all (l : list (jsvalue * jsvalue)) : Prop :=
       match l with
       | [] => True
       | e :: l' => (sound (fst e) /\ sound (snd e)) /\ all l'
       end) l <-> Forall (fun e => sound (fst e) /\ sound (snd e)) l)
    by (rewrite Hall; reflexivity).
  induction l as [|p l IH]; [split; [constructor|trivial]|].
  rewrite Forall_cons, <- IH. reflexivity.
Qed.

Lemma sound_set xs :
  sound (VSet xs) <-> distinct xs /\ Forall sound xs.
Proof.
  simpl. enough (Hall : forall l,
    (fix all (l : list jsvalue) : Prop :=
       match l with
       | [] => True
       | x :: l' => sound x /\ all l'
       end) l <-> Forall sound l)
    by (rewrite Hall; reflexivity).
  induction l as [|p l IH]; [split; [constructor|trivial]|].
  rewrite Forall_cons, <- IH. reflexivity.
Qed.

Lemma stable_sound (v : jsvalue) : stable v -> sound v.
Proof.
  induction v as [| |b|n|s|xs IH|ps IH|t|es IH|xs IH] using jsvalue_ind; try (intros; exact I).
  - rewrite stable_arr, sound_arr. intros Hs.
    rewrite Forall_forall in *. intros o Ho x Hx.
    apply (IH o Ho x Hx). now apply (Hs o Ho x Hx).
  - rewrite stable_obj, sound_obj. intros (Hnd & Hu & Hs). split; [assumption|]. split; [assumption|].
    rewrite Forall_forall in *. intros p Hp. destruct (Hs p Hp) as (_ & Hd & Hst).
    split; [exact Hd|]. now apply (IH p Hp).
  - trivial.
  - rewrite stable_map, sound_map. intros (Hd & Hs). split; [assumption|].
    rewrite Forall_forall in *. intros e He.
    destruct (IH e He) as [I1 I2]. destruct (Hs e He). split; auto.
  - rewrite stable_set, sound_set. intros (Hd & Hs). split; [assumption|].
    rewrite Forall_forall in *. intros e He. apply (IH e He). now apply Hs.
Qed.

Lemma sound_encodable (v : jsvalue) : sound v -> encodable v.
Proof.
  induction v as [| |b|n|s|xs IH|ps IH|t|es IH|xs IH] using jsvalue_ind; try (intros; exact I).
  - rewrite sound_arr, encodable_arr. intros Hs.
    rewrite Forall_forall in *. intros o Ho x Hx.
    apply (IH o Ho x Hx). now apply (Hs o Ho x Hx).
  - rewrite sound_obj, encodable_obj. intros (Hnd & _ & Hs). split; [assumption|].
    rewrite Forall_forall in *. intros p Hp. apply (IH p Hp). now apply (Hs p Hp).
  - simpl. destruct t; [eauto|tauto].
  - rewrite sound_map, encodable_map. intros (_ & Hs).
    rewrite Forall_forall in *. intros e He.
    destruct (IH e He) as [I1 I2]. destruct (Hs e He). split; auto.
  - rewrite sound_set, encodable_set. intros (_ & Hs).
    rewrite Forall_forall in *. intros e He. apply (IH e He). now apply Hs.
Qed.

Lemma is_undefined_revived (v : jsvalue) : is_undefined (revived v) = is_undefined v.
Proof. now destruct v. Qed.

Lemma same_value_zero_revived (a b : jsvalue) :
  same_value_zero (revived a) (revived b) = same_value_zero a b.
Proof. destruct a, b; reflexivity. Qed.

Lemma distinct_revived (xs : list jsvalue) : distinct xs -> distinct (map revived xs).
Proof.
  induction xs as [|x xs IH]; [trivial|]. simpl. intros [Hx Hd]. split; [|now apply IH].
  apply Forall_fmap. eapply Forall_impl; [exact Hx|]. intros y Hy. simpl.
  now rewrite same_value_zero_revived.
Qed.

Lemma revived_stable (v : jsvalue) : stable v -> revived v = v.
Proof.
  induction v as [| |b|n|s|xs IH|ps IH|t|es IH|xs IH] using jsvalue_ind; try reflexivity.
  - rewrite stable_arr. intros Hs. simpl. f_equal.
    rewrite <- (map_id xs) at 2. apply map_ext_in. intros o Ho.
    apply list_elem_of_In in Ho.
    rewrite Forall_forall in IH, Hs. destruct o as [x|]; [|reflexivity].
    destruct (Hs _ Ho x eq_refl) as [Hx Hst]. rewrite (IH _ Ho x eq_refl Hst).
    unfold slot. now destruct x.
  - rewrite stable_obj. intros (_ & _ & Hs). simpl. f_equal.
    clear -IH Hs. induction ps as [|[k x] ps IHps]; [reflexivity|].
    apply Forall_cons in IH as [Ix IH]. apply Forall_cons in Hs as [(Hx & _ & Hst) Hs].
    simpl in *. rewrite filter_cons. simpl. rewrite (Ix Hst), (IHps IH Hs).
    destruct (decide (is_undefined x = false)) as [|Hn]; [reflexivity|].
    exfalso. apply Hn. now destruct x.
  - rewrite stable_map. intros (_ & Hs). simpl. f_equal.
    rewrite <- (map_id es) at 2. apply map_ext_in. intros [k x] He.
    apply list_elem_of_In in He. rewrite Forall_forall in IH, Hs.
    destruct (IH _ He) as [Ik Ix]. destruct (Hs _ He) as [Sk Sx]. simpl in *.
    now rewrite (Ik Sk), (Ix Sx).
  - rewrite stable_set. intros (_ & Hs). simpl. f_equal.
    rewrite <- (map_id xs) at 2. apply map_ext_in. intros x He.
    apply list_elem_of_In in He. rewrite Forall_forall in IH, Hs.
    now apply (IH _ He), Hs.
Qed.

Lemma mapM_i_ok {A B} (f : nat -> A -> result B) (g : A -> B) (l : list A) :
  forall n, (forall i x, l !! i = Some x -> f (n + i)%nat x = Ok (g x)) ->
            mapM_i f n l = Ok (map g l).
Proof.
  induction l as [|x l IH]; intros n H; [reflexivity|].
  simpl. pose proof (H O x eq_refl) as H0. rewrite Nat.add_0_r in H0. rewrite H0.
  rewrite IH; [reflexivity|].
  intros i y Hy. replace (S n + i)%nat with (n + S i)%nat by lia. now apply H.
Qed.

Lemma key_index_index_key (i : nat) : key_index (index_key i) = Some i.
Proof.
  unfold key_index, index_key, print_N. rewrite NilEmpty.usu. simpl.
  rewrite DecimalN.Unsigned.of_to, String.eqb_refl. now rewrite Nat2N.id.
Qed.

Lemma index_key_eqb (i : nat) :
  String.eqb (index_key i) "" = false /\ String.eqb (index_key i) "length" = false.
Proof.
  unfold index_key. destruct (print_N_head (N.of_nat i)) as (c & s & -> & Hc).
  split; [reflexivity|]. simpl. destruct (Ascii.eqb_spec c "l") as [->|_]; [discriminate|reflexivity].
Qed.

Lemma get_prop_index (xs : list (option jsvalue)) (i : nat) :
  get_prop (VArr xs) (index_key i)
  = match xs !! i with Some (Some x) => x | _ => VUndef end.
Proof.
  simpl. destruct (index_key_eqb i) as [_ ->]. now rewrite key_index_index_key.
Qed.

Lemma assoc_lookup {A} (ps : list (string * A)) (i : nat) (k : string) (x : A) :
  NoDup (map fst ps) -> ps !! i = Some (k, x) -> assoc k ps = Some x.
Proof.
  revert i. induction ps as [|[k' y] ps IH]; intros i Hnd Hi; [discriminate|].
  simpl in *. apply NoDup_cons in Hnd as [Hk Hnd].
  destruct i as [|i]; simpl in Hi.
  - injection Hi as -> ->. now rewrite String.eqb_refl.
  - destruct (String.eqb_spec k' k) as [->|_]; [|eauto].
    exfalso. apply Hk. apply list_elem_of_fmap. exists (k, x). split; [reflexivity|].
    eapply list_elem_of_lookup_2; eauto.
Qed.

Lemma SerializeJSONProperty_S f R key holder :
  SerializeJSONProperty (S f) R key holder =
  match R holder key (toJSON (get_prop holder key)) with
  | Throw e => Throw e
  | Ok value =>
      match value with
      | VUndef => Ok None
      | VNull => Ok (Some JNull)
      | VBool b => Ok (Some (JBool b))
      | VNum n => Ok (Some (JNum n))
      | VStr s => Ok (Some (JStr s))
      | VArr xs =>
          match mapM_i (fun i _ =>
                          match SerializeJSONProperty f R (index_key i) value with
                          | Ok o => Ok (default JNull o)
                          | Throw e => Throw e
                          end) O xs with
          | Ok js => Ok (Some (JArr js))
          | Throw e => Throw e
          end
      | VObj ps =>
          match mapM_r (fun k =>
                          match SerializeJSONProperty f R k value with
                          | Ok o => Ok (pair k <$> o)
                          | Throw e => Throw e
                          end) (map fst ps) with
          | Ok ms => Ok (Some (JObj (omit_undefined ms)))
          | Throw e => Throw e
          end
      | VDate _ | VMap _ | VSet _ => Ok (Some (JObj []))
      end
  end.
Proof. reflexivity. Qed.

Definition writes (v : jsvalue) : Prop :=
  encodable v ->
  forall fuel holder key,
    (3 * value_size v <= fuel)%nat ->
    get_prop holder key = v ->
    SerializeJSONProperty fuel replacer key holder = Ok (Some (enc_at key v)).

Lemma writes_undefined : writes VUndef.
Proof.
  intros _ fuel holder key Hf Hget. simpl in Hf.
  destruct fuel as [|[|f]]; [lia|lia|].
  rewrite SerializeJSONProperty_S, Hget. unfold replacer at 1. rewrite Hget.
  destruct (truthy (VStr key)); reflexivity.
Qed.

Lemma writes_date (t : option Z) : writes (VDate t).
Proof.
  intros [t' ->] fuel holder key Hf Hget. simpl in Hf.
  destruct fuel as [|[|f]]; [lia|lia|].
  rewrite SerializeJSONProperty_S, Hget. unfold replacer at 1. rewrite Hget.
  unfold enc_at. simpl truthy. destruct (String.eqb key ""); reflexivity.
Qed.

Lemma replacer_arr holder key xs :
  get_prop holder key = VArr xs -> replacer holder key (VArr xs) = Ok (VArr xs).
Proof. intros H. unfold replacer. rewrite H. now destruct (truthy (VStr key)). Qed.

Lemma replacer_obj holder key ps :
  get_prop holder key = VObj ps -> replacer holder key (VObj ps) = Ok (VObj ps).
Proof. intros H. unfold replacer. rewrite H. now destruct (truthy (VStr key)). Qed.

Lemma slot_size (xs : list (option jsvalue)) (i : nat) (x : jsvalue) :
  xs !! i = Some (Some x) -> (value_size x < value_size (VArr xs))%nat.
Proof.
  revert i. induction xs as [|o xs IH]; intros i Hi; [discriminate|].
  destruct i as [|i]; simpl in Hi.
  - injection Hi as ->. simpl. lia.
  - specialize (IH i Hi). simpl in *. lia.
Qed.

Lemma hole_size (xs : list (option jsvalue)) (i : nat) :
  xs !! i = Some None -> (1 < value_size (VArr xs))%nat.
Proof.
  revert i. induction xs as [|o xs IH]; intros i Hi; [discriminate|].
  destruct i as [|i]; simpl in Hi.
  - injection Hi as ->. simpl. lia.
  - specialize (IH i Hi). simpl in *. lia.
Qed.

Lemma writes_arr (xs : list (option jsvalue)) :
  Forall (fun o => forall x, o = Some x -> writes x) xs -> writes (VArr xs).
Proof.
  intros IH Henc fuel holder key Hf Hget.
  destruct fuel as [|f]; [simpl in Hf; lia|].
  rewrite SerializeJSONProperty_S, Hget. simpl toJSON.
  rewrite (replacer_arr _ _ _ Hget).
  rewrite (mapM_i_ok _ enc_slot); [reflexivity|].
  intros i o Ho. simpl Nat.add.
  apply encodable_arr in Henc. rewrite Forall_forall in IH, Henc.
  assert (Hin : o ∈ xs) by (eapply list_elem_of_lookup_2; eauto).
  destruct o as [x|].
  - rewrite (IH _ Hin x eq_refl (Henc _ Hin x eq_refl) f (VArr xs) (index_key i)).
    + simpl. unfold enc_at. destruct (index_key_eqb i) as [-> _]. now destruct x as [| | | | | | |[]| |].
    + pose proof (slot_size xs i x Ho). lia.
    + now rewrite get_prop_index, Ho.
  - pose proof (hole_size xs i Ho).
    rewrite (writes_undefined I f (VArr xs) (index_key i)); [reflexivity|simpl value_size; lia|].
    now rewrite get_prop_index, Ho.
Qed.

Lemma writes_str (s : string) : writes (VStr s).
Proof.
  intros _ fuel holder key Hf Hget. simpl in Hf. destruct fuel as [|f]; [lia|].
  rewrite SerializeJSONProperty_S, Hget. unfold replacer. rewrite Hget.
  now destruct (truthy (VStr key)).
Qed.

Lemma enc_at_obj (ps : list (string * jsvalue)) :
  enc (VObj ps) = JObj (map (fun p => (fst p, enc_at (fst p) (snd p))) ps).
Proof. reflexivity. Qed.

Lemma enc_at_plain (key : string) (v : jsvalue) :
  is_date v = false -> enc_at key v = enc v.
Proof. now destruct v as [| | | | | | |[]| |]. Qed.

Lemma prop_size (ps : list (string * jsvalue)) (i : nat) (p : string * jsvalue) :
  ps !! i = Some p -> (value_size (snd p) < value_size (VObj ps))%nat.
Proof.
  revert i. induction ps as [|q ps IH]; intros i Hi; [discriminate|].
  destruct i as [|i]; simpl in Hi.
  - injection Hi as ->. simpl. lia.
  - specialize (IH i Hi). simpl in *. lia.
Qed.

Lemma writes_obj (ps : list (string * jsvalue)) :
  Forall (fun p => writes (snd p)) ps -> writes (VObj ps).
Proof.
  intros IH Henc fuel holder key Hf Hget.
  destruct fuel as [|f]; [simpl in Hf; lia|].
  rewrite SerializeJSONProperty_S, Hget. simpl toJSON.
  rewrite (replacer_obj _ _ _ Hget).
  apply encodable_obj in Henc as [Hnd Henc].
  unfold mapM_r.
  rewrite (mapM_i_ok _ (fun k => Some (k, enc_at k (default VUndef (assoc k ps))))).
  - f_equal. f_equal. rewrite (enc_at_plain key) by reflexivity. rewrite enc_at_obj. f_equal.
    unfold omit_undefined. rewrite map_map.
    assert (Hall : forall l : list (string * jsvalue),
               (forall i p, l !! i = Some p -> assoc (fst p) ps = Some (snd p)) ->
               omap id (map (fun p => Some (fst p, enc_at (fst p) (default VUndef (assoc (fst p) ps)))) l)
               = map (fun p => (fst p, enc_at (fst p) (snd p))) l).
    { induction l as [|p l IHl]; intros Hl; [reflexivity|].
      simpl. rewrite (Hl O p eq_refl). simpl. f_equal.
      apply IHl. intros i q Hq. apply (Hl (S i) q Hq). }
    apply Hall. intros i [k x] Hp. simpl. eapply assoc_lookup; eauto.
  - intros i k Hk. simpl Nat.add.
    rewrite list_lookup_fmap in Hk.
    destruct (ps !! i) as [[k' x]|] eqn:Hp; [|discriminate]. simpl in Hk. injection Hk as ->.
    pose proof (assoc_lookup ps i k x Hnd Hp) as Ha.
    rewrite Forall_forall in IH, Henc.
    assert (Hin : (k, x) ∈ ps) by (eapply list_elem_of_lookup_2; eauto).
    rewrite (IH _ Hin (Henc _ Hin) f (VObj ps) k).
    + simpl. now rewrite Ha.
    + pose proof (prop_size ps i _ Hp). simpl in *. lia.
    + simpl. now rewrite Ha.
Qed.

(** The two members of a tagged object. *)
Lemma writes_tagged (f : nat) (type : string) (payload : jsvalue) :
  writes payload -> encodable payload -> is_date payload = false ->
  (3 * value_size payload <= f)%nat -> (3 <= f)%nat ->
  mapM_r (fun k =>
            match SerializeJSONProperty f replacer k
                    (VObj [("__type", VStr type); ("value", payload)]) with
            | Ok o => Ok (pair k <$> o)
            | Throw e => Throw e
            end) ["__type"; "value"]
  = Ok [Some ("__type", JStr type); Some ("value", enc payload)].
Proof.
  intros Hw He Hd Hf Hf3. unfold mapM_r. simpl.
  rewrite (writes_str type I f _ "__type"); [|simpl; lia|reflexivity].
  rewrite (Hw He f _ "value"); [|lia|reflexivity].
  simpl. now rewrite enc_at_plain.
Qed.

Lemma map_entry_size (es : list (jsvalue * jsvalue)) :
  value_size (VArr (map (fun e => Some (VArr [Some (fst e); Some (snd e)])) es))
  = pred (value_size (VMap es)).
Proof.
  simpl. f_equal. induction es as [|e es IH]; [reflexivity|]. simpl. rewrite IH. lia.
Qed.

Lemma set_element_size (xs : list jsvalue) :
  value_size (VArr (map Some xs)) = pred (value_size (VSet xs)).
Proof.
  simpl. f_equal. induction xs as [|e es IH]; [reflexivity|]. simpl. now rewrite IH.
Qed.

Lemma writes_map (es : list (jsvalue * jsvalue)) :
  Forall (fun e => writes (fst e) /\ writes (snd e)) es -> writes (VMap es).
Proof.
  intros IH Henc fuel holder key Hf Hget.
  destruct fuel as [|f]; [simpl in Hf; lia|].
  rewrite SerializeJSONProperty_S, Hget. simpl toJSON.
  unfold replacer at 1. rewrite Hget.
  replace (if truthy (VStr key) then VMap es else VMap es) with (VMap es)
    by now destruct (truthy (VStr key)).
  cbv iota beta. simpl map at 1.
  set (payload := VArr (map (fun e => Some (VArr [Some (fst e); Some (snd e)])) es)).
  apply encodable_map in Henc.
  assert (Hpw : writes payload).
  { apply writes_arr. apply Forall_fmap. rewrite Forall_forall in *.
    intros e He x [= <-]. destruct (IH e He) as [Hk Hv].
    apply writes_arr. repeat constructor; intros y [= <-]; assumption. }
  assert (Hpe : encodable payload).
  { apply encodable_arr. apply Forall_fmap. rewrite Forall_forall in *.
    intros e He x [= <-]. destruct (Henc e He) as [Hk Hv]. simpl. tauto. }
  pose proof (map_entry_size es) as Hsz. fold payload in Hsz.
  change (map fst [("__type", VStr "Map"); ("value", payload)]) with ["__type"; "value"].
  assert (Hge : (2 <= value_size (VMap es))%nat) by (simpl; lia).
  rewrite (writes_tagged f "Map" payload Hpw Hpe eq_refl); [|rewrite Hsz; lia|lia].
  simpl. unfold enc_at, tagged. f_equal. f_equal. f_equal. f_equal. f_equal. f_equal.
  rewrite map_map. reflexivity.
Qed.

Lemma writes_set (xs : list jsvalue) : Forall writes xs -> writes (VSet xs).
Proof.
  intros IH Henc fuel holder key Hf Hget.
  destruct fuel as [|f]; [simpl in Hf; lia|].
  rewrite SerializeJSONProperty_S, Hget. simpl toJSON.
  unfold replacer at 1. rewrite Hget.
  replace (if truthy (VStr key) then VSet xs else VSet xs) with (VSet xs)
    by now destruct (truthy (VStr key)).
  cbv iota beta. simpl map at 1.
  set (payload := VArr (map Some xs)).
  apply encodable_set in Henc.
  assert (Hpw : writes payload).
  { apply writes_arr. apply Forall_fmap. rewrite Forall_forall in *.
    intros e He x [= <-]. now apply IH. }
  assert (Hpe : encodable payload).
  { apply encodable_arr. apply Forall_fmap. rewrite Forall_forall in *.
    intros e He x [= <-]. now apply Henc. }
  pose proof (set_element_size xs) as Hsz. fold payload in Hsz.
  change (map fst [("__type", VStr "Set"); ("value", payload)]) with ["__type"; "value"].
  assert (Hge : (2 <= value_size (VSet xs))%nat) by (simpl; lia).
  rewrite (writes_tagged f "Set" payload Hpw Hpe eq_refl); [|rewrite Hsz; lia|lia].
  simpl. unfold enc_at, tagged. f_equal. f_equal. f_equal. f_equal. f_equal. f_equal.
  rewrite map_map. reflexivity.
Qed.

Lemma writes_all (v : jsvalue) : writes v.
Proof.
  induction v as [| |b|n|s|xs IH|ps IH|t|es IH|xs IH] using jsvalue_ind.
  - apply writes_undefined.
  - intros _ fuel holder key Hf Hget. simpl in Hf. destruct fuel as [|f]; [lia|].
    rewrite SerializeJSONProperty_S, Hget. unfold replacer. rewrite Hget.
    now destruct (truthy (VStr key)).
  - intros _ fuel holder key Hf Hget. simpl in Hf. destruct fuel as [|f]; [lia|].
    rewrite SerializeJSONProperty_S, Hget. unfold replacer. rewrite Hget.
    now destruct (truthy (VStr key)).
  - intros _ fuel holder key Hf Hget. simpl in Hf. destruct fuel as [|f]; [lia|].
    rewrite SerializeJSONProperty_S, Hget. unfold replacer. rewrite Hget.
    now destruct (truthy (VStr key)).
  - apply writes_str.
  - now apply writes_arr.
  - now apply writes_obj.
  - apply writes_date.
  - now apply writes_map.
  - now apply writes_set.
Qed.

Lemma serialize_default (data : jsvalue) :
  serialize defaultSerializer data =
  match JSON_stringify (stack_depth data) (VObj [("__root", data)]) replacer with
  | Ok (Some stringified) => Ok stringified
  | Ok None => Ok "undefined"
  | Throw e => Throw e
  end.
Proof. reflexivity. Qed.

Lemma deserialize_default (data : string) :
  deserialize defaultSerializer data =
  match JSON_parse data reviver with
  | Ok parsed =>
      Ok (if truthy parsed && is_object parsed && has_property parsed "__root"
          then get_prop parsed "__root"
          else parsed)
  | Throw _ => Throw (Error "Failed to deserialize data")
  end.
Proof. reflexivity. Qed.

(** With the nesting [stack_depth] allows, serialize writes the wrapped
    encoding and does not throw. *)
Lemma serialize_enc (data : jsvalue) :
  encodable data ->
  serialize defaultSerializer data
  = Ok (JSON_print (JObj [("__root", enc_at "__root" data)])).
Proof.
  intros Henc. rewrite serialize_default. unfold JSON_stringify, stack_depth.
  assert (Hw : writes (VObj [("__root", data)])).
  { apply writes_obj. repeat constructor. apply writes_all. }
  rewrite (Hw ltac:(simpl; repeat split; [apply NoDup_singleton|assumption])
              _ (VObj [("", VObj [("__root", data)])]) "");
    [|simpl; lia|reflexivity].
  reflexivity.
Qed.

(** ** JSON.parse with [reviver] reads [enc] back *)

Lemma mapM_i_map {A B C} (f : nat -> B -> result C) (h : A -> B) (g : A -> C) (l : list A) :
  forall n, (forall i x, l !! i = Some x -> f (n + i)%nat (h x) = Ok (g x)) ->
            mapM_i f n (map h l) = Ok (map g l).
Proof.
  induction l as [|x l IH]; intros n H; [reflexivity|].
  simpl. pose proof (H O x eq_refl) as H0. rewrite Nat.add_0_r in H0. rewrite H0.
  rewrite IH; [reflexivity|].
  intros i y Hy. replace (S n + i)%nat with (n + S i)%nat by lia. now apply H.
Qed.

Lemma reviver_arr key xs : reviver key (VArr xs) = Ok (VArr xs).
Proof. reflexivity. Qed.

Lemma reviver_untagged key ps : untagged ps -> reviver key (VObj ps) = Ok (VObj ps).
Proof.
  unfold untagged, reviver, type_tags. simpl.
  destruct (assoc "__type" ps) as [x|]; [|reflexivity].
  destruct x; try reflexivity. intros Hs.
  rewrite !not_elem_of_cons in Hs. destruct Hs as (H1 & H2 & H3 & H4 & _).
  cbn [default from_option id].
  rewrite (proj2 (String.eqb_neq s "Date") H1), (proj2 (String.eqb_neq s "Map") H2),
    (proj2 (String.eqb_neq s "Set") H3), (proj2 (String.eqb_neq s "undefined") H4).
  reflexivity.
Qed.

Lemma Internalize_tagged key type payload v :
  Internalize reviver "value" payload = Ok v -> v <> VUndef ->
  Internalize reviver key (tagged type payload)
  = reviver key (VObj [("__type", VStr type); ("value", v)]).
Proof.
  intros Hp Hv. unfold tagged. simpl. unfold mapM_r. simpl. rewrite Hp.
  unfold object_of. simpl. now destruct v.
Qed.

Lemma map_set_fresh k v es :
  Forall (fun e => same_value_zero (fst e) k = false) es ->
  map_set k v es = es ++ [(k, v)].
Proof.
  induction 1 as [|[k' v'] es Hk _ IH]; [reflexivity|].
  simpl in *. now rewrite Hk, IH.
Qed.

Lemma set_add_fresh x xs :
  Forall (fun y => same_value_zero y x = false) xs -> set_add x xs = xs ++ [x].
Proof.
  induction 1 as [|y xs Hk _ IH]; [reflexivity|].
  simpl in *. now rewrite Hk, IH.
Qed.

Lemma same_value_zero_sym (a b : jsvalue) : same_value_zero a b = same_value_zero b a.
Proof.
  destruct a, b; simpl; try reflexivity.
  - now destruct b, b0.
  - apply Z.eqb_sym.
  - apply String.eqb_sym.
Qed.

Lemma entry_props (k v : jsvalue) :
  get_prop (VArr [slot k; slot v]) "0" = k /\ get_prop (VArr [slot k; slot v]) "1" = v.
Proof. split; [now destruct k|now destruct v]. Qed.

Lemma new_Map_entries (es : list (jsvalue * jsvalue)) :
  distinct (map fst es) ->
  new_Map (VArr (map (fun e => Some (VArr [slot (fst e); slot (snd e)])) es)) = Ok (VMap es).
Proof.
  intros Hd. unfold new_Map. simpl. rewrite map_map. simpl.
  enough (Hfold : forall acc,
    Forall (fun e => Forall (fun a => same_value_zero (fst a) (fst e) = false) acc) es ->
    foldl (fun (acc : result (list (jsvalue * jsvalue))) item =>
             es0 ← acc;
             if is_object item
             then Ok (map_set (get_prop item "0") (get_prop item "1") es0)
             else Throw TypeError)
      (Ok acc) (map (fun e => VArr [slot (fst e); slot (snd e)]) es) = Ok (acc ++ es)).
  { rewrite (Hfold []); [reflexivity|]. apply Forall_forall. intros; constructor. }
  induction es as [|[k v] es IH]; intros acc Hacc; [simpl; now rewrite app_nil_r|].
  simpl in Hd. destruct Hd as [Hk Hd].
  apply Forall_cons in Hacc as [Hk0 Hacc].
  cbn [map foldl fst snd mbind result_bind is_object].
  destruct (entry_props k v) as [-> ->].
  rewrite map_set_fresh by exact Hk0.
  rewrite IH; [now rewrite <- app_assoc|assumption|].
  rewrite Forall_forall in *. intros e He. apply Forall_app. split; [now apply Hacc|].
  repeat constructor. simpl. rewrite Forall_fmap in Hk. rewrite Forall_forall in Hk.
  rewrite same_value_zero_sym. now apply (Hk e He).
Qed.

Lemma new_Set_elements (xs : list jsvalue) :
  distinct xs -> new_Set (VArr (map slot xs)) = Ok (VSet xs).
Proof.
  intros Hd. unfold new_Set. simpl. rewrite map_map.
  assert (Hm : map (fun x => default VUndef (slot x)) xs = xs).
  { rewrite <- (map_id xs) at 2. apply map_ext. now intros []. }
  rewrite Hm. f_equal. f_equal.
  enough (Hfold : forall acc,
    Forall (fun x => Forall (fun a => same_value_zero a x = false) acc) xs ->
    foldl (fun acc x => set_add x acc) acc xs = acc ++ xs).
  { rewrite (Hfold []); [reflexivity|]. apply Forall_forall. intros; constructor. }
  clear Hm. induction xs as [|x xs IH]; intros acc Hacc; [simpl; now rewrite app_nil_r|].
  simpl in Hd. destruct Hd as [Hk Hd].
  apply Forall_cons in Hacc as [Hk0 Hacc]. simpl.
  rewrite set_add_fresh by exact Hk0.
  rewrite IH; [now rewrite <- app_assoc|assumption|].
  rewrite Forall_forall in *. intros e He. apply Forall_app. split; [now apply Hacc|].
  repeat constructor. rewrite same_value_zero_sym. now apply (Hk e He).
Qed.

Lemma array_of_slot (vs : list jsvalue) : array_of vs = VArr (map slot vs).
Proof. reflexivity. Qed.

Lemma assoc_fresh {A} (k : string) (ps : list (string * A)) :
  k ∉ map fst ps -> assoc k ps = None.
Proof.
  induction ps as [|[k' x] ps IH]; [reflexivity|]. simpl.
  rewrite not_elem_of_cons. intros [Hk Hin].
  destruct (String.eqb_spec k' k); [congruence|]. now apply IH.
Qed.

Definition kept (ps : list (string * jsvalue)) : list (string * jsvalue) :=
  filter (fun p => is_undefined (snd p) = false) (map (fun p => (fst p, revived (snd p))) ps).

Lemma kept_names (k : string) (ps : list (string * jsvalue)) :
  k ∉ map fst ps -> k ∉ map fst (kept ps).
Proof.
  intros Hk Hin. apply Hk. unfold kept in Hin.
  apply list_elem_of_fmap in Hin as ([k' x] & -> & Hin).
  apply list_elem_of_filter in Hin as [_ Hin].
  apply list_elem_of_fmap in Hin as ([k2 y] & [= -> ->] & Hin).
  apply list_elem_of_fmap. now exists (k2, y).
Qed.

Lemma assoc_kept (k : string) (ps : list (string * jsvalue)) :
  NoDup (map fst ps) ->
  assoc k (kept ps) = match assoc k ps with
                      | Some x => if is_undefined x then None else Some (revived x)
                      | None => None
                      end.
Proof.
  induction ps as [|[k' x] ps IH]; [reflexivity|]. simpl. intros Hnd.
  apply NoDup_cons in Hnd as [Hk Hnd]. unfold kept in *. simpl. rewrite filter_cons. simpl.
  rewrite is_undefined_revived.
  destruct (decide (is_undefined x = false)) as [Hx|Hx].
  - simpl. destruct (String.eqb_spec k' k) as [->|_]; [now rewrite Hx|now apply IH].
  - apply not_false_is_true in Hx.
    destruct (String.eqb_spec k' k) as [->|_]; [|now apply IH].
    rewrite Hx. apply assoc_fresh. now apply kept_names.
Qed.

Lemma untagged_kept (ps : list (string * jsvalue)) :
  NoDup (map fst ps) -> untagged ps -> untagged (kept ps).
Proof.
  intros Hnd. unfold untagged. rewrite (assoc_kept _ _ Hnd).
  destruct (assoc "__type" ps) as [x|]; [|trivial].
  now destruct x.
Qed.

Definition reads (v : jsvalue) : Prop :=
  sound v -> forall key, Internalize reviver key (enc v) = Ok (revived v).

Lemma reads_arr (xs : list (option jsvalue)) :
  Forall (fun o => forall x, o = Some x -> reads x) xs ->
  Forall (fun o => forall x, o = Some x -> sound x) xs ->
  forall key, Internalize reviver key (enc (VArr xs)) = Ok (revived (VArr xs)).
Proof.
  intros IH Hs key. simpl.
  rewrite (mapM_i_map _ _ (fun o => match o with Some x => revived x | None => VUndef end)).
  - unfold array_of. rewrite map_map, reviver_arr. f_equal. f_equal.
    apply map_ext. now intros [x|].
  - intros i o Ho. rewrite Forall_forall in IH, Hs.
    assert (Hin : o ∈ xs) by (eapply list_elem_of_lookup_2; eauto).
    destruct o as [x|]; [|reflexivity].
    apply (IH _ Hin x eq_refl). apply (Hs _ Hin x eq_refl).
Qed.

Lemma reads_all (v : jsvalue) : reads v.
Proof.
  induction v as [| |b|n|s|xs IH|ps IH|t|es IH|xs IH] using jsvalue_ind;
    intros Hs key; try reflexivity.
  - apply sound_arr in Hs. now apply reads_arr.
  - apply sound_obj in Hs as (Hnd & Hu & Hs).
    rewrite enc_at_obj. cbn [Internalize]. unfold mapM_r.
    rewrite (mapM_i_map _ _ (fun p => (fst p, revived (snd p)))).
    + unfold object_of. change (revived (VObj ps)) with (VObj (kept ps)).
      apply reviver_untagged. now apply untagged_kept.
    + intros i [k x] Hp. rewrite Forall_forall in IH, Hs.
      assert (Hin : (k, x) ∈ ps) by (eapply list_elem_of_lookup_2; eauto).
      destruct (Hs _ Hin) as (Hdate & Hst). simpl in *.
      assert (He : enc_at k x = enc x).
      { destruct (String.eqb_spec k "") as [->|Hk].
        - apply enc_at_plain. now apply Hdate.
        - unfold enc_at. destruct x as [| | | | | | |[]| |]; try reflexivity.
          destruct (String.eqb_spec k ""); [congruence|reflexivity]. }
      pose proof (IH _ Hin Hst k) as Hr. simpl in Hr. now rewrite He, Hr.
  - destruct t as [t|]; [|destruct Hs]. simpl in Hs.
    change (enc (VDate (Some t))) with (tagged "Date" (JStr (toISOString t))).
    rewrite (Internalize_tagged key "Date" _ (VStr (toISOString t))); [|reflexivity|discriminate].
    unfold reviver. simpl. now rewrite Date_parse_toISOString.
  - apply sound_map in Hs as (Hd & Hs).
    change (enc (VMap es))
      with (tagged "Map" (JArr (map (fun e => JArr [enc (fst e); enc (snd e)]) es))).
    set (es' := map (fun e => (revived (fst e), revived (snd e))) es).
    rewrite (Internalize_tagged key "Map" _
               (VArr (map (fun e => Some (VArr [slot (fst e); slot (snd e)])) es')));
      [|clear Hd|discriminate].
    + unfold reviver. simpl. apply new_Map_entries.
      subst es'. rewrite map_map. simpl. rewrite <- (map_map fst revived).
      now apply distinct_revived.
    + cbn [Internalize]. subst es'. rewrite map_map. simpl.
      rewrite (mapM_i_map _ _ (fun e => VArr [slot (revived (fst e)); slot (revived (snd e))])).
      * rewrite array_of_slot, map_map. reflexivity.
      * intros i [k v] He. rewrite Forall_forall in IH, Hs.
        assert (Hin : (k, v) ∈ es) by (eapply list_elem_of_lookup_2; eauto).
        destruct (IH _ Hin) as [Ik Iv]. destruct (Hs _ Hin) as [Sk Sv]. simpl in *.
        rewrite (Ik Sk), (Iv Sv). reflexivity.
  - apply sound_set in Hs as (Hd & Hs).
    change (enc (VSet xs)) with (tagged "Set" (JArr (map enc xs))).
    rewrite (Internalize_tagged key "Set" _ (VArr (map slot (map revived xs))));
      [|clear Hd|discriminate].
    + unfold reviver. simpl. apply new_Set_elements. now apply distinct_revived.
    + cbn [Internalize].
      rewrite (mapM_i_map _ _ revived).
      * reflexivity.
      * intros i x He. rewrite Forall_forall in IH, Hs.
        assert (Hin : x ∈ xs) by (eapply list_elem_of_lookup_2; eauto).
        now apply (IH _ Hin), Hs.
Qed.

Lemma json_wf_arr xs : json_wf (JArr xs) <-> Forall json_wf xs.
Proof.
  simpl. induction xs as [|x xs IH]; [split; [constructor|trivial]|].
  rewrite Forall_cons, <- IH. reflexivity.
Qed.

Lemma json_wf_obj ms :
  json_wf (JObj ms) <-> NoDup (map fst ms) /\ Forall (fun m => json_wf (snd m)) ms.
Proof.
  simpl. enough (Hall : forall l,
    (fix all (l : list (string * json)) : Prop :=
       match l with [] => True | m :: l' => json_wf (snd m) /\ all l' end) l
    <-> Forall (fun m => json_wf (snd m)) l) by (rewrite Hall; reflexivity).
  induction l as [|p l IH]; [split; [constructor|trivial]|].
  rewrite Forall_cons, <- IH. reflexivity.
Qed.

Lemma json_wf_tagged type payload : json_wf payload -> json_wf (tagged type payload).
Proof.
  intros H. unfold tagged. apply json_wf_obj. split.
  - simpl. apply NoDup_cons. split; [|apply NoDup_singleton].
    intros Hin. apply list_elem_of_singleton in Hin. discriminate.
  - repeat constructor. exact H.
Qed.

Lemma enc_wf (v : jsvalue) : encodable v -> json_wf (enc v).
Proof.
  induction v as [| |b|n|s|xs IH|ps IH|t|es IH|xs IH] using jsvalue_ind; intros He;
    try exact I.
  - simpl. split; [apply NoDup_singleton|tauto].
  - apply encodable_arr in He. change (enc (VArr xs)) with (JArr (map enc_slot xs)).
    apply json_wf_arr, Forall_fmap. rewrite Forall_forall in *.
    intros [x|] Ho; simpl.
    + now apply (IH _ Ho x eq_refl), (He _ Ho x).
    + split; [apply NoDup_singleton|tauto].
  - apply encodable_obj in He as [Hnd He]. rewrite enc_at_obj.
    apply json_wf_obj. split.
    + now rewrite map_map.
    + apply Forall_fmap. rewrite Forall_forall in *. intros [k x] Hp. simpl.
      specialize (IH _ Hp (He _ Hp)). simpl in IH. unfold enc_at.
      destruct x as [| | | | | | |[]| |]; try exact IH. now destruct (String.eqb k "").
  - destruct t; [|exact I]. now apply json_wf_tagged.
  - apply encodable_map in He. apply json_wf_tagged, json_wf_arr, Forall_fmap.
    rewrite Forall_forall in *. intros [k x] Hp. simpl.
    destruct (IH _ Hp) as [Ik Ix]. destruct (He _ Hp) as [Ek Ex]. simpl in *. tauto.
  - apply encodable_set in He. apply json_wf_tagged, json_wf_arr, Forall_fmap.
    rewrite Forall_forall in *. intros x Hp. simpl. now apply (IH _ Hp), He.
Qed.

Lemma enc_at_root (v : jsvalue) : enc_at "__root" v = enc v.
Proof. now destruct v as [| | | | | | |[]| |]. Qed.

(** The text written for a sound value other than undefined is read back
    as what [revived] says. *)
Lemma deserialize_enc (v : jsvalue) :
  sound v -> v <> VUndef ->
  deserialize defaultSerializer (JSON_print (JObj [("__root", enc v)])) = Ok (revived v).
Proof.
  intros Hs Hv. pose proof (sound_encodable v Hs) as He.
  rewrite deserialize_default. unfold JSON_parse.
  rewrite JSON_read_print.
  - cbn [Internalize]. unfold mapM_r. cbn [mapM_i fst snd].
    rewrite (reads_all v Hs "__root"). unfold object_of.
    rewrite filter_cons. cbn [snd].
    destruct (decide (is_undefined (revived v) = false)) as [_|Hn];
      [|exfalso; apply Hn; now destruct v].
    rewrite filter_nil. reflexivity.
  - apply json_wf_obj. split; [apply NoDup_singleton|].
    repeat constructor. simpl. now apply enc_wf.
Qed.

(** What deserialize returns for what serialize has written.  For a value
    that is sound (its dates are valid, no plain object carries a [__type]
    naming Date, Map, Set or undefined, and no Date sits under the empty
    property name) and is not itself undefined, [serialize] returns a text,
    and [deserialize] of that text returns the value with its properties
    holding undefined removed and its array elements holding undefined left
    as holes. *)
Lemma round_trip_of_sound_value (v : jsvalue) :
  sound v -> v <> VUndef ->
  exists text,
    serialize defaultSerializer v = Ok text /\
    deserialize defaultSerializer text = Ok (revived v) /\
    (stable v -> deserialize defaultSerializer text = Ok v).
Proof.
  intros Hs Hv. eexists. split; [|split].
  - apply serialize_enc. now apply sound_encodable.
  - rewrite enc_at_root. now apply deserialize_enc.
  - intros Hst. rewrite enc_at_root, deserialize_enc by assumption.
    now rewrite revived_stable.
Qed.

(** X18. The round trip of the default serializer.  A value built from
    null, booleans, safe integers, strings, arrays, plain objects, Dates,
    Maps and Sets, in which undefined occurs only as a Map key, a Map value
    or a Set element, every Date is valid, no plain object carries a
    [__type] naming Date, Map, Set or undefined, and no Date sits under the
    empty property name, comes back as it was: Dates with their time value,
    Maps with their entries in order, Sets with their elements in order,
    arrays with their holes, also when the Date, Map or Set is the value
    itself. *)
Theorem round_trip_of_stable_value (v : jsvalue) :
  stable v -> safe_integers v -> v <> VUndef ->
  exists text,
    serialize defaultSerializer v = Ok text /\
    deserialize defaultSerializer text = Ok v.
Proof.
  intros Hst _ Hv. pose proof (stable_sound v Hst) as Hs. eexists. split.
  - apply serialize_enc. now apply sound_encodable.
  - rewrite enc_at_root, deserialize_enc by assumption. now rewrite revived_stable.
Qed.

Definition nested_value : jsvalue :=
  VObj [("when", VDate (Some 1704067200000));
        ("tags", VSet [VStr "a"; VUndef]);
        ("meta", VMap [(VStr "k", VArr [Some (VNum 1); None]);
                       (VUndef, VNull)])].

Lemma nested_value_stable : stable nested_value.
Proof.
  apply stable_obj. split; [|split].
  - refine (bool_decide_unpack _ _). vm_compute. reflexivity.
  - exact I.
  - repeat apply List.Forall_cons; try apply List.Forall_nil;
      cbn [fst snd]; (split; [discriminate|split; [discriminate|]]).
    + simpl. unfold maxTime. lia.
    + simpl. repeat split; try discriminate; repeat constructor.
    + simpl. repeat split; try discriminate; repeat constructor.
Qed.

Lemma nested_value_safe : safe_integers nested_value.
Proof. unfold safe_integers, safe_integer. simpl. repeat constructor; lia. Qed.

Lemma round_trip_of_stable_value_witness :
  stable nested_value /\ safe_integers nested_value /\ nested_value <> VUndef /\
  exists text,
    serialize defaultSerializer nested_value = Ok text /\
    deserialize defaultSerializer text = Ok nested_value.
Proof.
  split; [exact nested_value_stable|]. split; [exact nested_value_safe|].
  split; [discriminate|].
  apply (round_trip_of_stable_value nested_value nested_value_stable nested_value_safe).
  discriminate.
Defined.

(** A property holding undefined and an array element holding undefined, as
    in the repository's own test of undefined. *)
Definition sparse_value : jsvalue :=
  VObj [("value", VUndef); ("list", VArr [Some VUndef; Some (VNum 1); None])].

Example sparse_value_comes_back_pruned :
  sound sparse_value /\
  revived sparse_value = VObj [("list", VArr [None; Some (VNum 1); None])] /\
  (text ← serialize defaultSerializer sparse_value; deserialize defaultSerializer text)
  = Ok (revived sparse_value) /\
  get_prop (revived sparse_value) "value" = VUndef.
Proof.
  split; [|vm_compute; repeat split; reflexivity].
  apply sound_obj. split; [|split].
  - refine (bool_decide_unpack _ _). vm_compute. reflexivity.
  - exact I.
  - repeat apply List.Forall_cons; try apply List.Forall_nil;
      cbn [fst snd]; (split; [discriminate|]); simpl; tauto.
Qed.

(** C4: undefined is written but not restored.  The replacer writes
    undefined as the tagged object [{"__type":"undefined"}], and the reviver
    answers undefined for it; but JSON.parse deletes a property whose revived
    value is undefined.  So undefined as the value itself comes back as the
    emptied [__root] wrapper, the object {}; a property that held undefined
    comes back absent; and an array element that held undefined comes back
    as a hole. *)
Lemma undefined_is_not_restored :
  serialize defaultSerializer VUndef
  = Ok (JSON_print (JObj [("__root", JObj [("__type", JStr "undefined")])])) /\
  deserialize defaultSerializer
    (JSON_print (JObj [("__root", JObj [("__type", JStr "undefined")])]))
  = Ok (VObj []) /\
  serialize defaultSerializer (VObj [("a", VUndef); ("b", VNum 1)])
  = Ok (JSON_print (JObj [("__root", JObj [("a", JObj [("__type", JStr "undefined")]);
                                           ("b", JNum 1)])])) /\
  deserialize defaultSerializer
    (JSON_print (JObj [("__root", JObj [("a", JObj [("__type", JStr "undefined")]);
                                        ("b", JNum 1)])]))
  = Ok (VObj [("b", VNum 1)]) /\
  (text ← serialize defaultSerializer (VArr [Some VUndef; Some (VNum 1)]);
   deserialize defaultSerializer text)
  = Ok (VArr [None; Some (VNum 1)]).
Proof. vm_compute. repeat split; reflexivity. Qed.

(** What the tagged encoding does not give back. *)

Example tagged_object_is_revived :
  (text ← serialize defaultSerializer
            (VObj [("__type", VStr "Set"); ("value", VArr [Some (VNum 1)])]);
   deserialize defaultSerializer text) = Ok (VSet [VNum 1]).
Proof. vm_compute. reflexivity. Qed.

Example date_under_empty_name_is_text :
  (text ← serialize defaultSerializer (VObj [("", VDate (Some 0))]);
   deserialize defaultSerializer text)
  = Ok (VObj [("", VStr "1970-01-01T00:00:00.000Z")]).
Proof. vm_compute. reflexivity. Qed.

Example invalid_date_throws :
  serialize defaultSerializer (VDate None) = Throw RangeError.
Proof. vm_compute. reflexivity. Qed.

Example invalid_json_throws :
  deserialize defaultSerializer "invalid-json" = Throw (Error "Failed to deserialize data").
Proof. vm_compute. reflexivity. Qed.

(** * What the store guarantees *)

Definition notifications (l : list event) : list (nat * jsvalue) :=
  omap (fun e => match e with Notified cb v => Some (cb, v) | _ => None end) l.

Definition migrations (l : list event) : list jsvalue :=
  omap (fun e => match e with MigrateCalled v => Some v | _ => None end) l.

Definition migrate_calls (l : list event) : nat := length (migrations l).

Definition reports (l : list event) : list (exn * string) :=
  omap (fun e => match e with ErrorReported x k => Some (x, k) | _ => None end) l.

(** The error callback, when there is one, returns normally. *)
Definition quiet_handler (o : StoreOptions) : Prop :=
  forall handler e, opt_onValidationError o = Some handler -> handler e (opt_key o) = Ok tt.

Lemma with_log_same (w : World) : with_log (log w) w = w.
Proof. now destruct w. Qed.

Lemma with_log_twice (l1 l2 : list event) (w : World) :
  with_log l2 (with_log l1 w) = with_log l2 w.
Proof. reflexivity. Qed.

(** [m] touches nothing but the log, to which it appends events among [P]. *)
Definition only_logs {A} (P : event -> Prop) (m : M A) : Prop :=
  forall w, exists evs, snd (m w) = with_log (log w ++ evs) w /\ Forall P evs.

Section OnlyLogs.
Context {A B : Type} (P : event -> Prop).

Lemma only_logs_ret (a : A) : only_logs P (mret a : M A).
Proof. intros w. exists []. simpl. rewrite app_nil_r, with_log_same. auto. Qed.

Lemma only_logs_lift (r : result A) : only_logs P (lift r).
Proof. intros w. exists []. simpl. rewrite app_nil_r, with_log_same. auto. Qed.

Lemma only_logs_throw (e : exn) : only_logs P (throw e : M A).
Proof. intros w. exists []. simpl. rewrite app_nil_r, with_log_same. auto. Qed.

Lemma only_logs_record (e : event) : P e -> only_logs P (record e).
Proof. intros He w. exists [e]. auto. Qed.

Lemma only_logs_bind (m : M A) (f : A -> M B) :
  only_logs P m -> (forall a, only_logs P (f a)) -> only_logs P (m ≫= f).
Proof.
  intros Hm Hf w. unfold mbind, M_bind. destruct (Hm w) as (e1 & H1 & P1).
  destruct (m w) as [[a|x] w1]; simpl in *; [|now exists e1].
  destruct (Hf a w1) as (e2 & H2 & P2). exists (e1 ++ e2). rewrite H2, H1. simpl.
  rewrite app_assoc. split; [reflexivity|now apply Forall_app].
Qed.

Lemma only_logs_try_catch (m : M A) (h : exn -> M A) :
  only_logs P m -> (forall e, only_logs P (h e)) -> only_logs P (try_catch m h).
Proof.
  intros Hm Hh w. unfold try_catch. destruct (Hm w) as (e1 & H1 & P1).
  destruct (m w) as [[a|x] w1]; simpl in *; [now exists e1|].
  destruct (Hh x w1) as (e2 & H2 & P2). exists (e1 ++ e2). rewrite H2, H1. simpl.
  rewrite app_assoc. split; [reflexivity|now apply Forall_app].
Qed.

End OnlyLogs.

Definition is_report (e : event) : Prop :=
  match e with ErrorReported _ _ => True | _ => False end.

Definition not_notified (e : event) : Prop :=
  match e with Notified _ _ => False | _ => True end.

Lemma only_logs_weaken {A} (P Q : event -> Prop) (m : M A) :
  (forall e, P e -> Q e) -> only_logs P m -> only_logs Q m.
Proof.
  intros HPQ Hm w. destruct (Hm w) as (evs & H & HP). exists evs. split; [exact H|].
  eapply Forall_impl; eauto.
Qed.

Lemma only_logs_report o e : only_logs is_report (report o e).
Proof.
  unfold report. destruct (opt_onValidationError o); [|apply only_logs_ret].
  apply only_logs_bind; [now apply only_logs_record|intros; apply only_logs_lift].
Qed.

Lemma only_logs_validate o data : only_logs is_report (validate o data).
Proof.
  unfold validate. apply only_logs_try_catch.
  - destruct (safeParse (opt_schema o)); [|apply only_logs_lift].
    apply only_logs_bind; [apply only_logs_lift|]. intros res.
    destruct (vr_success res && negb (is_undefined (vr_data res))); [apply only_logs_ret|].
    apply only_logs_bind; [apply only_logs_report|intros; apply only_logs_ret].
  - intros e. apply only_logs_bind; [apply only_logs_report|intros; apply only_logs_ret].
Qed.

Lemma only_logs_migrateData o storedData : only_logs not_notified (migrateData o storedData).
Proof.
  unfold migrateData. destruct (opt_migrate o) as [f|]; [|apply only_logs_lift].
  destruct (no_version o); [apply only_logs_lift|].
  apply only_logs_bind; [apply only_logs_lift|]. intros sv.
  destruct (strict_eq_number sv _); [apply only_logs_lift|].
  destruct (truthy sv && gt_number sv _).
  - apply only_logs_bind; [now apply only_logs_record|intros; apply only_logs_lift].
  - apply only_logs_try_catch.
    + apply only_logs_bind; [apply only_logs_lift|]. intros v.
      apply only_logs_bind; [now apply only_logs_record|intros; apply only_logs_lift].
    + intros e. apply only_logs_bind; [now apply only_logs_record|]. intros _.
      apply only_logs_bind; [|intros; apply only_logs_ret].
      eapply only_logs_weaken; [|apply only_logs_report]. now intros [].
Qed.

Lemma notifications_app (a b : list event) :
  notifications (a ++ b) = notifications a ++ notifications b.
Proof. apply omap_app. Qed.

Lemma reports_app (a b : list event) : reports (a ++ b) = reports a ++ reports b.
Proof. apply omap_app. Qed.

Lemma migrations_app (a b : list event) : migrations (a ++ b) = migrations a ++ migrations b.
Proof. apply omap_app. Qed.

Lemma notifications_none (evs : list event) : Forall not_notified evs -> notifications evs = [].
Proof. induction 1 as [|e evs He _ IH]; [reflexivity|]. now destruct e. Qed.

Lemma notifications_reports (evs : list event) : Forall is_report evs -> notifications evs = [].
Proof. induction 1 as [|e evs He _ IH]; [reflexivity|]. now destruct e. Qed.

Lemma forEach_notify (v : jsvalue) (cs : list UpdateCallback) :
  forall w, exists evs,
    forEach cs
      (fun callback =>
         try_catch
           (record (Notified (cb_id callback) v);; lift (cb_run callback v))
           (fun error => record (ConsoleError "SafeStorage: Update callback error" error))) w
    = (Ok tt, with_log (log w ++ evs) w) /\
    notifications evs = map (fun cb => (cb_id cb, v)) cs /\
    migrate_calls evs = O /\ reports evs = [].
Proof.
  induction cs as [|c cs IH]; intros w.
  - exists []. simpl. now rewrite app_nil_r, with_log_same.
  - cbn [forEach]. unfold mbind at 1, M_bind at 1.
    set (step := try_catch _ _).
    assert (Hstep : exists e1, step w = (Ok tt, with_log (log w ++ e1) w) /\
                               notifications e1 = [(cb_id c, v)] /\
                               migrate_calls e1 = O /\ reports e1 = []).
    { subst step. unfold try_catch, mbind, M_bind, record, lift.
      destruct (cb_run c v) as [[]|e].
      - now exists [Notified (cb_id c) v].
      - exists [Notified (cb_id c) v; ConsoleError "SafeStorage: Update callback error" e].
        simpl. now rewrite <- app_assoc. }
    destruct Hstep as (e1 & -> & N1 & M1 & R1).
    destruct (IH (with_log (log w ++ e1) w)) as (e2 & -> & N2 & M2 & R2).
    exists (e1 ++ e2). simpl. rewrite app_assoc. split; [reflexivity|].
    unfold notifications, migrate_calls, migrations, reports in *.
    rewrite !omap_app, length_app, N1, N2, M1, M2, R1, R2. auto.
Qed.

Lemma notifyCallbacks_run (v : jsvalue) (w : World) :
  exists evs,
    notifyCallbacks v w = (Ok tt, with_log (log w ++ evs) w) /\
    notifications evs = map (fun cb => (cb_id cb, v)) (updateCallbacks w) /\
    migrate_calls evs = O /\ reports evs = [].
Proof. apply forEach_notify. Qed.

(** What one round of notifyCallbacks leaves in the log: for each callback,
    in order, the call and, when the callback threw, the console.error of
    what it threw. *)
Definition notification_log (v : jsvalue) (cs : list UpdateCallback) : list event :=
  flat_map (fun cb => Notified (cb_id cb) v ::
                      match cb_run cb v with
                      | Ok _ => []
                      | Throw error => [ConsoleError "SafeStorage: Update callback error" error]
                      end) cs.

Lemma forEach_notify_log (v : jsvalue) (cs : list UpdateCallback) :
  forall w,
    forEach cs
      (fun callback =>
         try_catch
           (record (Notified (cb_id callback) v);; lift (cb_run callback v))
           (fun error => record (ConsoleError "SafeStorage: Update callback error" error))) w
    = (Ok tt, with_log (log w ++ notification_log v cs) w).
Proof.
  induction cs as [|c cs IH]; intros w.
  - simpl. now rewrite app_nil_r, with_log_same.
  - cbn [forEach notification_log flat_map]. unfold mbind at 1, M_bind at 1.
    set (step := try_catch _ _).
    assert (Hstep : step w = (Ok tt, with_log (log w ++ Notified (cb_id c) v ::
                      match cb_run c v with
                      | Ok _ => []
                      | Throw error => [ConsoleError "SafeStorage: Update callback error" error]
                      end) w)).
    { subst step. unfold try_catch, mbind, M_bind, record, lift.
      destruct (cb_run c v) as [[]|e]; [reflexivity|].
      simpl. now rewrite <- app_assoc. }
    rewrite Hstep, IH. simpl. now rewrite <- app_assoc.
Qed.

Lemma notifyCallbacks_log (v : jsvalue) (w : World) :
  notifyCallbacks v w = (Ok tt, with_log (log w ++ notification_log v (updateCallbacks w)) w).
Proof. apply forEach_notify_log. Qed.

Lemma notifications_log (v : jsvalue) (cs : list UpdateCallback) :
  notifications (notification_log v cs) = map (fun cb => (cb_id cb, v)) cs.
Proof.
  induction cs as [|c cs IH]; [reflexivity|].
  cbn [notification_log flat_map map]. unfold notifications in *. rewrite omap_app.
  fold (notification_log v cs). rewrite IH. simpl. now destruct (cb_run c v).
Qed.

(** ** Stores used in the examples *)


Definition accept (v : jsvalue) : ValidationResult :=
  {| vr_success := true; vr_data := v; vr_error := VUndef |}.
Definition reject (why : string) : ValidationResult :=
  {| vr_success := false; vr_data := VUndef; vr_error := VStr why |}.

(** A schema in the style of z.number(), with both calling conventions. *)
Definition number_schema : SchemaValidator :=
  {| parse := fun v => match v with
                       | VNum _ => Ok v
                       | _ => Throw (Error "Expected number")
                       end;
     safeParse := Some (fun v => Ok (match v with
                                     | VNum _ => accept v
                                     | _ => reject "Expected number"
                                     end)) |}.

Definition string_schema : SchemaValidator :=
  {| parse := fun v => match v with
                       | VStr _ => Ok v
                       | _ => Throw (Error "Expected string")
                       end;
     safeParse := Some (fun v => Ok (match v with
                                     | VStr _ => accept v
                                     | _ => reject "Expected string"
                                     end)) |}.

Definition basic_options (k : string) (s : SchemaValidator) : StoreOptions :=
  {| opt_key := k; opt_schema := s; opt_version := None; opt_migrate := None;
     opt_ttl := None; opt_defaultValue := VUndef; opt_onValidationError := None;
     opt_serializer := defaultSerializer; opt_debounce := None; opt_throttle := None |}.

Definition idle : Limiter := {| timeoutId := None; lastArgs := None; isThrottled := false |}.

Definition world_of (m : gmap string string) (cs : list UpdateCallback) (now : Z) : World :=
  {| storage := {| items := m; quota := 5000000%N |}; updateCallbacks := cs;
     listening := negb (bool_decide (cs = [])); limiter := idle; clock := now; log := [] |}.

Example scenario_basic :
  let o := basic_options "k" number_schema in
  let w := world_of ∅ [] 1000 in
  let w1 := snd (set o (VNum 5) w) in
  fst (get o w1) = Ok (VNum 5) /\
  fst (get o (snd (remove o w1))) = Ok VNull.
Proof. vm_compute. split; reflexivity. Qed.

(** ** Reading *)

(** C10. With a default value configured and nothing stored under the key,
    get returns the default value and has returns true: has does not tell a
    stored value from the configured default. *)
Theorem has_true_on_default (o : StoreOptions) (w : World) :
  nullish (opt_defaultValue o) = false ->
  getItem (storage w) (opt_key o) = None ->
  get o w = (Ok (opt_defaultValue o), w) /\ has o w = (Ok true, w).
Proof.
  intros Hd Hraw.
  assert (Hget : get o w = (Ok (opt_defaultValue o), w)).
  { unfold get, try_catch, get_try, mbind, M_bind, storage_getItem.
    rewrite Hraw. simpl. unfold default_or_null. now rewrite Hd. }
  split; [exact Hget|].
  unfold has, mbind, M_bind. rewrite Hget. simpl.
  destruct (opt_defaultValue o); try reflexivity; discriminate.
Qed.

Definition store_with_default : StoreOptions :=
  {| opt_key := "k"; opt_schema := string_schema; opt_version := None;
     opt_migrate := None; opt_ttl := None; opt_defaultValue := VStr "x";
     opt_onValidationError := None; opt_serializer := defaultSerializer;
     opt_debounce := None; opt_throttle := None |}.

Lemma has_true_on_default_witness :
  nullish (opt_defaultValue store_with_default) = false /\
  getItem (storage (world_of ∅ [] 1000)) (opt_key store_with_default) = None /\
  get store_with_default (world_of ∅ [] 1000)
  = (Ok (opt_defaultValue store_with_default), world_of ∅ [] 1000) /\
  has store_with_default (world_of ∅ [] 1000) = (Ok true, world_of ∅ [] 1000).
Proof.
  split; [reflexivity|]. split; [reflexivity|].
  apply (has_true_on_default store_with_default (world_of ∅ [] 1000)); reflexivity.
Defined.

(** ** Writing and notification *)

(** Without debounce and throttle the public set is the internal one. *)
Lemma set_plain (o : StoreOptions) :
  truthy_ms (opt_debounce o) = false -> truthy_ms (opt_throttle o) = false ->
  set o = _setInternal o.
Proof. intros Hd Ht. unfold set. now rewrite Hd, Ht. Qed.

(** What the schema says about [data], as validate reads it: safeParse when
    the schema has one (a success without data counts as a failure), else
    parse. *)
Inductive verdict : Type :=
| Accepted (v : jsvalue)
| Rejected (e : exn).

Definition schema_verdict (s : SchemaValidator) (data : jsvalue) : verdict :=
  match safeParse s with
  | Some safeParse =>
      match safeParse data with
      | Ok res => if vr_success res && negb (is_undefined (vr_data res))
                  then Accepted (vr_data res)
                  else Rejected (ErrorValue (vr_error res))
      | Throw e => Rejected e
      end
  | None =>
      match parse s data with
      | Ok v => Accepted v
      | Throw e => Rejected e
      end
  end.

(** The record _setInternal builds at time [now]. *)
Definition record_of (o : StoreOptions) (validated : jsvalue) (now : Z) : jsvalue :=
  VObj ([("value", validated);
         ("version", number_or_undefined (opt_version o));
         ("timestamp", VNum now)]
        ++ (if has_ttl o then [("expiresAt", VNum (now + default 0 (opt_ttl o)))] else [])).

Lemma validate_accepted (o : StoreOptions) (data v : jsvalue) (w : World) :
  schema_verdict (opt_schema o) data = Accepted v -> validate o data w = (Ok v, w).
Proof.
  unfold schema_verdict, validate, try_catch, mbind, M_bind, lift.
  destruct (safeParse (opt_schema o)) as [sp|].
  - destruct (sp data) as [res|e]; [|discriminate].
    destruct (vr_success res && negb (is_undefined (vr_data res))); [|discriminate].
    now intros [= ->].
  - destruct (parse (opt_schema o) data); [|discriminate]. now intros [= ->].
Qed.

Lemma report_run (o : StoreOptions) (e : exn) (w : World) :
  exists r evs,
    report o e w = (r, with_log (log w ++ evs) w) /\ Forall is_report evs /\
    (forall h, opt_onValidationError o = Some h -> reports evs = [(e, opt_key o)]).
Proof.
  unfold report. destruct (opt_onValidationError o) as [h|].
  - exists (h e (opt_key o)), [ErrorReported e (opt_key o)].
    unfold mbind, M_bind, record, lift. split; [|split; [repeat constructor|reflexivity]].
    reflexivity.
  - exists (Ok tt), []. simpl. rewrite app_nil_r, with_log_same.
    repeat split; auto. discriminate.
Qed.

Lemma validate_rejected (o : StoreOptions) (data : jsvalue) (e : exn) (w : World) :
  schema_verdict (opt_schema o) data = Rejected e ->
  exists r evs,
    validate o data w = (r, with_log (log w ++ evs) w) /\
    (r = Ok VNull \/ exists e', r = Throw e') /\
    Forall is_report evs /\
    (forall h, opt_onValidationError o = Some h -> exists rest, reports evs = (e, opt_key o) :: rest).
Proof.
  intros Hv.
  assert (Hcatch : forall x w0,
    exists r evs,
      (report o x;; mret VNull) w0 = (r, with_log (log w0 ++ evs) w0) /\
      (r = Ok VNull \/ exists e', r = Throw e') /\ Forall is_report evs /\
      (forall h, opt_onValidationError o = Some h -> reports evs = [(x, opt_key o)])).
  { intros x w0. destruct (report_run o x w0) as (r & evs & Hr & HP & HR).
    unfold mbind, M_bind. rewrite Hr. destruct r as [[]|e'].
    - exists (Ok VNull), evs. eauto.
    - exists (Throw e'), evs. eauto 6. }
  unfold schema_verdict in Hv. unfold validate, try_catch.
  destruct (safeParse (opt_schema o)) as [sp|].
  - unfold mbind at 1, M_bind at 1, lift at 1.
    destruct (sp data) as [res|x].
    + destruct (vr_success res && negb (is_undefined (vr_data res))); [discriminate|].
      injection Hv as <-.
      destruct (Hcatch (ErrorValue (vr_error res)) w) as (r & evs & Hr & Hres & HP & HR).
      rewrite Hr. destruct Hres as [->|[e' ->]].
      * exists (Ok VNull), evs. repeat split; eauto.
      * destruct (Hcatch e' (with_log (log w ++ evs) w)) as (r2 & evs2 & Hr2 & Hres2 & HP2 & HR2).
        rewrite Hr2. exists r2, (evs ++ evs2). simpl. rewrite app_assoc.
        repeat split; [assumption|now apply Forall_app|].
        intros h Hh. unfold reports in *. rewrite omap_app, (HR h Hh). simpl. eauto.
    + injection Hv as <-.
      destruct (Hcatch x w) as (r & evs & Hr & Hres & HP & HR).
      rewrite Hr. exists r, evs. repeat split; eauto.
  - unfold lift at 1. destruct (parse (opt_schema o) data) as [v|x]; [discriminate|].
    injection Hv as <-.
    destruct (Hcatch x w) as (r & evs & Hr & Hres & HP & HR).
    rewrite Hr. exists r, evs. repeat split; eauto.
Qed.

(** The set pipeline once validation has returned [validated]. *)
Lemma setInternal_persists (o : StoreOptions) (w w1 : World) (data validated : jsvalue)
    (text : string) (st : Storage) :
  validate o data w = (Ok validated, w1) ->
  is_null validated = false ->
  serialize (opt_serializer o) (record_of o validated (clock w)) = Ok text ->
  setItem (storage w) (opt_key o) text = Ok st ->
  exists evs,
    _setInternal o data w = (Ok tt, with_log (log w1 ++ evs) (with_storage st w1)) /\
    notifications evs = map (fun cb => (cb_id cb, validated)) (updateCallbacks w) /\
    migrate_calls evs = O.
Proof.
  intros Hv Hn Hser Hset. unfold record_of in Hser.
  destruct (only_logs_validate o data w) as (e1 & Hw1 & _). rewrite Hv in Hw1. simpl in Hw1.
  unfold _setInternal, try_catch, mbind at 1, M_bind at 1. rewrite Hv.
  rewrite Hn. unfold mbind, M_bind, mret, M_ret, Date_now, lift, storage_setItem.
  assert (Hc : clock w1 = clock w) by now rewrite Hw1.
  assert (Hs : storage w1 = storage w) by now rewrite Hw1.
  assert (Hu : updateCallbacks w1 = updateCallbacks w) by now rewrite Hw1.
  rewrite Hc. destruct (has_ttl o); simpl app in *; rewrite ?Hc, Hser, Hs, Hset.
  - destruct (notifyCallbacks_run validated (with_storage st w1)) as (evs & H & N & G & _).
    rewrite H. exists evs. split; [reflexivity|]. now rewrite N, <- Hu.
  - destruct (notifyCallbacks_run validated (with_storage st w1)) as (evs & H & N & G & _).
    rewrite H. exists evs. split; [reflexivity|]. now rewrite N, <- Hu.
Qed.

(** The console.error of _setInternal's catch block. *)
Definition set_failure (o : StoreOptions) (e : exn) : event :=
  ConsoleError ("SafeStorage: Failed to set value for key " +:+ quoted (opt_key o)) e.

(** The four ways through _setInternal once validate has returned. *)
Lemma setInternal_log (o : StoreOptions) (w w1 : World) (data validated : jsvalue)
    (text : string) (st : Storage) :
  validate o data w = (Ok validated, w1) ->
  is_null validated = false ->
  serialize (opt_serializer o) (record_of o validated (clock w)) = Ok text ->
  setItem (storage w) (opt_key o) text = Ok st ->
  _setInternal o data w
  = (Ok tt, with_log (log w1 ++ notification_log validated (updateCallbacks w))
              (with_storage st w1)).
Proof.
  intros Hv Hn Hser Hset. unfold record_of in Hser.
  destruct (only_logs_validate o data w) as (e1 & Hw1 & _). rewrite Hv in Hw1. simpl in Hw1.
  unfold _setInternal, try_catch, mbind at 1, M_bind at 1. rewrite Hv.
  rewrite Hn. unfold mbind, M_bind, mret, M_ret, Date_now, lift, storage_setItem.
  assert (Hc : clock w1 = clock w) by now rewrite Hw1.
  assert (Hs : storage w1 = storage w) by now rewrite Hw1.
  assert (Hu : updateCallbacks w1 = updateCallbacks w) by now rewrite Hw1.
  rewrite Hc.
  destruct (has_ttl o); simpl app in *; rewrite ?Hc, Hser, Hs, Hset, notifyCallbacks_log;
    simpl; now rewrite Hu.
Qed.

Lemma setInternal_null (o : StoreOptions) (w w1 : World) (data validated : jsvalue) :
  validate o data w = (Ok validated, w1) ->
  is_null validated = true ->
  _setInternal o data w
  = (Throw (Error "Validation failed"),
     with_log (log w1 ++ [set_failure o (Error "Validation failed")]) w1).
Proof.
  intros Hv Hn.
  unfold _setInternal, try_catch, mbind at 1, M_bind at 1. rewrite Hv, Hn. reflexivity.
Qed.

Lemma setInternal_serialize_fails (o : StoreOptions) (w w1 : World) (data validated : jsvalue)
    (e : exn) :
  validate o data w = (Ok validated, w1) ->
  is_null validated = false ->
  serialize (opt_serializer o) (record_of o validated (clock w)) = Throw e ->
  _setInternal o data w = (Throw e, with_log (log w1 ++ [set_failure o e]) w1).
Proof.
  intros Hv Hn Hser. unfold record_of in Hser.
  destruct (only_logs_validate o data w) as (e1 & Hw1 & _). rewrite Hv in Hw1. simpl in Hw1.
  unfold _setInternal, try_catch, mbind at 1, M_bind at 1. rewrite Hv.
  rewrite Hn. unfold mbind, M_bind, mret, M_ret, Date_now, lift, storage_setItem.
  assert (Hc : clock w1 = clock w) by now rewrite Hw1.
  rewrite Hc.
  destruct (has_ttl o); simpl app in *; rewrite ?Hc, Hser; reflexivity.
Qed.

Lemma setInternal_write_fails (o : StoreOptions) (w w1 : World) (data validated : jsvalue)
    (text : string) (e : exn) :
  validate o data w = (Ok validated, w1) ->
  is_null validated = false ->
  serialize (opt_serializer o) (record_of o validated (clock w)) = Ok text ->
  setItem (storage w) (opt_key o) text = Throw e ->
  _setInternal o data w = (Throw e, with_log (log w1 ++ [set_failure o e]) w1).
Proof.
  intros Hv Hn Hser Hset. unfold record_of in Hser.
  destruct (only_logs_validate o data w) as (e1 & Hw1 & _). rewrite Hv in Hw1. simpl in Hw1.
  unfold _setInternal, try_catch, mbind at 1, M_bind at 1. rewrite Hv.
  rewrite Hn. unfold mbind, M_bind, mret, M_ret, Date_now, lift, storage_setItem.
  assert (Hc : clock w1 = clock w) by now rewrite Hw1.
  assert (Hs : storage w1 = storage w) by now rewrite Hw1.
  rewrite Hc.
  destruct (has_ttl o); simpl app in *; rewrite ?Hc, Hser, Hs, Hset; reflexivity.
Qed.

(** C9. A callback that throws does not stop the notification.
    notifyCallbacks calls every subscribed callback once, in order, with the
    same value; what a callback throws is caught and passed to console.error
    before the next callback is called, and notifyCallbacks returns
    normally.  So remove completes, and so does the set pipeline once the
    record is persisted: their log is that of the calls, with one
    console.error for each callback that threw. *)
Theorem notification_survives_throwing_callback
    (o : StoreOptions) (w : World) (v data : jsvalue) :
  notifyCallbacks v w
  = (Ok tt, with_log (log w ++ notification_log v (updateCallbacks w)) w) /\
  notifications (notification_log v (updateCallbacks w))
  = map (fun cb => (cb_id cb, v)) (updateCallbacks w) /\
  remove o w
  = (Ok tt, with_log (log w ++ notification_log VNull (updateCallbacks w))
              (with_storage (removeItem (storage w) (opt_key o)) w)) /\
  (forall validated w1 text st,
     validate o data w = (Ok validated, w1) ->
     is_null validated = false ->
     serialize (opt_serializer o) (record_of o validated (clock w)) = Ok text ->
     setItem (storage w) (opt_key o) text = Ok st ->
     _setInternal o data w
     = (Ok tt, with_log (log w1 ++ notification_log validated (updateCallbacks w))
                 (with_storage st w1))).
Proof.
  split; [apply notifyCallbacks_log|]. split; [apply notifications_log|]. split.
  - unfold remove, mbind, M_bind, storage_removeItem. now rewrite notifyCallbacks_log.
  - intros validated w1 text st. apply setInternal_log.
Qed.

Definition throwing_callback : UpdateCallback :=
  {| cb_id := 1; cb_run := fun _ => Throw (Error "subscriber failed") |}.
Definition quiet_callback : UpdateCallback :=
  {| cb_id := 2; cb_run := fun _ => Ok tt |}.

Definition subscribed_world : World :=
  world_of ∅ [throwing_callback; quiet_callback] 1000.

Lemma notification_survives_throwing_callback_witness :
  let o := basic_options "k" string_schema in
  let text := JSON_print (JObj [("__root",
                JObj [("value", JStr "v"); ("version", JObj [("__type", JStr "undefined")]);
                      ("timestamp", JNum 1000)])]) in
  cb_run throwing_callback (VStr "v") = Throw (Error "subscriber failed") /\
  validate o (VStr "v") subscribed_world = (Ok (VStr "v"), subscribed_world) /\
  is_null (VStr "v") = false /\
  serialize (opt_serializer o) (record_of o (VStr "v") (clock subscribed_world)) = Ok text /\
  setItem (storage subscribed_world) (opt_key o) text
  = Ok {| items := {[ "k" := text ]}; quota := 5000000 |} /\
  _setInternal o (VStr "v") subscribed_world
  = (Ok tt, with_log [Notified 1 (VStr "v");
                      ConsoleError "SafeStorage: Update callback error"
                        (Error "subscriber failed");
                      Notified 2 (VStr "v")]
              (with_storage {| items := {[ "k" := text ]}; quota := 5000000 |}
                 subscribed_world)).
Proof.
  intros o text.
  split; [reflexivity|]. split; [reflexivity|]. split; [reflexivity|].
  split; [reflexivity|]. split; [reflexivity|].
  destruct (notification_survives_throwing_callback o subscribed_world VNull (VStr "v"))
    as (_ & _ & _ & H).
  apply (H (VStr "v") subscribed_world text
           {| items := {[ "k" := text ]}; quota := 5000000 |}); reflexivity.
Defined.

(** C6, as the code has it. When the schema rejects [data], the set pipeline
    throws, the rejection is the first thing reported to the error callback
    when there is one, the storage is left as it was and nobody is notified.
    When the schema accepts [data] with null, set throws "Validation failed"
    and reports nothing.  When it accepts it with another value, set builds
    the record (validated value, configured version, current time, and
    expiresAt from a non-zero TTL): if the serializer throws, or the storage
    refuses the text, set throws the same exception, and the storage is as
    it was and nobody has been notified; otherwise the text is stored under
    the key, and set ends as notifyCallbacks does in the storage that holds
    the text: every subscriber is called with the value.  In each case but
    the first the log says all that has happened. *)
Theorem set_pipeline (o : StoreOptions) (w : World) (data : jsvalue) :
  (forall e, schema_verdict (opt_schema o) data = Rejected e ->
     exists e' evs,
       _setInternal o data w = (Throw e', with_log (log w ++ evs) w) /\
       notifications evs = [] /\
       (forall h, opt_onValidationError o = Some h ->
          exists rest, reports evs = (e, opt_key o) :: rest)) /\
  (forall validated,
     schema_verdict (opt_schema o) data = Accepted validated ->
     is_null validated = true ->
     _setInternal o data w
     = (Throw (Error "Validation failed"),
        with_log (log w ++ [set_failure o (Error "Validation failed")]) w)) /\
  (forall validated e,
     schema_verdict (opt_schema o) data = Accepted validated ->
     is_null validated = false ->
     serialize (opt_serializer o) (record_of o validated (clock w)) = Throw e ->
     _setInternal o data w = (Throw e, with_log (log w ++ [set_failure o e]) w)) /\
  (forall validated text e,
     schema_verdict (opt_schema o) data = Accepted validated ->
     is_null validated = false ->
     serialize (opt_serializer o) (record_of o validated (clock w)) = Ok text ->
     setItem (storage w) (opt_key o) text = Throw e ->
     _setInternal o data w = (Throw e, with_log (log w ++ [set_failure o e]) w)) /\
  (forall validated text st,
     schema_verdict (opt_schema o) data = Accepted validated ->
     is_null validated = false ->
     serialize (opt_serializer o) (record_of o validated (clock w)) = Ok text ->
     setItem (storage w) (opt_key o) text = Ok st ->
     getItem st (opt_key o) = Some text /\
     _setInternal o data w = notifyCallbacks validated (with_storage st w) /\
     _setInternal o data w
     = (Ok tt, with_log (log w ++ notification_log validated (updateCallbacks w))
                 (with_storage st w))).
Proof.
  split; [|split; [|split; [|split]]].
  - intros e Hv.
    destruct (validate_rejected o data e w Hv) as (r & evs & Hr & Hres & HP & HR).
    unfold _setInternal, try_catch, mbind at 1, M_bind at 1. rewrite Hr.
    destruct Hres as [->|[e' ->]].
    + simpl. unfold mbind, M_bind, throw, record. simpl.
      eexists _, (evs ++ [_]). rewrite app_assoc. split; [reflexivity|].
      split; [rewrite notifications_app, notifications_reports by assumption; reflexivity|].
      intros h Hh. destruct (HR h Hh) as [rest Hrest].
      rewrite reports_app, Hrest. simpl. eauto.
    + unfold mbind, M_bind, throw, record. simpl.
      eexists _, (evs ++ [_]). rewrite app_assoc. split; [reflexivity|].
      split; [rewrite notifications_app, notifications_reports by assumption; reflexivity|].
      intros h Hh. destruct (HR h Hh) as [rest Hrest].
      rewrite reports_app, Hrest. simpl. eauto.
  - intros validated Hv Hn.
    exact (setInternal_null o w w data validated (validate_accepted o data validated w Hv) Hn).
  - intros validated e Hv Hn Hser.
    exact (setInternal_serialize_fails o w w data validated e
             (validate_accepted o data validated w Hv) Hn Hser).
  - intros validated text e Hv Hn Hser Hset.
    exact (setInternal_write_fails o w w data validated text e
             (validate_accepted o data validated w Hv) Hn Hser Hset).
  - intros validated text st Hv Hn Hser Hset.
    pose proof (setInternal_log o w w data validated text st
                  (validate_accepted o data validated w Hv) Hn Hser Hset) as Hrun.
    split; [|split; [|exact Hrun]].
    + unfold setItem in Hset. destruct (_ <=? _)%N; [|discriminate].
      injection Hset as <-. unfold getItem. simpl. apply lookup_insert_eq.
    + rewrite Hrun. symmetry. apply (notifyCallbacks_log validated (with_storage st w)).
Qed.

Definition record_text_5 : string :=
  JSON_print (JObj [("__root",
    JObj [("value", JNum 5); ("version", JObj [("__type", JStr "undefined")]);
          ("timestamp", JNum 1000)])]).

(** A storage with no room left, and one subscriber. *)
Definition full_world : World :=
  {| storage := {| items := ∅; quota := 0 |};
     updateCallbacks := [quiet_callback]; listening := true;
     limiter := idle; clock := 1000; log := [] |}.

Lemma set_pipeline_witness :
  let o := basic_options "k" number_schema in
  let st := {| items := {[ "k" := record_text_5 ]}; quota := 5000000 |} in
  (schema_verdict (opt_schema o) (VStr "five") = Rejected (ErrorValue (VStr "Expected number")) /\
   exists e' evs,
     _setInternal o (VStr "five") subscribed_world
     = (Throw e', with_log (log subscribed_world ++ evs) subscribed_world) /\
     notifications evs = []) /\
  (schema_verdict (opt_schema o) (VNum 5) = Accepted (VNum 5) /\
   is_null (VNum 5) = false /\
   serialize (opt_serializer o) (record_of o (VNum 5) (clock subscribed_world))
   = Ok record_text_5 /\
   setItem (storage subscribed_world) (opt_key o) record_text_5 = Ok st /\
   getItem st (opt_key o) = Some record_text_5 /\
   _setInternal o (VNum 5) subscribed_world
   = (Ok tt, with_log [Notified 1 (VNum 5);
                       ConsoleError "SafeStorage: Update callback error"
                         (Error "subscriber failed");
                       Notified 2 (VNum 5)]
               (with_storage st subscribed_world))) /\
  (setItem (storage full_world) (opt_key o) record_text_5 = Throw QuotaExceededError /\
   _setInternal o (VNum 5) full_world
   = (Throw QuotaExceededError,
      with_log [set_failure o QuotaExceededError] full_world)).
Proof.
  intros o st. split; [|split].
  - split; [reflexivity|].
    destruct (set_pipeline o subscribed_world (VStr "five")) as [H _].
    destruct (H (ErrorValue (VStr "Expected number")) eq_refl) as (e' & evs & H1 & H2 & _).
    eauto.
  - split; [reflexivity|]. split; [reflexivity|]. split; [reflexivity|]. split; [reflexivity|].
    destruct (set_pipeline o subscribed_world (VNum 5)) as (_ & _ & _ & _ & H).
    destruct (H (VNum 5) record_text_5 st) as (H1 & _ & H2); try reflexivity.
    split; [exact H1|exact H2].
  - split; [reflexivity|].
    destruct (set_pipeline o full_world (VNum 5)) as (_ & _ & _ & H & _).
    apply (H (VNum 5) record_text_5 QuotaExceededError); reflexivity.
Defined.

(** With no room left in the storage a valid value is not persisted and
    nobody is notified; set throws what setItem threw. *)
Example valid_set_fails_when_storage_is_full :
  let o := basic_options "k" number_schema in
  schema_verdict (opt_schema o) (VNum 5) = Accepted (VNum 5) /\
  fst (_setInternal o (VNum 5) full_world) = Throw QuotaExceededError /\
  getItem (storage (snd (_setInternal o (VNum 5) full_world))) "k" = None /\
  notifications (log (snd (_setInternal o (VNum 5) full_world))) = [].
Proof. vm_compute. repeat split; reflexivity. Qed.

(** A schema that accepts everything, null included. *)
Definition any_schema : SchemaValidator :=
  {| parse := fun v => Ok v; safeParse := Some (fun v => Ok (accept v)) |}.

(** Against C6 as worded: a null that the schema accepts is taken for a
    failed validation.  The validation has succeeded, yet set throws and
    nothing is stored; and if this counts as a failed validation, it is one
    that is not reported to the error callback. *)
Lemma accepted_null_is_refused :
  let o := {| opt_key := "k"; opt_schema := any_schema; opt_version := None;
              opt_migrate := None; opt_ttl := None; opt_defaultValue := VUndef;
              opt_onValidationError := Some (fun _ _ => Ok tt);
              opt_serializer := defaultSerializer;
              opt_debounce := None; opt_throttle := None |} in
  schema_verdict (opt_schema o) VNull = Accepted VNull /\
  fst (_setInternal o VNull subscribed_world) = Throw (Error "Validation failed") /\
  getItem (storage (snd (_setInternal o VNull subscribed_world))) "k" = None /\
  reports (log (snd (_setInternal o VNull subscribed_world))) = [] /\
  notifications (log (snd (_setInternal o VNull subscribed_world))) = [].
Proof. vm_compute. repeat split; reflexivity. Qed.

(** A TTL of 0 counts as no TTL: the record has no expiresAt. *)
Example zero_ttl_sets_no_expiresAt :
  let o := {| opt_key := "k"; opt_schema := number_schema; opt_version := None;
              opt_migrate := None; opt_ttl := Some 0; opt_defaultValue := VUndef;
              opt_onValidationError := None; opt_serializer := defaultSerializer;
              opt_debounce := None; opt_throttle := None |} in
  fst (getRaw o (snd (_setInternal o (VNum 5) subscribed_world)))
  = Ok (VObj [("value", VNum 5); ("timestamp", VNum 1000)]).
Proof. vm_compute. reflexivity. Qed.

(** ** Expiration *)

Lemma Get_object (o : jsvalue) (k : string) :
  nullish o = false -> Get o k = Ok (get_prop o k).
Proof. unfold Get. now intros ->. Qed.

(** What get returns when the stored text reads as [storedData] and
    isExpired says it is expired. *)
Lemma get_expired (o : StoreOptions) (w : World) (raw : string) (storedData : jsvalue) :
  getItem (storage w) (opt_key o) = Some raw -> raw <> "" ->
  deserialize (opt_serializer o) raw = Ok storedData ->
  isExpired storedData w = (Ok true, w) ->
  get o w = (Ok (default_or_null o), with_storage (removeItem (storage w) (opt_key o)) w).
Proof.
  intros Hraw Hne Hde Hex.
  unfold get, try_catch, get_try, mbind, M_bind, storage_getItem, lift.
  rewrite Hraw. simpl. destruct (String.eqb_spec raw ""); [contradiction|].
  now rewrite Hde, Hex.
Qed.

(** C5, as the code has it. A record without expiresAt, or with expiresAt
    equal to 0, never expires; a record with another expiresAt is expired
    exactly when the current time is strictly greater; and get, on an
    expired record, deletes the key and returns the default (or null). *)
Theorem expiration_policy (o : StoreOptions) (w : World) (raw : string) (storedData : jsvalue) :
  nullish storedData = false ->
  (get_prop storedData "expiresAt" = VUndef \/ get_prop storedData "expiresAt" = VNum 0 ->
   isExpired storedData w = (Ok false, w)) /\
  (forall expiresAt, get_prop storedData "expiresAt" = VNum expiresAt -> expiresAt <> 0 ->
     isExpired storedData w = (Ok (clock w >? expiresAt), w)) /\
  (getItem (storage w) (opt_key o) = Some raw -> raw <> "" ->
   deserialize (opt_serializer o) raw = Ok storedData ->
   isExpired storedData w = (Ok true, w) ->
   get o w = (Ok (default_or_null o), with_storage (removeItem (storage w) (opt_key o)) w) /\
   getItem (removeItem (storage w) (opt_key o)) (opt_key o) = None).
Proof.
  intros Hobj. split; [|split].
  - intros H. unfold isExpired, mbind, M_bind, lift. rewrite (Get_object _ _ Hobj).
    now destruct H as [-> | ->].
  - intros e He Hz. unfold isExpired, mbind, M_bind, lift. rewrite (Get_object _ _ Hobj), He.
    simpl. destruct (Z.eqb_spec e 0); [contradiction|]. reflexivity.
  - intros Hraw Hne Hde Hex. split; [now apply (get_expired o w raw storedData)|].
    unfold getItem, removeItem. simpl. apply lookup_delete_eq.
Qed.

Lemma expiration_policy_witness :
  let o := basic_options "k" number_schema in
  let text := JSON_print (JObj [("value", JNum 5); ("expiresAt", JNum 2000)]) in
  let storedData := VObj [("value", VNum 5); ("expiresAt", VNum 2000)] in
  let w := world_of {[ "k" := text ]} [] 2001 in
  nullish storedData = false /\
  isExpired storedData w = (Ok (clock w >? 2000), w) /\
  get o w = (Ok (default_or_null o), with_storage (removeItem (storage w) (opt_key o)) w) /\
  getItem (removeItem (storage w) (opt_key o)) (opt_key o) = None.
Proof.
  intros o text storedData w.
  destruct (expiration_policy o w text storedData eq_refl) as (_ & H2 & H3).
  split; [reflexivity|]. split.
  - apply H2; [reflexivity|discriminate].
  - apply H3; [reflexivity|discriminate|reflexivity|reflexivity].
Defined.

(** Against C5 as worded, at expiresAt = 0: at time 1 the record is past its
    expiresAt and still is not expired; get returns its value and keeps it. *)
Lemma expiresAt_zero_never_expires :
  let o := basic_options "k" number_schema in
  let text := JSON_print (JObj [("value", JNum 5); ("expiresAt", JNum 0)]) in
  let w := world_of {[ "k" := text ]} [] 1 in
  clock w > 0 /\
  isExpired (VObj [("value", VNum 5); ("expiresAt", VNum 0)]) w = (Ok false, w) /\
  get o w = (Ok (VNum 5), w) /\
  getItem (storage (snd (get o w))) "k" = Some text.
Proof. vm_compute. repeat split; reflexivity. Qed.

(** ** Unreadable text *)

Lemma report_quiet (o : StoreOptions) (e : exn) (w : World) :
  quiet_handler o ->
  exists evs, report o e w = (Ok tt, with_log (log w ++ evs) w) /\
              reports evs = match opt_onValidationError o with
                            | Some _ => [(e, opt_key o)]
                            | None => []
                            end /\
              notifications evs = [] /\ migrate_calls evs = O.
Proof.
  intros Hq. unfold report. destruct (opt_onValidationError o) as [h|] eqn:Hh.
  - exists [ErrorReported e (opt_key o)]. unfold mbind, M_bind, record, lift.
    rewrite (Hq h e Hh). auto.
  - exists []. simpl. now rewrite app_nil_r, with_log_same.
Qed.

(** What get's catch block does with an exception of the try block. *)
Lemma get_catches (o : StoreOptions) (w w1 : World) (e : exn) :
  quiet_handler o ->
  get_try o w = (Throw e, w1) ->
  exists evs,
    get o w = (Ok (default_or_null o), with_log (log w1 ++ evs) w1) /\
    reports evs = match opt_onValidationError o with
                  | Some _ => [(e, opt_key o)]
                  | None => []
                  end /\
    notifications evs = [] /\ migrate_calls evs = O.
Proof.
  intros Hq Ht. unfold get, try_catch. rewrite Ht.
  unfold mbind, M_bind, record.
  destruct (report_quiet o e
              (with_log (log w1 ++ [ConsoleError ("SafeStorage: Failed to get value for key "
                                                  +:+ quoted (opt_key o)) e]) w1) Hq)
    as (evs & -> & R & N & G).
  eexists (_ :: evs). simpl. rewrite <- app_assoc. simpl. split; [reflexivity|]. auto.
Qed.

(** C1, as the code has it. When the text under the key does not
    deserialize, and the error callback (if any) returns normally, get reports
    the failure and returns the default (or null); the storage is left as it
    was, so the text is still there. *)
Theorem unreadable_text_returns_default
    (o : StoreOptions) (w : World) (raw : string) (e : exn) :
  getItem (storage w) (opt_key o) = Some raw -> raw <> "" ->
  deserialize (opt_serializer o) raw = Throw e ->
  quiet_handler o ->
  exists evs,
    get o w = (Ok (default_or_null o), with_log (log w ++ evs) w) /\
    reports evs = match opt_onValidationError o with
                  | Some _ => [(e, opt_key o)]
                  | None => []
                  end /\
    getItem (storage (snd (get o w))) (opt_key o) = Some raw.
Proof.
  intros Hraw Hne Hde Hq.
  assert (Ht : get_try o w = (Throw e, w)).
  { unfold get_try, mbind, M_bind, storage_getItem, lift. rewrite Hraw. simpl.
    destruct (String.eqb_spec raw ""); [contradiction|]. now rewrite Hde. }
  destruct (get_catches o w w e Hq Ht) as (evs & Hg & R & _).
  exists evs. rewrite Hg. auto.
Qed.

Lemma quiet_without_handler (o : StoreOptions) :
  opt_onValidationError o = None -> quiet_handler o.
Proof. intros H h e Hh. congruence. Qed.

Definition corrupted_store : StoreOptions :=
  {| opt_key := "test"; opt_schema := string_schema; opt_version := None;
     opt_migrate := None; opt_ttl := None; opt_defaultValue := VStr "Fallback";
     opt_onValidationError := None; opt_serializer := defaultSerializer;
     opt_debounce := None; opt_throttle := None |}.

Definition corrupted_world : World := world_of {[ "test" := "invalid-json" ]} [] 1000.

Lemma unreadable_text_returns_default_witness :
  getItem (storage corrupted_world) (opt_key corrupted_store) = Some "invalid-json" /\
  deserialize (opt_serializer corrupted_store) "invalid-json"
  = Throw (Error "Failed to deserialize data") /\
  exists evs,
    get corrupted_store corrupted_world
    = (Ok (default_or_null corrupted_store), with_log (log corrupted_world ++ evs) corrupted_world) /\
    reports evs = [] /\
    getItem (storage (snd (get corrupted_store corrupted_world))) (opt_key corrupted_store)
    = Some "invalid-json".
Proof.
  split; [reflexivity|]. split; [reflexivity|].
  apply (unreadable_text_returns_default corrupted_store corrupted_world "invalid-json"
           (Error "Failed to deserialize data"));
    [reflexivity|discriminate|reflexivity|now apply quiet_without_handler].
Defined.

(** Against C1 as worded: after get the unreadable text is still under the
    key. *)
Lemma unreadable_text_is_kept :
  deserialize (opt_serializer corrupted_store) "invalid-json"
  = Throw (Error "Failed to deserialize data") /\
  fst (get corrupted_store corrupted_world) = Ok (VStr "Fallback") /\
  getItem (storage (snd (get corrupted_store corrupted_world))) "test" = Some "invalid-json".
Proof. vm_compute. repeat split; reflexivity. Qed.

(** ** get does not throw *)





(** ** Changes made in another tab *)

Lemma isExpired_pure (storedData : jsvalue) (w : World) :
  exists r, isExpired storedData w = (r, w).
Proof.
  unfold isExpired, mbind, M_bind, lift, Date_now.
  destruct (Get storedData "expiresAt") as [x|e]; [|eauto].
  destruct (negb (truthy x)); eauto.
Qed.

Definition all_notified (w : World) (v : jsvalue) : list (nat * jsvalue) :=
  map (fun cb => (cb_id cb, v)) (updateCallbacks w).

(** What handleStorageEvent delivers for an event on the store's key. *)
Definition delivered (o : StoreOptions) (w : World) (newValue : option string)
  : list (nat * jsvalue) :=
  match newValue with
  | None => all_notified w VNull
  | Some raw =>
      match deserialize (opt_serializer o) raw with
      | Throw _ => []
      | Ok storedData =>
          match isExpired storedData w with
          | (Ok true, _) => all_notified w VNull
          | (Ok false, _) =>
              match migrateData o storedData w with
              | (Ok migrated, w1) =>
                  if is_null migrated then []
                  else match validate o migrated w1 with
                       | (Ok validated, _) =>
                           if is_null validated then [] else all_notified w validated
                       | (Throw _, _) => []
                       end
              | (Throw _, _) => []
              end
          | (Throw _, _) => []
          end
      end
  end.

Lemma bind_ok {A B} (m : M A) (f : A -> M B) (w w1 : World) (a : A) :
  m w = (Ok a, w1) -> (m ≫= f) w = f a w1.
Proof. intros H. unfold mbind, M_bind. now rewrite H. Qed.

Lemma bind_throw {A B} (m : M A) (f : A -> M B) (w w1 : World) (e : exn) :
  m w = (Throw e, w1) -> (m ≫= f) w = (Throw e, w1).
Proof. intros H. unfold mbind, M_bind. now rewrite H. Qed.

Lemma handleStorageEvent_try_run (o : StoreOptions) (w : World) (raw : string) :
  exists r evs,
    handleStorageEvent_try o raw w = (r, with_log (log w ++ evs) w) /\
    notifications evs = delivered o w (Some raw).
Proof.
  unfold handleStorageEvent_try, delivered.
  destruct (deserialize (opt_serializer o) raw) as [sd|e].
  2:{ exists (Throw e), []. rewrite app_nil_r, with_log_same. split; reflexivity. }
  rewrite (bind_ok _ _ w w sd) by reflexivity.
  destruct (isExpired_pure sd w) as [r Hex]. rewrite Hex.
  destruct r as [[|]|e].
  - rewrite (bind_ok _ _ w w true Hex).
    destruct (notifyCallbacks_run VNull w) as (evs & H & N & _). eauto.
  - rewrite (bind_ok _ _ w w false Hex).
    destruct (only_logs_migrateData o sd w) as (e1 & Hw1 & P1).
    destruct (migrateData o sd w) as [[mv|e] w1] eqn:Hm; simpl in Hw1; subst w1.
    + rewrite (bind_ok _ _ _ _ _ Hm).
      destruct (is_null mv); cbn [negb].
      * exists (Ok tt), e1. split; [reflexivity|now apply notifications_none].
      * destruct (only_logs_validate o mv (with_log (log w ++ e1) w)) as (e2 & Hw2 & P2).
        destruct (validate o mv (with_log (log w ++ e1) w)) as [[v|e] w2] eqn:Hv;
          simpl in Hw2; subst w2.
        -- rewrite (bind_ok _ _ _ _ _ Hv).
           destruct (is_null v); cbn [negb].
           ++ exists (Ok tt), (e1 ++ e2). rewrite app_assoc. split; [reflexivity|].
              rewrite notifications_app, notifications_none, notifications_reports by assumption.
              reflexivity.
           ++ destruct (notifyCallbacks_run v
                          (with_log ((log w ++ e1) ++ e2) (with_log (log w ++ e1) w)))
                as (e3 & -> & N & _).
              exists (Ok tt), (e1 ++ e2 ++ e3). simpl. rewrite !app_assoc. split; [reflexivity|].
              rewrite !notifications_app, notifications_none, notifications_reports by assumption.
              simpl. exact N.
        -- rewrite (bind_throw _ _ _ _ _ Hv).
           exists (Throw e), (e1 ++ e2). simpl. rewrite !app_assoc. split; [reflexivity|].
           rewrite !notifications_app, notifications_none, notifications_reports by assumption.
           reflexivity.
    + rewrite (bind_throw _ _ _ _ _ Hm).
      exists (Throw e), e1. split; [reflexivity|now apply notifications_none].
  - rewrite (bind_throw _ _ w w e Hex).
    exists (Throw e), []. rewrite app_nil_r, with_log_same. split; reflexivity.
Qed.

Lemma handleStorageEvent_run (o : StoreOptions) (w : World) (event : StorageEvent) :
  ev_key event = Some (opt_key o) ->
  exists evs,
    handleStorageEvent o event w = (Ok tt, with_log (log w ++ evs) w) /\
    notifications evs = delivered o w (ev_newValue event).
Proof.
  intros Hk. unfold handleStorageEvent.
  rewrite bool_decide_eq_true_2 by exact Hk. cbn [negb].
  destruct (ev_newValue event) as [raw|].
  2:{ destruct (notifyCallbacks_run VNull w) as (evs & H & N & _). eauto. }
  destruct (handleStorageEvent_try_run o w raw) as (r & evs & H & N).
  unfold try_catch. rewrite H. destruct r as [[]|e].
  - eauto.
  - unfold record. simpl. eexists (evs ++ [_]). rewrite app_assoc. split; [reflexivity|].
    rewrite notifications_app, N. simpl. now rewrite app_nil_r.
Qed.

(** C8, as the code has it. An event for another key notifies nobody; an
    event that clears the key notifies every subscriber with null; so does
    an event whose record is expired; otherwise every subscriber is notified
    with the value exactly when deserialization, migration and validation
    all give one, and nobody is notified when one of them fails. The handler
    never throws and leaves the storage as it was. *)
Theorem storage_event_delivery (o : StoreOptions) (w : World) (event : StorageEvent) :
  (ev_key event <> Some (opt_key o) -> handleStorageEvent o event w = (Ok tt, w)) /\
  (ev_key event = Some (opt_key o) ->
   exists evs,
     handleStorageEvent o event w = (Ok tt, with_log (log w ++ evs) w) /\
     (ev_newValue event = None -> notifications evs = all_notified w VNull) /\
     (forall raw, ev_newValue event = Some raw ->
        (forall e, deserialize (opt_serializer o) raw = Throw e -> notifications evs = []) /\
        (forall storedData, deserialize (opt_serializer o) raw = Ok storedData ->
           (forall e, isExpired storedData w = (Throw e, w) -> notifications evs = []) /\
           (isExpired storedData w = (Ok true, w) -> notifications evs = all_notified w VNull) /\
           (isExpired storedData w = (Ok false, w) ->
              (forall e w1, migrateData o storedData w = (Throw e, w1) -> notifications evs = []) /\
              (forall w1, migrateData o storedData w = (Ok VNull, w1) -> notifications evs = []) /\
              (forall migrated w1,
                 migrateData o storedData w = (Ok migrated, w1) -> is_null migrated = false ->
                 (forall e w2, validate o migrated w1 = (Throw e, w2) -> notifications evs = []) /\
                 (forall w2, validate o migrated w1 = (Ok VNull, w2) -> notifications evs = []) /\
                 (forall validated w2,
                    validate o migrated w1 = (Ok validated, w2) -> is_null validated = false ->
                    notifications evs = all_notified w validated)))))).
Proof.
  split.
  - intros Hk. unfold handleStorageEvent. now rewrite bool_decide_eq_false_2.
  - intros Hk. destruct (handleStorageEvent_run o w event Hk) as (evs & H & N).
    exists evs. split; [exact H|]. unfold delivered in N. split.
    + intros Hn. now rewrite Hn in N.
    + intros raw Hraw. rewrite Hraw in N. split.
      * intros e He. now rewrite He in N.
      * intros sd Hsd. rewrite Hsd in N. split; [|split].
        -- intros e He. now rewrite He in N.
        -- intros He. now rewrite He in N.
        -- intros He. rewrite He in N. split; [|split].
           ++ intros e w1 Hm. now rewrite Hm in N.
           ++ intros w1 Hm. now rewrite Hm in N.
           ++ intros mv w1 Hm Hmv. rewrite Hm, Hmv in N. split; [|split].
              ** intros e w2 Hv. now rewrite Hv in N.
              ** intros w2 Hv. now rewrite Hv in N.
              ** intros v w2 Hv Hnv. now rewrite Hv, Hnv in N.
Qed.

Definition event_on_k (text : option string) : StorageEvent :=
  {| ev_key := Some "k"; ev_newValue := text |}.

Lemma storage_event_delivery_witness :
  let o := basic_options "k" string_schema in
  let text := JSON_print (JObj [("value", JStr "v"); ("timestamp", JNum 900)]) in
  ev_key (event_on_k (Some text)) = Some (opt_key o) /\
  exists evs,
    handleStorageEvent o (event_on_k (Some text)) subscribed_world
    = (Ok tt, with_log (log subscribed_world ++ evs) subscribed_world) /\
    notifications evs = [(1%nat, VStr "v"); (2%nat, VStr "v")].
Proof.
  intros o text. split; [reflexivity|].
  destruct (storage_event_delivery o subscribed_world (event_on_k (Some text))) as [_ H].
  destruct (H eq_refl) as (evs & Hrun & _ & Hsome).
  exists evs. split; [exact Hrun|].
  destruct (Hsome text eq_refl) as [_ Hsd].
  destruct (Hsd (VObj [("value", VStr "v"); ("timestamp", VNum 900)]) eq_refl)
    as (_ & _ & Hfresh).
  destruct (Hfresh eq_refl) as (_ & _ & Hmig).
  destruct (Hmig (VStr "v") subscribed_world eq_refl eq_refl) as (_ & _ & Hval).
  exact (Hval (VStr "v") subscribed_world eq_refl eq_refl).
Defined.

(** Against C8 as worded: for an event whose record is expired the expiration
    check does not pass, and still every subscriber is called, with null. *)
Lemma expired_event_notifies_null :
  let o := basic_options "k" string_schema in
  let text := JSON_print (JObj [("value", JStr "v"); ("expiresAt", JNum 900)]) in
  fst (isExpired (VObj [("value", VStr "v"); ("expiresAt", VNum 900)]) subscribed_world)
  = Ok true /\
  notifications (log (snd (handleStorageEvent o (event_on_k (Some text)) subscribed_world)))
  = [(1%nat, VNull); (2%nat, VNull)].
Proof. vm_compute. split; reflexivity. Qed.

(** ** Migration *)

(** [m] adds no call of migrate to the log. *)
Definition keeps_migrations {A} (m : M A) : Prop :=
  forall w, migrations (log (snd (m w))) = migrations (log w).

Definition not_migrate (e : event) : Prop :=
  match e with MigrateCalled _ => False | _ => True end.

Lemma migrations_none (evs : list event) : Forall not_migrate evs -> migrations evs = [].
Proof. induction 1 as [|e evs He _ IH]; [reflexivity|]. now destruct e. Qed.

Section KeepsMigrations.
Context {A B : Type}.

Lemma keeps_ret (a : A) : keeps_migrations (mret a : M A).
Proof. now intros w. Qed.

Lemma keeps_lift (r : result A) : keeps_migrations (lift r).
Proof. now intros w. Qed.

Lemma keeps_throw (e : exn) : keeps_migrations (throw e : M A).
Proof. now intros w. Qed.

Lemma keeps_bind (m : M A) (f : A -> M B) :
  keeps_migrations m -> (forall a, keeps_migrations (f a)) -> keeps_migrations (m ≫= f).
Proof.
  intros Hm Hf w. unfold mbind, M_bind. specialize (Hm w).
  destruct (m w) as [[a|e] w1]; simpl in *; [|exact Hm]. now rewrite Hf.
Qed.

Lemma keeps_try_catch (m : M A) (h : exn -> M A) :
  keeps_migrations m -> (forall e, keeps_migrations (h e)) -> keeps_migrations (try_catch m h).
Proof.
  intros Hm Hh w. unfold try_catch. specialize (Hm w).
  destruct (m w) as [[a|e] w1]; simpl in *; [exact Hm|]. now rewrite Hh.
Qed.

Lemma keeps_only_logs (P : event -> Prop) (m : M A) :
  (forall e, P e -> not_migrate e) -> only_logs P m -> keeps_migrations m.
Proof.
  intros HP Hm w. destruct (Hm w) as (evs & -> & Hevs). simpl.
  rewrite migrations_app, (migrations_none evs), app_nil_r; [reflexivity|].
  eapply Forall_impl; eauto.
Qed.

End KeepsMigrations.

Lemma keeps_record (e : event) : not_migrate e -> keeps_migrations (record e).
Proof.
  intros He w. simpl. rewrite migrations_app. destruct e; try (simpl; now rewrite app_nil_r).
  destruct He.
Qed.

Lemma keeps_report o e : keeps_migrations (report o e).
Proof. apply (keeps_only_logs is_report); [now intros []|apply only_logs_report]. Qed.

Lemma keeps_validate o data : keeps_migrations (validate o data).
Proof. apply (keeps_only_logs is_report); [now intros []|apply only_logs_validate]. Qed.

Lemma keeps_notifyCallbacks v : keeps_migrations (notifyCallbacks v).
Proof.
  intros w. destruct (notifyCallbacks_run v w) as (evs & -> & _ & G & _). simpl.
  rewrite migrations_app. unfold migrate_calls in G.
  apply length_zero_iff_nil in G. now rewrite G, app_nil_r.
Qed.

Lemma keeps_setInternal o data : keeps_migrations (_setInternal o data).
Proof.
  unfold _setInternal. apply keeps_try_catch.
  - apply keeps_bind; [apply keeps_validate|]. intros v.
    apply keeps_bind; [destruct (is_null v); [apply keeps_throw|apply keeps_ret]|]. intros _.
    apply keeps_bind; [now intros w|]. intros ts.
    apply keeps_bind.
    { destruct (has_ttl o); [|apply keeps_ret].
      apply keeps_bind; [now intros w|intros; apply keeps_ret]. }
    intros sd. apply keeps_bind; [apply keeps_lift|]. intros text.
    apply keeps_bind; [|intros; apply keeps_notifyCallbacks].
    intros w. unfold storage_setItem. now destruct (setItem _ _ _).
  - intros e. apply keeps_bind; [now apply keeps_record|intros; apply keeps_throw].
Qed.

Lemma keeps_set o data : keeps_migrations (set o data).
Proof.
  unfold set. destruct (truthy_ms (opt_debounce o)); [|destruct (truthy_ms (opt_throttle o))].
  - unfold debounce. apply keeps_bind; [now intros w|]. intros t. now intros w.
  - unfold throttle. apply keeps_bind; [now intros w|]. intros t.
    destruct (isThrottled t); [now intros w|].
    apply keeps_bind; [apply keeps_setInternal|]. intros _.
    apply keeps_bind; [now intros w|]. intros t'. now intros w.
  - apply keeps_setInternal.
Qed.

Lemma isExpired_object (storedData : jsvalue) (w w' : World) (b : bool) :
  isExpired storedData w = (Ok b, w') -> nullish storedData = false.
Proof.
  unfold isExpired, mbind, M_bind, lift, Get.
  destruct (nullish storedData); [discriminate|reflexivity].
Qed.

(** Whether migrateData calls migrate, for target version [target] and a
    stored version that is a number or absent. *)
Definition migrates (target : Z) (stored : option Z) : bool :=
  negb (target =? 0) &&
  match stored with
  | None => true
  | Some v => (v =? 0) || (v <? target)
  end.

Lemma migrateData_gate (o : StoreOptions) (w : World) (storedData : jsvalue)
    (target : Z) (f : MigrationFunction) (stored : option Z) :
  opt_version o = Some target -> opt_migrate o = Some f ->
  nullish storedData = false ->
  get_prop storedData "version" = number_or_undefined stored ->
  exists r evs,
    migrateData o storedData w = (r, with_log (log w ++ evs) w) /\
    migrations evs = (if migrates target stored then [get_prop storedData "value"] else []) /\
    (migrates target stored = false -> r = Ok (get_prop storedData "value")) /\
    (forall v, migrates target stored = true ->
               f (get_prop storedData "value") = Ok v -> r = Ok v).
Proof.
  intros Hver Hmig Hobj Hsv.
  unfold migrateData, no_version. rewrite Hmig, Hver. cbn [default from_option id].
  unfold migrates. destruct (Z.eqb_spec target 0) as [->|Hz].
  { simpl. exists (Ok (get_prop storedData "value")), [].
    rewrite app_nil_r, with_log_same. unfold lift. rewrite (Get_object _ _ Hobj).
    repeat split; auto; discriminate. }
  simpl negb. cbn [andb].
  rewrite (bind_ok _ _ w w (get_prop storedData "version"))
    by (unfold lift; now rewrite (Get_object _ _ Hobj)).
  rewrite Hsv.
  assert (Hrun : exists r evs,
    try_catch
      (value ← lift (Get storedData "value");
       record (MigrateCalled value);; lift (f value))
      (fun error =>
         record (ConsoleError ("SafeStorage: Migration failed for key "
                               +:+ quoted (opt_key o)) error);;
         report o error;; mret VNull) w
    = (r, with_log (log w ++ evs) w) /\
    migrations evs = [get_prop storedData "value"] /\
    (forall v, f (get_prop storedData "value") = Ok v -> r = Ok v)).
  { unfold try_catch.
    rewrite (bind_ok _ _ w w (get_prop storedData "value"))
      by (unfold lift; now rewrite (Get_object _ _ Hobj)).
    unfold mbind at 1, M_bind at 1, record at 1, lift at 1.
    destruct (f (get_prop storedData "value")) as [v|e].
    - exists (Ok v), [MigrateCalled (get_prop storedData "value")].
      repeat split; auto.
    - unfold mbind at 1, M_bind at 1, record at 1.
      destruct (report_run o e
                  (with_log (log (with_log (log w ++ [MigrateCalled (get_prop storedData "value")]) w)
                             ++ [ConsoleError ("SafeStorage: Migration failed for key "
                                               +:+ quoted (opt_key o)) e])
                     (with_log (log w ++ [MigrateCalled (get_prop storedData "value")]) w)))
        as (r & evs & Hr & HP & _).
      unfold mbind, M_bind. rewrite Hr. simpl.
      exists (match r with Ok _ => Ok VNull | Throw x => Throw x end),
        ([MigrateCalled (get_prop storedData "value")]
         ++ [ConsoleError ("SafeStorage: Migration failed for key " +:+ quoted (opt_key o)) e]
         ++ evs).
      rewrite <- !app_assoc. split; [now destruct r as [[]|]|]. split; [|discriminate].
      rewrite !migrations_app. simpl.
      rewrite (migrations_none evs); [reflexivity|].
      eapply Forall_impl; [exact HP|]. now intros []. }
  unfold gt_number.
  destruct stored as [sv|]; cbn [number_or_undefined strict_eq_number truthy ToNumber].
  - destruct (Z.eqb_spec sv target) as [->|Hne].
    + destruct (Z.eqb_spec target 0); [contradiction|]. rewrite Z.ltb_irrefl. simpl.
      exists (Ok (get_prop storedData "value")), [].
      rewrite app_nil_r, with_log_same. unfold lift. rewrite (Get_object _ _ Hobj).
      repeat split; auto; discriminate.
    + destruct (Z.eqb_spec sv 0) as [->|Hsz]; simpl.
      * destruct Hrun as (r & evs & H1 & H2 & H3). exists r, evs. repeat split; auto. discriminate.
      * destruct (Z.gtb_spec sv target) as [Hgt|Hle].
        -- destruct (Z.ltb_spec sv target); [lia|].
           eexists (Ok (get_prop storedData "value")), [_].
           unfold mbind, M_bind, record, lift. rewrite (Get_object _ _ Hobj). simpl.
           repeat split; auto; discriminate.
        -- destruct (Z.ltb_spec sv target); [|lia].
           destruct Hrun as (r & evs & H1 & H2 & H3). exists r, evs. repeat split; auto.
           discriminate.
  - simpl. destruct Hrun as (r & evs & H1 & H2 & H3). exists r, evs. repeat split; auto.
    discriminate.
Qed.

Lemma keeps_after_migration (o : StoreOptions) (storedData value : jsvalue) :
  keeps_migrations
    (if is_null value then mret (default_or_null o)
     else
       value ← validate o value;
       if is_null value then (storage_removeItem (opt_key o);; mret (default_or_null o))
       else
         (if negb (no_version o)
             && negb (strict_eq_number (get_prop storedData "version")
                        (default 0 (opt_version o)))
          then set o value else mret tt);;
         mret value).
Proof.
  destruct (is_null value); [apply keeps_ret|].
  apply keeps_bind; [apply keeps_validate|]. intros v.
  destruct (is_null v).
  - apply keeps_bind; [now intros w|intros; apply keeps_ret].
  - apply keeps_bind; [|intros; apply keeps_ret].
    destruct (_ && _); [apply keeps_set|apply keeps_ret].
Qed.

(** Whether get writes the value again once it is validated: line 144,
    [version && storedData.version !== version]. *)
Definition rewrites (target : Z) (stored : option Z) : bool :=
  negb (target =? 0) &&
  match stored with
  | Some v => negb (v =? target)
  | None => true
  end.

(** The console.warn of migrateData for a record newer than the store. *)
Definition newer_warning (o : StoreOptions) (target : Z) (stored : option Z) : list event :=
  match stored with
  | Some v =>
      if negb (target =? 0) && negb (v =? 0) && (target <? v)
      then [ConsoleWarn ("SafeStorage: Stored data version (" +:+ element_text (VNum v)
                         +:+ ") is newer than current version (" +:+ print_Z target
                         +:+ ") for key " +:+ quoted (opt_key o))]
      else []
  | None => []
  end.

Lemma migrates_rewrites (target : Z) (stored : option Z) :
  migrates target stored = true -> rewrites target stored = true.
Proof.
  unfold migrates, rewrites. destruct (Z.eqb_spec target 0); [discriminate|]. simpl.
  destruct stored as [v|]; [|reflexivity].
  destruct (Z.eqb_spec v 0), (Z.ltb_spec v target), (Z.eqb_spec v target);
    simpl; try reflexivity; try discriminate; lia.
Qed.

Lemma migrateData_skips (o : StoreOptions) (w : World) (storedData : jsvalue)
    (target : Z) (f : MigrationFunction) (stored : option Z) :
  opt_version o = Some target -> opt_migrate o = Some f ->
  nullish storedData = false ->
  get_prop storedData "version" = number_or_undefined stored ->
  migrates target stored = false ->
  migrateData o storedData w
  = (Ok (get_prop storedData "value"), with_log (log w ++ newer_warning o target stored) w).
Proof.
  intros Hver Hmig Hobj Hsv.
  unfold migrateData, no_version, newer_warning. rewrite Hmig, Hver. cbn [default from_option id].
  unfold migrates. destruct (Z.eqb_spec target 0) as [->|Hz].
  { intros _. simpl. unfold lift. rewrite (Get_object _ _ Hobj).
    destruct stored; now rewrite app_nil_r, with_log_same. }
  simpl negb. cbn [andb].
  rewrite (bind_ok _ _ w w (get_prop storedData "version"))
    by (unfold lift; now rewrite (Get_object _ _ Hobj)).
  rewrite Hsv. unfold gt_number.
  destruct stored as [sv|]; cbn [number_or_undefined strict_eq_number truthy ToNumber];
    [|discriminate].
  destruct (Z.eqb_spec sv target) as [->|Hne].
  - intros _. destruct (Z.eqb_spec target 0); [contradiction|]. rewrite Z.ltb_irrefl. simpl.
    unfold lift. rewrite (Get_object _ _ Hobj). now rewrite app_nil_r, with_log_same.
  - destruct (Z.eqb_spec sv 0) as [->|Hsz]; [discriminate|]. simpl.
    destruct (Z.ltb_spec sv target); [discriminate|]. intros _.
    destruct (Z.gtb_spec sv target); [|lia].
    destruct (Z.ltb_spec target sv); [|lia].
    unfold mbind, M_bind, record, lift. now rewrite (Get_object _ _ Hobj).
Qed.

Lemma migrateData_calls (o : StoreOptions) (w : World) (storedData v : jsvalue)
    (target : Z) (f : MigrationFunction) (stored : option Z) :
  opt_version o = Some target -> opt_migrate o = Some f ->
  nullish storedData = false ->
  get_prop storedData "version" = number_or_undefined stored ->
  migrates target stored = true ->
  f (get_prop storedData "value") = Ok v ->
  migrateData o storedData w
  = (Ok v, with_log (log w ++ [MigrateCalled (get_prop storedData "value")]) w).
Proof.
  intros Hver Hmig Hobj Hsv Hm Hf.
  unfold migrateData, no_version. rewrite Hmig, Hver. cbn [default from_option id].
  unfold migrates in Hm. destruct (Z.eqb_spec target 0) as [->|Hz]; [discriminate|].
  simpl in Hm. simpl negb. cbn [andb].
  rewrite (bind_ok _ _ w w (get_prop storedData "version"))
    by (unfold lift; now rewrite (Get_object _ _ Hobj)).
  rewrite Hsv.
  assert (Hrun :
    try_catch
      (value ← lift (Get storedData "value");
       record (MigrateCalled value);; lift (f value))
      (fun error =>
         record (ConsoleError ("SafeStorage: Migration failed for key "
                               +:+ quoted (opt_key o)) error);;
         report o error;; mret VNull) w
    = (Ok v, with_log (log w ++ [MigrateCalled (get_prop storedData "value")]) w)).
  { unfold try_catch.
    rewrite (bind_ok _ _ w w (get_prop storedData "value"))
      by (unfold lift; now rewrite (Get_object _ _ Hobj)).
    unfold mbind, M_bind, record, lift. now rewrite Hf. }
  unfold gt_number.
  destruct stored as [sv|]; cbn [number_or_undefined strict_eq_number truthy ToNumber];
    [|exact Hrun].
  destruct (Z.eqb_spec sv target) as [->|Hne].
  - destruct (Z.eqb_spec target 0); [contradiction|]. rewrite Z.ltb_irrefl in Hm. discriminate.
  - destruct (Z.eqb_spec sv 0) as [->|Hsz]; [exact Hrun|]. simpl in *.
    destruct (Z.ltb_spec sv target); [|discriminate].
    destruct (Z.gtb_spec sv target); [lia|]. exact Hrun.
Qed.

(** get from the point where migrateData has given [value] for the record
    [storedData], when the schema accepts it. *)
Lemma get_after_migration (o : StoreOptions) (w w1 : World) (raw : string)
    (storedData value : jsvalue) (target : Z) (stored : option Z) :
  opt_version o = Some target ->
  getItem (storage w) (opt_key o) = Some raw -> raw <> "" ->
  deserialize (opt_serializer o) raw = Ok storedData ->
  isExpired storedData w = (Ok false, w) ->
  get_prop storedData "version" = number_or_undefined stored ->
  migrateData o storedData w = (Ok value, w1) ->
  (is_null value = true -> get o w = (Ok (default_or_null o), w1)) /\
  (forall validated,
     is_null value = false ->
     schema_verdict (opt_schema o) value = Accepted validated ->
     is_null validated = false ->
     (rewrites target stored = false -> get o w = (Ok validated, w1)) /\
     (rewrites target stored = true ->
      forall w', set o validated w1 = (Ok tt, w') -> get o w = (Ok validated, w'))).
Proof.
  intros Hver Hraw Hne Hde Hex Hsv Hmig.
  assert (Htry : get_try o w
                 = (if is_null value then mret (default_or_null o)
                    else
                      value ← validate o value;
                      if is_null value
                      then (storage_removeItem (opt_key o);; mret (default_or_null o))
                      else
                        (if negb (no_version o)
                            && negb (strict_eq_number (get_prop storedData "version")
                                       (default 0 (opt_version o)))
                         then set o value else mret tt);;
                        mret value) w1).
  { unfold get_try.
    rewrite (bind_ok _ _ w w (Some raw)) by (unfold storage_getItem; now rewrite Hraw).
    cbn [no_raw default from_option id].
    destruct (String.eqb_spec raw ""); [contradiction|].
    rewrite (bind_ok _ _ w w storedData) by (unfold lift; now rewrite Hde).
    rewrite (bind_ok _ _ w w false Hex).
    now rewrite (bind_ok _ _ w w1 value Hmig). }
  assert (Hcond : negb (no_version o)
                  && negb (strict_eq_number (get_prop storedData "version")
                             (default 0 (opt_version o)))
                  = rewrites target stored).
  { unfold no_version, rewrites. rewrite Hver, Hsv. cbn [default from_option id].
    now destruct stored. }
  split.
  - intros Hn. unfold get, try_catch. rewrite Htry, Hn. reflexivity.
  - intros validated Hn Hv Hnv. rewrite Hn, Hcond in Htry.
    rewrite (bind_ok _ _ w1 w1 validated (validate_accepted o value validated w1 Hv)) in Htry.
    rewrite Hnv in Htry. split.
    + intros Hr. rewrite Hr in Htry. unfold get, try_catch. now rewrite Htry.
    + intros Hr w' Hset. rewrite Hr in Htry.
      rewrite (bind_ok _ _ w1 w' tt Hset) in Htry. unfold get, try_catch. now rewrite Htry.
Qed.

Lemma no_warning_without_rewrite (o : StoreOptions) (target : Z) (stored : option Z) :
  rewrites target stored = false -> newer_warning o target stored = [].
Proof.
  unfold rewrites, newer_warning. destruct (Z.eqb_spec target 0); simpl.
  - now destruct stored.
  - destruct stored as [v|]; [|discriminate]. destruct (Z.eqb_spec v target); [|discriminate].
    subst. now rewrite Z.ltb_irrefl, andb_false_r.
Qed.

(** C2, as the code has it. For a store with a target version and a
    migration function, on a record that is read and not expired, whose
    version is a number or absent: get calls the migration function, once and
    with the stored value, exactly when the target version is not 0 and the
    stored version is absent, 0, or strictly less than the target.
    When it is not called, get goes on with the stored value: null gives the
    default, and a value that the schema accepts is what get returns, after
    it has been set again if the stored version is not the target (a newer
    version has been warned about).  When it is called and returns, get goes
    on with what it returned: null gives the default, and a value that the
    schema accepts is set and, if that set returns, returned. *)
Theorem migration_gate (o : StoreOptions) (w : World) (raw : string) (storedData : jsvalue)
    (target : Z) (f : MigrationFunction) (stored : option Z) :
  opt_version o = Some target -> opt_migrate o = Some f ->
  getItem (storage w) (opt_key o) = Some raw -> raw <> "" ->
  deserialize (opt_serializer o) raw = Ok storedData ->
  isExpired storedData w = (Ok false, w) ->
  get_prop storedData "version" = number_or_undefined stored ->
  migrations (log (snd (get o w)))
  = migrations (log w)
    ++ (if migrates target stored then [get_prop storedData "value"] else []) /\
  (migrates target stored = false ->
   (is_null (get_prop storedData "value") = true ->
    get o w = (Ok (default_or_null o), with_log (log w ++ newer_warning o target stored) w)) /\
   (forall validated,
      is_null (get_prop storedData "value") = false ->
      schema_verdict (opt_schema o) (get_prop storedData "value") = Accepted validated ->
      is_null validated = false ->
      (rewrites target stored = false -> get o w = (Ok validated, w)) /\
      (rewrites target stored = true ->
       forall w',
         set o validated (with_log (log w ++ newer_warning o target stored) w) = (Ok tt, w') ->
         get o w = (Ok validated, w')))) /\
  (forall v,
     migrates target stored = true ->
     f (get_prop storedData "value") = Ok v ->
     (is_null v = true ->
      get o w = (Ok (default_or_null o),
                 with_log (log w ++ [MigrateCalled (get_prop storedData "value")]) w)) /\
     (forall validated,
        is_null v = false ->
        schema_verdict (opt_schema o) v = Accepted validated ->
        is_null validated = false ->
        forall w',
          set o validated (with_log (log w ++ [MigrateCalled (get_prop storedData "value")]) w)
          = (Ok tt, w') ->
          get o w = (Ok validated, w'))).
Proof.
  intros Hver Hmig Hraw Hne Hde Hex Hsv.
  pose proof (isExpired_object _ _ _ _ Hex) as Hobj.
  split; [|split].
  - destruct (migrateData_gate o w storedData target f stored Hver Hmig Hobj Hsv)
      as (r & evs & Hrun & Hm & Hno & Hyes).
    assert (Htry : get_try o w
                   = (migrateData o storedData ≫= fun value =>
                        if is_null value then mret (default_or_null o)
                        else
                          value ← validate o value;
                          if is_null value
                          then (storage_removeItem (opt_key o);; mret (default_or_null o))
                          else
                            (if negb (no_version o)
                                && negb (strict_eq_number (get_prop storedData "version")
                                           (default 0 (opt_version o)))
                             then set o value else mret tt);;
                            mret value) w).
    { unfold get_try.
      rewrite (bind_ok _ _ w w (Some raw)) by (unfold storage_getItem; now rewrite Hraw).
      cbn [no_raw default from_option id].
      destruct (String.eqb_spec raw ""); [contradiction|].
      rewrite (bind_ok _ _ w w storedData) by (unfold lift; now rewrite Hde).
      now rewrite (bind_ok _ _ w w false Hex). }
    assert (Hafter : migrations (log (snd (get_try o w))) = migrations (log w) ++ migrations evs).
    { rewrite Htry. unfold mbind at 1, M_bind at 1. rewrite Hrun.
      destruct r as [v|e]; simpl; [|apply migrations_app].
      rewrite (keeps_after_migration o storedData v). simpl. apply migrations_app. }
    rewrite <- Hm, <- Hafter.
    unfold get, try_catch. destruct (get_try o w) as [[v|e] w1]; [reflexivity|]. simpl.
    assert (Hh : keeps_migrations
                   (record (ConsoleError ("SafeStorage: Failed to get value for key "
                                          +:+ quoted (opt_key o)) e);;
                    report o e;; mret (default_or_null o))).
    { apply keeps_bind; [now apply keeps_record|]. intros _.
      apply keeps_bind; [apply keeps_report|intros; apply keeps_ret]. }
    apply Hh.
  - intros Hm.
    pose proof (migrateData_skips o w storedData target f stored Hver Hmig Hobj Hsv Hm) as Hrun.
    destruct (get_after_migration o w _ raw storedData _ target stored
                Hver Hraw Hne Hde Hex Hsv Hrun) as [Hnull Hval].
    split; [exact Hnull|]. intros validated Hn Hv Hnv.
    destruct (Hval validated Hn Hv Hnv) as [H1 H2]. split; [|exact H2].
    intros Hr. rewrite (H1 Hr), (no_warning_without_rewrite o target stored Hr).
    now rewrite app_nil_r, with_log_same.
  - intros v Hm Hf.
    pose proof (migrateData_calls o w storedData v target f stored Hver Hmig Hobj Hsv Hm Hf)
      as Hrun.
    destruct (get_after_migration o w _ raw storedData _ target stored
                Hver Hraw Hne Hde Hex Hsv Hrun) as [Hnull Hval].
    split; [exact Hnull|]. intros validated Hn Hv Hnv.
    destruct (Hval validated Hn Hv Hnv) as [_ H2]. apply H2. now apply migrates_rewrites.
Qed.

(** A store at version 2 whose migration wraps the old number. *)
Definition counter_schema : SchemaValidator :=
  {| parse := fun v => match get_prop v "count" with
                       | VNum _ => Ok v
                       | _ => Throw (Error "Expected { count: number }")
                       end;
     safeParse := None |}.

Definition versioned_store : StoreOptions :=
  {| opt_key := "k"; opt_schema := counter_schema; opt_version := Some 2;
     opt_migrate := Some (fun old => Ok (VObj [("count", old)]));
     opt_ttl := None; opt_defaultValue := VUndef; opt_onValidationError := None;
     opt_serializer := defaultSerializer; opt_debounce := None; opt_throttle := None |}.

Lemma migration_gate_witness :
  let text := JSON_print (JObj [("value", JNum 5); ("version", JNum 1)]) in
  let storedData := VObj [("value", VNum 5); ("version", VNum 1)] in
  let w := world_of {[ "k" := text ]} [] 1000 in
  let w1 := with_log (log w ++ [MigrateCalled (VNum 5)]) w in
  deserialize (opt_serializer versioned_store) text = Ok storedData /\
  isExpired storedData w = (Ok false, w) /\
  migrates 2 (Some 1) = true /\
  schema_verdict (opt_schema versioned_store) (VObj [("count", VNum 5)])
  = Accepted (VObj [("count", VNum 5)]) /\
  fst (set versioned_store (VObj [("count", VNum 5)]) w1) = Ok tt /\
  migrations (log (snd (get versioned_store w))) = [VNum 5] /\
  get versioned_store w
  = (Ok (VObj [("count", VNum 5)]), snd (set versioned_store (VObj [("count", VNum 5)]) w1)).
Proof.
  intros text storedData w w1.
  split; [reflexivity|]. split; [reflexivity|]. split; [reflexivity|].
  split; [reflexivity|]. split; [reflexivity|].
  destruct (migration_gate versioned_store w text storedData 2
              (fun old => Ok (VObj [("count", old)])) (Some 1))
    as (H1 & _ & H3); try reflexivity; [discriminate|].
  split; [exact H1|].
  destruct (H3 (VObj [("count", VNum 5)]) eq_refl eq_refl) as [_ H4].
  apply (H4 (VObj [("count", VNum 5)])); reflexivity.
Defined.

(** Against C2 as worded: a record without a version field is migrated. *)
Lemma unversioned_record_is_migrated :
  let text := JSON_print (JObj [("value", JNum 5)]) in
  let w := world_of {[ "k" := text ]} [] 1000 in
  deserialize (opt_serializer versioned_store) text = Ok (VObj [("value", VNum 5)]) /\
  get_prop (VObj [("value", VNum 5)]) "version" = VUndef /\
  migrations (log (snd (get versioned_store w))) = [VNum 5] /\
  fst (get versioned_store w) = Ok (VObj [("count", VNum 5)]).
Proof. vm_compute. repeat split; reflexivity. Qed.

(** Line 144 of store.ts: once the value is validated, get writes it again
    whenever the stored version is not the store's, whether it is older,
    absent or newer. *)
Lemma get_rewrites_on_version_mismatch
    (o : StoreOptions) (w w1 w2 : World) (raw : string)
    (storedData value validated : jsvalue) (target : Z) :
  opt_version o = Some target -> target <> 0 ->
  getItem (storage w) (opt_key o) = Some raw -> raw <> "" ->
  deserialize (opt_serializer o) raw = Ok storedData ->
  isExpired storedData w = (Ok false, w) ->
  migrateData o storedData w = (Ok value, w1) -> is_null value = false ->
  validate o value w1 = (Ok validated, w2) -> is_null validated = false ->
  strict_eq_number (get_prop storedData "version") target = false ->
  get_try o w = (set o validated;; mret validated) w2.
Proof.
  intros Hver Hz Hraw Hne Hde Hex Hmig Hnv Hval Hnval Hsv.
  unfold get_try.
  rewrite (bind_ok _ _ w w (Some raw)) by (unfold storage_getItem; now rewrite Hraw).
  cbn [no_raw default from_option id].
  destruct (String.eqb_spec raw ""); [contradiction|].
  rewrite (bind_ok _ _ w w storedData) by (unfold lift; now rewrite Hde).
  rewrite (bind_ok _ _ w w false Hex).
  rewrite (bind_ok _ _ w w1 value Hmig). rewrite Hnv.
  rewrite (bind_ok _ _ w1 w2 validated Hval). rewrite Hnval.
  unfold no_version. rewrite Hver. cbn [default from_option id]. rewrite Hsv.
  destruct (Z.eqb_spec target 0); [contradiction|]. reflexivity.
Qed.

(** C3: what the code does with a record newer than the store. The value is
    returned as it is and migrate is not called, but the record is written
    again, stamped with the store's older version, and the subscribers are
    notified of this read. *)
Lemma newer_record_is_rewritten :
  let text := JSON_print (JObj [("value", JObj [("count", JNum 5)]); ("version", JNum 3)]) in
  let w := world_of {[ "k" := text ]} [quiet_callback] 1000 in
  let w' := snd (get versioned_store w) in
  fst (get versioned_store w) = Ok (VObj [("count", VNum 5)]) /\
  migrations (log w') = [] /\
  getItem (storage w') "k" <> Some text /\
  fst (getRaw versioned_store w')
  = Ok (VObj [("value", VObj [("count", VNum 5)]); ("version", VNum 2);
              ("timestamp", VNum 1000)]) /\
  notifications (log w') = [(2%nat, VObj [("count", VNum 5)])].
Proof. vm_compute. repeat split; try reflexivity. discriminate. Qed.

(** * The operations together *)

(** ** What set has stored *)

(** The same world when Date.now() gives [t]. *)
Definition at_time (t : Z) (w : World) : World :=
  {| storage := storage w; updateCallbacks := updateCallbacks w; listening := listening w;
     limiter := limiter w; clock := t; log := log w |}.

(** The text _setInternal stores for [validated] at time [now], with the
    default serializer. *)
Definition record_text (o : StoreOptions) (validated : jsvalue) (now : Z) : string :=
  JSON_print (JObj [("__root", enc (record_of o validated now))]).

Lemma get_prop_revived (ps : list (string * jsvalue)) (k : string) :
  NoDup (map fst ps) ->
  get_prop (revived (VObj ps)) k = revived (get_prop (VObj ps) k).
Proof.
  intros Hnd. change (revived (VObj ps)) with (VObj (kept ps)). simpl.
  rewrite (assoc_kept _ _ Hnd). destruct (assoc k ps) as [x|]; [|reflexivity].
  now destruct x.
Qed.

Lemma record_names (o : StoreOptions) (v : jsvalue) (now : Z) (ps : list (string * jsvalue)) :
  record_of o v now = VObj ps -> NoDup (map fst ps) /\ untagged ps.
Proof.
  unfold record_of. intros [= <-]. destruct (has_ttl o); simpl.
  - split; [refine (bool_decide_unpack _ _); vm_compute; reflexivity|exact I].
  - split; [refine (bool_decide_unpack _ _); vm_compute; reflexivity|exact I].
Qed.

Lemma record_sound (o : StoreOptions) (v : jsvalue) (now : Z) :
  sound v -> sound (record_of o v now).
Proof.
  intros Hv. destruct (record_of o v now) as [| | | | | |ps| | |] eqn:Hr; try discriminate.
  destruct (record_names o v now ps Hr) as [Hnd Hu].
  apply sound_obj. split; [exact Hnd|]. split; [exact Hu|].
  unfold record_of in Hr. injection Hr as <-.
  assert (Hnum : sound (number_or_undefined (opt_version o))) by now destruct (opt_version o).
  destruct (has_ttl o); simpl;
    repeat (apply List.Forall_cons; [split; [discriminate|try exact I; assumption]|]);
    apply List.Forall_nil.
Qed.

Lemma record_text_nonempty (o : StoreOptions) (v : jsvalue) (now : Z) :
  String.eqb (record_text o v now) "" = false.
Proof. reflexivity. Qed.

Lemma serialize_record (o : StoreOptions) (v : jsvalue) (now : Z) :
  sound v ->
  serialize defaultSerializer (record_of o v now) = Ok (record_text o v now).
Proof.
  intros Hv. rewrite serialize_enc by (apply sound_encodable; now apply record_sound).
  now rewrite enc_at_root.
Qed.

Lemma deserialize_record (o : StoreOptions) (v : jsvalue) (now : Z) :
  sound v ->
  deserialize defaultSerializer (record_text o v now) = Ok (revived (record_of o v now)).
Proof.
  intros Hv. apply deserialize_enc; [now apply record_sound|discriminate].
Qed.

(** What the record read back holds. *)
Lemma record_fields (o : StoreOptions) (v : jsvalue) (now : Z) :
  let r := revived (record_of o v now) in
  get_prop r "value" = revived v /\
  get_prop r "version" = number_or_undefined (opt_version o) /\
  get_prop r "timestamp" = VNum now /\
  get_prop r "expiresAt"
  = (if has_ttl o then VNum (now + default 0 (opt_ttl o)) else VUndef).
Proof.
  destruct (record_of o v now) as [| | | | | |ps| | |] eqn:Hr; try discriminate.
  destruct (record_names o v now ps Hr) as [Hnd _]. cbv zeta.
  rewrite !(get_prop_revived _ _ Hnd), <- Hr. unfold record_of.
  destruct (has_ttl o); simpl; repeat split; now destruct (opt_version o).
Qed.

(** A set that returns has stored the record and told every subscriber. *)
Lemma set_stores (o : StoreOptions) (w w' : World) (data validated : jsvalue) :
  opt_serializer o = defaultSerializer ->
  truthy_ms (opt_debounce o) = false -> truthy_ms (opt_throttle o) = false ->
  schema_verdict (opt_schema o) data = Accepted validated ->
  is_null validated = false -> sound validated ->
  set o data w = (Ok tt, w') ->
  exists evs,
    w' = with_log (log w ++ evs) (with_storage (storage w') w) /\
    items (storage w')
    = <[opt_key o := record_text o validated (clock w)]> (items (storage w)) /\
    quota (storage w') = quota (storage w) /\
    notifications evs = all_notified w validated.
Proof.
  intros Hser Hd Ht Hv Hn Hs. rewrite (set_plain o Hd Ht).
  pose proof (validate_accepted o data validated w Hv) as Hval.
  pose proof (serialize_record o validated (clock w) Hs) as Htext.
  rewrite <- Hser in Htext.
  destruct (setItem (storage w) (opt_key o) (record_text o validated (clock w)))
    as [st|e] eqn:Hset.
  - destruct (setInternal_persists o w w data validated _ st Hval Hn Htext Hset)
      as (evs & -> & N & _).
    intros [= <-]. exists evs. simpl. split; [reflexivity|].
    unfold setItem in Hset. destruct (_ <=? _)%N; [|discriminate].
    injection Hset as <-. simpl. auto.
  - unfold _setInternal, try_catch, mbind at 1, M_bind at 1. rewrite Hval, Hn.
    unfold mbind, M_bind, mret, M_ret, Date_now, lift, storage_setItem, throw, record.
    unfold record_of in Htext.
    destruct (has_ttl o); simpl app in *; rewrite Htext, Hset; discriminate.
Qed.

Lemma isExpired_record (o : StoreOptions) (v : jsvalue) (now : Z) (W : World) :
  isExpired (revived (record_of o v now)) W
  = (Ok (has_ttl o && negb (now + default 0 (opt_ttl o) =? 0)
         && (clock W >? now + default 0 (opt_ttl o))), W).
Proof.
  unfold isExpired, mbind, M_bind, lift.
  rewrite Get_object by reflexivity.
  destruct (record_fields o v now) as (_ & _ & _ & ->).
  destruct (has_ttl o); [|reflexivity]. simpl.
  destruct (now + default 0 (opt_ttl o) =? 0); reflexivity.
Qed.

Lemma migrateData_record (o : StoreOptions) (v : jsvalue) (now : Z) (W : World) :
  migrateData o (revived (record_of o v now)) W = (Ok (revived v), W).
Proof.
  destruct (record_fields o v now) as (Hval & Hver & _).
  assert (Hget : forall k, Get (revived (record_of o v now)) k
                           = Ok (get_prop (revived (record_of o v now)) k))
    by (intros k; now apply Get_object).
  unfold migrateData. destruct (opt_migrate o) as [f|].
  2:{ unfold lift. now rewrite Hget, Hval. }
  unfold no_version. destruct (opt_version o) as [target|] eqn:Hv.
  2:{ unfold lift. now rewrite Hget, Hval. }
  destruct (Z.eqb_spec target 0) as [->|Hz].
  { unfold lift. now rewrite Hget, Hval. }
  unfold mbind, M_bind, lift. rewrite !Hget, Hver, Hval. simpl.
  now rewrite Z.eqb_refl.
Qed.

Lemma no_rewrite_of_record (o : StoreOptions) (v : jsvalue) (now : Z) :
  negb (no_version o)
  && negb (strict_eq_number (get_prop (revived (record_of o v now)) "version")
                            (default 0 (opt_version o))) = false.
Proof.
  destruct (record_fields o v now) as (_ & -> & _).
  unfold no_version. destruct (opt_version o) as [target|]; [|reflexivity]. simpl.
  rewrite Z.eqb_refl. now destruct (target =? 0).
Qed.

Lemma is_null_revived (v : jsvalue) : is_null (revived v) = is_null v.
Proof. now destruct v. Qed.

(** get on a record the store wrote, before it expires: the value comes
    back through the schema and nothing changes. *)
Lemma get_fresh_record (o : StoreOptions) (W : World) (v back : jsvalue) (now : Z) :
  opt_serializer o = defaultSerializer -> sound v -> is_null v = false ->
  getItem (storage W) (opt_key o) = Some (record_text o v now) ->
  (has_ttl o = true -> clock W <= now + default 0 (opt_ttl o)) ->
  schema_verdict (opt_schema o) (revived v) = Accepted back -> is_null back = false ->
  get o W = (Ok back, W).
Proof.
  intros Hser Hs Hn Hraw Httl Hv Hb.
  unfold get, try_catch, get_try.
  rewrite (bind_ok _ _ W W (Some (record_text o v now)))
    by (unfold storage_getItem; now rewrite Hraw).
  cbn [no_raw default from_option id]. rewrite record_text_nonempty.
  rewrite (bind_ok _ _ W W (revived (record_of o v now)))
    by (unfold lift; now rewrite Hser, deserialize_record).
  rewrite (bind_ok _ _ W W false).
  2:{ rewrite isExpired_record. f_equal. f_equal.
      destruct (has_ttl o); [|reflexivity]. specialize (Httl eq_refl). simpl.
      destruct (Z.gtb_spec (clock W) (now + default 0 (opt_ttl o))); [lia|].
      apply andb_false_r. }
  rewrite (bind_ok _ _ W W (revived v)) by apply migrateData_record.
  rewrite is_null_revived, Hn.
  rewrite (bind_ok _ _ W W back) by now apply validate_accepted.
  rewrite Hb, no_rewrite_of_record. reflexivity.
Qed.

(** ... and after it has expired: the key is removed and the default (or
    null) returned. *)
Lemma get_expired_record (o : StoreOptions) (W : World) (v : jsvalue) (now : Z) :
  opt_serializer o = defaultSerializer -> sound v ->
  getItem (storage W) (opt_key o) = Some (record_text o v now) ->
  has_ttl o = true -> now + default 0 (opt_ttl o) <> 0 ->
  clock W > now + default 0 (opt_ttl o) ->
  get o W = (Ok (default_or_null o), with_storage (removeItem (storage W) (opt_key o)) W).
Proof.
  intros Hser Hs Hraw Httl Hz Hlate.
  apply (get_expired o W (record_text o v now) (revived (record_of o v now))).
  - exact Hraw.
  - intros H. pose proof (record_text_nonempty o v now) as Hne. rewrite H in Hne. discriminate.
  - now rewrite Hser, deserialize_record.
  - rewrite isExpired_record, Httl. f_equal. f_equal. simpl.
    destruct (Z.eqb_spec (now + default 0 (opt_ttl o)) 0); [contradiction|]. simpl.
    destruct (Z.gtb_spec (clock W) (now + default 0 (opt_ttl o))); [reflexivity|lia].
Qed.

Lemma getItem_after_set (o : StoreOptions) (w w' : World) (data validated : jsvalue) :
  opt_serializer o = defaultSerializer ->
  truthy_ms (opt_debounce o) = false -> truthy_ms (opt_throttle o) = false ->
  schema_verdict (opt_schema o) data = Accepted validated ->
  is_null validated = false -> sound validated ->
  set o data w = (Ok tt, w') ->
  getItem (storage w') (opt_key o) = Some (record_text o validated (clock w)).
Proof.
  intros Hser Hd Ht Hv Hn Hs Hset.
  destruct (set_stores o w w' data validated Hser Hd Ht Hv Hn Hs Hset) as (evs & _ & Hi & _).
  unfold getItem. rewrite Hi. apply lookup_insert_eq.
Qed.

(** getRaw on a record the store wrote. *)
Lemma getRaw_record (o : StoreOptions) (W : World) (v : jsvalue) (now : Z) :
  opt_serializer o = defaultSerializer -> sound v ->
  getItem (storage W) (opt_key o) = Some (record_text o v now) ->
  getRaw o W = (Ok (revived (record_of o v now)), W).
Proof.
  intros Hser Hs Hraw. unfold getRaw, try_catch.
  rewrite (bind_ok _ _ W W (Some (record_text o v now)))
    by (unfold storage_getItem; now rewrite Hraw).
  cbn [no_raw default from_option id]. rewrite record_text_nonempty.
  unfold lift. now rewrite Hser, deserialize_record.
Qed.

(** X1. A value that set has stored is what get returns, as long as the
    record has not expired: the value, whose numbers are safe integers, goes
    through the schema once more, get changes nothing, and has answers
    true. *)
Theorem set_then_get (o : StoreOptions) (w w' : World) (data validated back : jsvalue) (t : Z) :
  opt_serializer o = defaultSerializer ->
  truthy_ms (opt_debounce o) = false -> truthy_ms (opt_throttle o) = false ->
  schema_verdict (opt_schema o) data = Accepted validated ->
  is_null validated = false -> sound validated -> safe_integers validated ->
  schema_verdict (opt_schema o) (revived validated) = Accepted back ->
  is_null back = false ->
  set o data w = (Ok tt, w') ->
  (has_ttl o = true -> t <= clock w + default 0 (opt_ttl o)) ->
  get o (at_time t w') = (Ok back, at_time t w') /\
  has o (at_time t w') = (Ok true, at_time t w').
Proof.
  intros Hser Hd Ht Hv Hn Hs _ Hback Hnb Hset Httl.
  assert (Hget : get o (at_time t w') = (Ok back, at_time t w')).
  { apply (get_fresh_record o (at_time t w') validated back (clock w)); try assumption.
    now apply (getItem_after_set o w w' data validated). }
  split; [exact Hget|].
  unfold has. rewrite (bind_ok _ _ _ _ _ Hget). unfold mret, M_ret. now rewrite Hnb.
Qed.

Definition ttl_store : StoreOptions :=
  {| opt_key := "test"; opt_schema := string_schema; opt_version := Some 2;
     opt_migrate := None; opt_ttl := Some 1000; opt_defaultValue := VUndef;
     opt_onValidationError := None; opt_serializer := defaultSerializer;
     opt_debounce := None; opt_throttle := None |}.

Definition after_ttl_set : World := snd (set ttl_store (VStr "value") subscribed_world).

Lemma set_then_get_witness :
  set ttl_store (VStr "value") subscribed_world = (Ok tt, after_ttl_set) /\
  safe_integers (VStr "value") /\
  get ttl_store (at_time 2000 after_ttl_set) = (Ok (VStr "value"), at_time 2000 after_ttl_set) /\
  has ttl_store (at_time 2000 after_ttl_set) = (Ok true, at_time 2000 after_ttl_set).
Proof.
  assert (Hset : set ttl_store (VStr "value") subscribed_world = (Ok tt, after_ttl_set))
    by (vm_compute; reflexivity).
  split; [exact Hset|]. split; [constructor|].
  apply (set_then_get ttl_store subscribed_world after_ttl_set
           (VStr "value") (VStr "value") (VStr "value") 2000);
    try reflexivity; try exact I; try exact Hset; try constructor; intros _; simpl; lia.
Defined.

(** X2. Once the time is past the expiresAt that set computed from the TTL,
    get removes the record and returns the default (or null). *)
Theorem set_then_get_after_ttl
    (o : StoreOptions) (w w' : World) (data validated : jsvalue) (t : Z) :
  opt_serializer o = defaultSerializer ->
  truthy_ms (opt_debounce o) = false -> truthy_ms (opt_throttle o) = false ->
  schema_verdict (opt_schema o) data = Accepted validated ->
  is_null validated = false -> sound validated ->
  set o data w = (Ok tt, w') ->
  has_ttl o = true -> clock w + default 0 (opt_ttl o) <> 0 ->
  t > clock w + default 0 (opt_ttl o) ->
  get o (at_time t w')
  = (Ok (default_or_null o),
     with_storage (removeItem (storage w') (opt_key o)) (at_time t w')) /\
  getItem (removeItem (storage w') (opt_key o)) (opt_key o) = None.
Proof.
  intros Hser Hd Ht Hv Hn Hs Hset Httl Hz Hlate. split.
  - apply (get_expired_record o (at_time t w') validated (clock w)); try assumption.
    now apply (getItem_after_set o w w' data validated).
  - unfold getItem, removeItem. simpl. apply lookup_delete_eq.
Qed.

Lemma set_then_get_after_ttl_witness :
  set ttl_store (VStr "value") subscribed_world = (Ok tt, after_ttl_set) /\
  get ttl_store (at_time 2001 after_ttl_set)
  = (Ok VNull,
     with_storage (removeItem (storage after_ttl_set) "test") (at_time 2001 after_ttl_set)) /\
  getItem (removeItem (storage after_ttl_set) "test") "test" = None.
Proof.
  assert (Hset : set ttl_store (VStr "value") subscribed_world = (Ok tt, after_ttl_set))
    by (vm_compute; reflexivity).
  split; [exact Hset|].
  apply (set_then_get_after_ttl ttl_store subscribed_world after_ttl_set
           (VStr "value") (VStr "value") 2001);
    try reflexivity; try exact I; try exact Hset; discriminate.
Defined.

(** ** Removing, and records the schema rejects *)

Lemma is_null_default_or_null (o : StoreOptions) :
  is_null (default_or_null o) = nullish (opt_defaultValue o).
Proof. unfold default_or_null. now destruct (opt_defaultValue o). Qed.

(** X3. remove never throws; afterwards the key is absent and the other
    keys are as before, every subscriber has been called once with null, and
    get returns the default (or null) without changing anything, so has
    answers whether a default is configured. *)
Theorem remove_then_get (o : StoreOptions) (w : World) :
  exists evs,
    let w' := with_log (log w ++ evs) (with_storage (removeItem (storage w) (opt_key o)) w) in
    remove o w = (Ok tt, w') /\
    notifications evs = all_notified w VNull /\
    getItem (storage w') (opt_key o) = None /\
    (forall k, k <> opt_key o -> getItem (storage w') k = getItem (storage w) k) /\
    get o w' = (Ok (default_or_null o), w') /\
    has o w' = (Ok (negb (nullish (opt_defaultValue o))), w').
Proof.
  unfold remove, mbind, M_bind, storage_removeItem.
  destruct (notifyCallbacks_run VNull (with_storage (removeItem (storage w) (opt_key o)) w))
    as (evs & H & N & _).
  exists evs. cbv zeta. rewrite H.
  set (w' := with_log _ _).
  assert (Hnone : getItem (storage w') (opt_key o) = None)
    by (unfold getItem; simpl; apply lookup_delete_eq).
  assert (Hget : get o w' = (Ok (default_or_null o), w')).
  { unfold get, try_catch, get_try.
    rewrite (bind_ok _ _ w' w' None) by (unfold storage_getItem; now rewrite Hnone).
    reflexivity. }
  repeat split; try assumption.
  - intros k Hk. unfold getItem. simpl. now apply lookup_delete_ne.
  - unfold has. rewrite (bind_ok _ _ _ _ _ Hget). unfold mret, M_ret.
    now rewrite is_null_default_or_null.
Qed.

(** validate on a value the schema rejects, with an error callback that
    returns: null, after one report. *)
Lemma validate_rejected_quiet (o : StoreOptions) (data : jsvalue) (e : exn) (w : World) :
  quiet_handler o ->
  schema_verdict (opt_schema o) data = Rejected e ->
  exists evs,
    validate o data w = (Ok VNull, with_log (log w ++ evs) w) /\
    reports evs = match opt_onValidationError o with
                  | Some _ => [(e, opt_key o)]
                  | None => []
                  end /\
    notifications evs = [] /\ migrate_calls evs = O.
Proof.
  intros Hq Hv.
  assert (Hcatch : forall x w0,
    exists evs,
      (report o x;; mret VNull) w0 = (Ok VNull, with_log (log w0 ++ evs) w0) /\
      reports evs = match opt_onValidationError o with
                    | Some _ => [(x, opt_key o)]
                    | None => []
                    end /\
      notifications evs = [] /\ migrate_calls evs = O).
  { intros x w0. destruct (report_quiet o x w0 Hq) as (evs & Hr & R & N & G).
    exists evs. unfold mbind, M_bind. rewrite Hr. auto. }
  unfold schema_verdict in Hv. unfold validate, try_catch.
  destruct (safeParse (opt_schema o)) as [sp|].
  - unfold mbind at 1, M_bind at 1, lift at 1.
    destruct (sp data) as [res|x].
    + destruct (vr_success res && negb (is_undefined (vr_data res))); [discriminate|].
      injection Hv as <-.
      destruct (Hcatch (ErrorValue (vr_error res)) w) as (evs & Hr & R).
      rewrite Hr. eauto.
    + injection Hv as <-. destruct (Hcatch x w) as (evs & Hr & R). rewrite Hr. eauto.
  - unfold lift at 1. destruct (parse (opt_schema o) data) as [v|x]; [discriminate|].
    injection Hv as <-. destruct (Hcatch x w) as (evs & Hr & R). rewrite Hr. eauto.
Qed.

(** X4. A stored record whose value the schema rejects is deleted: get
    reports the rejection to the error callback, removes the key and returns
    the default (or null). *)
Theorem get_removes_invalid_record
    (o : StoreOptions) (w w1 : World) (raw : string) (storedData value : jsvalue) (e : exn) :
  quiet_handler o ->
  getItem (storage w) (opt_key o) = Some raw -> raw <> "" ->
  deserialize (opt_serializer o) raw = Ok storedData ->
  isExpired storedData w = (Ok false, w) ->
  migrateData o storedData w = (Ok value, w1) -> is_null value = false ->
  schema_verdict (opt_schema o) value = Rejected e ->
  exists evs,
    get o w = (Ok (default_or_null o),
               with_storage (removeItem (storage w1) (opt_key o))
                 (with_log (log w1 ++ evs) w1)) /\
    reports evs = match opt_onValidationError o with
                  | Some _ => [(e, opt_key o)]
                  | None => []
                  end /\
    notifications evs = [] /\
    getItem (removeItem (storage w1) (opt_key o)) (opt_key o) = None.
Proof.
  intros Hq Hraw Hne Hde Hex Hmig Hnv Hrej.
  destruct (validate_rejected_quiet o value e w1 Hq Hrej) as (evs & Hval & R & N & _).
  exists evs. split; [|split; [exact R|split; [exact N|]]].
  - unfold get, try_catch, get_try.
    rewrite (bind_ok _ _ w w (Some raw)) by (unfold storage_getItem; now rewrite Hraw).
    cbn [no_raw default from_option id].
    destruct (String.eqb_spec raw ""); [contradiction|].
    rewrite (bind_ok _ _ w w storedData) by (unfold lift; now rewrite Hde).
    rewrite (bind_ok _ _ w w false Hex).
    rewrite (bind_ok _ _ w w1 value Hmig). rewrite Hnv.
    rewrite (bind_ok _ _ _ _ _ Hval). reflexivity.
  - unfold getItem, removeItem. simpl. apply lookup_delete_eq.
Qed.

Lemma get_removes_invalid_record_witness :
  let o := basic_options "test" string_schema in
  let text := JSON_print (JObj [("value", JObj [("name", JNum 123)]); ("version", JNum 1)]) in
  let w := world_of {[ "test" := text ]} [] 1000 in
  quiet_handler o /\
  deserialize (opt_serializer o) text
  = Ok (VObj [("value", VObj [("name", VNum 123)]); ("version", VNum 1)]) /\
  schema_verdict (opt_schema o) (VObj [("name", VNum 123)])
  = Rejected (ErrorValue (VStr "Expected string")) /\
  exists evs,
    get o w = (Ok VNull, with_storage (removeItem (storage w) "test") (with_log (log w ++ evs) w)) /\
    reports evs = [] /\ notifications evs = [] /\
    getItem (removeItem (storage w) "test") "test" = None.
Proof.
  intros o text w.
  split; [now apply quiet_without_handler|]. split; [reflexivity|]. split; [reflexivity|].
  apply (get_removes_invalid_record o w w text
           (VObj [("value", VObj [("name", VNum 123)]); ("version", VNum 1)])
           (VObj [("name", VNum 123)]) (ErrorValue (VStr "Expected string")));
    try reflexivity; [now apply quiet_without_handler|discriminate].
Defined.

(** ** A migration that throws *)

(** migrateData when migrate throws and the error callback returns: null,
    after the error has been logged and reported. *)
Lemma migrateData_failure (o : StoreOptions) (w : World) (storedData : jsvalue)
    (target : Z) (f : MigrationFunction) (stored : option Z) (e : exn) :
  opt_version o = Some target -> opt_migrate o = Some f ->
  nullish storedData = false ->
  get_prop storedData "version" = number_or_undefined stored ->
  migrates target stored = true ->
  f (get_prop storedData "value") = Throw e ->
  quiet_handler o ->
  exists evs,
    migrateData o storedData w = (Ok VNull, with_log (log w ++ evs) w) /\
    reports evs = match opt_onValidationError o with
                  | Some _ => [(e, opt_key o)]
                  | None => []
                  end /\
    migrations evs = [get_prop storedData "value"] /\
    notifications evs = [].
Proof.
  intros Hver Hmig Hobj Hsv Hgate Hf Hq.
  unfold migrates in Hgate. apply andb_true_iff in Hgate as [Hz Hgate].
  unfold migrateData, no_version. rewrite Hmig, Hver. cbn [default from_option id].
  destruct (target =? 0) eqn:Ht0; [discriminate|].
  rewrite (bind_ok _ _ w w (get_prop storedData "version"))
    by (unfold lift; now rewrite (Get_object _ _ Hobj)).
  rewrite Hsv.
  assert (Hskip : strict_eq_number (number_or_undefined stored) target = false /\
                  truthy (number_or_undefined stored)
                  && gt_number (number_or_undefined stored) target = false).
  { destruct stored as [v|]; [|split; reflexivity]. simpl. unfold gt_number. simpl.
    apply orb_true_iff in Hgate as [Hv|Hv].
    - apply Z.eqb_eq in Hv. subst v. split; [|reflexivity].
      apply Z.eqb_neq. apply Z.eqb_neq in Ht0. congruence.
    - apply Z.ltb_lt in Hv. split; [apply Z.eqb_neq; lia|].
      destruct (Z.gtb_spec v target); [lia|]. apply andb_false_r. }
  destruct Hskip as [-> ->].
  unfold try_catch.
  rewrite (bind_ok _ _ w w (get_prop storedData "value"))
    by (unfold lift; now rewrite (Get_object _ _ Hobj)).
  unfold mbind at 1, M_bind at 1, record at 1, lift at 1. rewrite Hf.
  unfold mbind at 1, M_bind at 1, record at 1.
  match goal with |- context [(report o e ≫= _) ?W] =>
    destruct (report_quiet o e W Hq) as (evs & Hr & R & N & G) end.
  unfold mbind, M_bind. rewrite Hr. simpl.
  eexists ([MigrateCalled (get_prop storedData "value")] ++ [_] ++ evs).
  rewrite <- !app_assoc. split; [reflexivity|].
  rewrite !reports_app, !migrations_app, !notifications_app, R, N. simpl.
  unfold migrate_calls in G. apply length_zero_iff_nil in G. rewrite G. auto.
Qed.

(** X5. When the migration function throws, get logs and reports the
    error and returns the default (or null); the stored record is kept. *)
Theorem get_keeps_record_when_migration_fails
    (o : StoreOptions) (w : World) (raw : string) (storedData : jsvalue)
    (target : Z) (f : MigrationFunction) (stored : option Z) (e : exn) :
  opt_version o = Some target -> opt_migrate o = Some f ->
  quiet_handler o ->
  getItem (storage w) (opt_key o) = Some raw -> raw <> "" ->
  deserialize (opt_serializer o) raw = Ok storedData ->
  isExpired storedData w = (Ok false, w) ->
  get_prop storedData "version" = number_or_undefined stored ->
  migrates target stored = true ->
  f (get_prop storedData "value") = Throw e ->
  exists evs,
    get o w = (Ok (default_or_null o), with_log (log w ++ evs) w) /\
    reports evs = match opt_onValidationError o with
                  | Some _ => [(e, opt_key o)]
                  | None => []
                  end /\
    notifications evs = [] /\
    getItem (storage (snd (get o w))) (opt_key o) = Some raw.
Proof.
  intros Hver Hmig Hq Hraw Hne Hde Hex Hsv Hgate Hf.
  pose proof (isExpired_object _ _ _ _ Hex) as Hobj.
  destruct (migrateData_failure o w storedData target f stored e
              Hver Hmig Hobj Hsv Hgate Hf Hq) as (evs & Hrun & R & _ & N).
  assert (Hget : get o w = (Ok (default_or_null o), with_log (log w ++ evs) w)).
  { unfold get, try_catch, get_try.
    rewrite (bind_ok _ _ w w (Some raw)) by (unfold storage_getItem; now rewrite Hraw).
    cbn [no_raw default from_option id].
    destruct (String.eqb_spec raw ""); [contradiction|].
    rewrite (bind_ok _ _ w w storedData) by (unfold lift; now rewrite Hde).
    rewrite (bind_ok _ _ w w false Hex).
    rewrite (bind_ok _ _ _ _ _ Hrun). reflexivity. }
  exists evs. rewrite Hget. auto.
Qed.

Definition failing_migration_store : StoreOptions :=
  {| opt_key := "k"; opt_schema := counter_schema; opt_version := Some 2;
     opt_migrate := Some (fun _ => Throw (Error "cannot migrate"));
     opt_ttl := None; opt_defaultValue := VObj [("count", VNum 0)];
     opt_onValidationError := None;
     opt_serializer := defaultSerializer; opt_debounce := None; opt_throttle := None |}.

Lemma get_keeps_record_when_migration_fails_witness :
  let text := JSON_print (JObj [("value", JNum 5); ("version", JNum 1)]) in
  let w := world_of {[ "k" := text ]} [] 1000 in
  deserialize (opt_serializer failing_migration_store) text
  = Ok (VObj [("value", VNum 5); ("version", VNum 1)]) /\
  migrates 2 (Some 1) = true /\
  exists evs,
    get failing_migration_store w
    = (Ok (VObj [("count", VNum 0)]), with_log (log w ++ evs) w) /\
    reports evs = [] /\ notifications evs = [] /\
    getItem (storage (snd (get failing_migration_store w))) "k" = Some text.
Proof.
  intros text w. split; [reflexivity|]. split; [reflexivity|].
  apply (get_keeps_record_when_migration_fails failing_migration_store w text
           (VObj [("value", VNum 5); ("version", VNum 1)]) 2
           (fun _ => Throw (Error "cannot migrate")) (Some 1) (Error "cannot migrate"));
    try reflexivity; [now apply quiet_without_handler|discriminate].
Defined.

(** ** The raw record, and the record in another tab *)

(** X6. getRaw shows the record set has stored: its value (whose numbers
    are safe integers) as it is read back, the store's version, the time set
    read for the timestamp, and an expiresAt that is a number when a non-zero
    TTL is configured and absent otherwise.  It shows it at any later time,
    expired or not, and never deletes it. *)
Theorem getRaw_after_set
    (o : StoreOptions) (w w' : World) (data validated : jsvalue) (t : Z) :
  opt_serializer o = defaultSerializer ->
  truthy_ms (opt_debounce o) = false -> truthy_ms (opt_throttle o) = false ->
  schema_verdict (opt_schema o) data = Accepted validated ->
  is_null validated = false -> sound validated -> safe_integers validated ->
  set o data w = (Ok tt, w') ->
  exists r,
    getRaw o (at_time t w') = (Ok r, at_time t w') /\
    get_prop r "value" = revived validated /\
    get_prop r "version" = number_or_undefined (opt_version o) /\
    get_prop r "timestamp" = VNum (clock w) /\
    (has_ttl o = true -> exists e, get_prop r "expiresAt" = VNum e) /\
    (has_ttl o = false -> get_prop r "expiresAt" = VUndef).
Proof.
  intros Hser Hd Ht Hv Hn Hs _ Hset.
  exists (revived (record_of o validated (clock w))). split.
  - apply getRaw_record; try assumption.
    now apply (getItem_after_set o w w' data validated).
  - destruct (record_fields o validated (clock w)) as (H1 & H2 & H3 & H4).
    repeat split; try assumption.
    + intros H. rewrite H4, H. eauto.
    + intros H. now rewrite H4, H.
Qed.

Lemma getRaw_after_set_witness :
  set ttl_store (VStr "value") subscribed_world = (Ok tt, after_ttl_set) /\
  safe_integers (VStr "value") /\
  exists r,
    getRaw ttl_store (at_time 5000 after_ttl_set) = (Ok r, at_time 5000 after_ttl_set) /\
    get_prop r "value" = VStr "value" /\
    get_prop r "version" = VNum 2 /\
    get_prop r "timestamp" = VNum 1000.
Proof.
  assert (Hset : set ttl_store (VStr "value") subscribed_world = (Ok tt, after_ttl_set))
    by (vm_compute; reflexivity).
  split; [exact Hset|]. split; [constructor|].
  destruct (getRaw_after_set ttl_store subscribed_world after_ttl_set
              (VStr "value") (VStr "value") 5000)
    as (r & H1 & H2 & H3 & H4 & _);
    try reflexivity; try exact I; try exact Hset; try constructor.
  exists r. repeat split; assumption.
Defined.

(** X7. A record that set has stored in one tab (for a value whose numbers
    are safe integers) and that reaches another tab of the same store as a
    storage event, before it expires, is delivered to every subscriber
    there, after the schema has accepted it; the handler leaves the storage
    alone. *)
Theorem storage_event_of_stored_record
    (o : StoreOptions) (W : World) (v back : jsvalue) (now : Z) :
  opt_serializer o = defaultSerializer -> sound v -> safe_integers v -> is_null v = false ->
  (has_ttl o = true -> clock W <= now + default 0 (opt_ttl o)) ->
  schema_verdict (opt_schema o) (revived v) = Accepted back -> is_null back = false ->
  exists evs,
    handleStorageEvent o
      {| ev_key := Some (opt_key o); ev_newValue := Some (record_text o v now) |} W
    = (Ok tt, with_log (log W ++ evs) W) /\
    notifications evs = all_notified W back.
Proof.
  intros Hser Hs _ Hn Httl Hv Hb.
  destruct (handleStorageEvent_run o W
              {| ev_key := Some (opt_key o); ev_newValue := Some (record_text o v now) |}
              eq_refl) as (evs & Hrun & N).
  exists evs. split; [exact Hrun|]. rewrite N. unfold delivered. cbn [ev_newValue].
  rewrite Hser, deserialize_record by assumption.
  rewrite isExpired_record.
  assert (Hfresh : has_ttl o && negb (now + default 0 (opt_ttl o) =? 0)
                   && (clock W >? now + default 0 (opt_ttl o)) = false).
  { destruct (has_ttl o); [|reflexivity]. specialize (Httl eq_refl). simpl.
    destruct (Z.gtb_spec (clock W) (now + default 0 (opt_ttl o))); [lia|].
    apply andb_false_r. }
  rewrite Hfresh, migrateData_record, is_null_revived, Hn.
  now rewrite (validate_accepted o (revived v) back W Hv), Hb.
Qed.

Lemma storage_event_of_stored_record_witness :
  (has_ttl ttl_store = true -> clock subscribed_world <= 900 + default 0 (opt_ttl ttl_store)) /\
  safe_integers (VStr "v") /\
  exists evs,
    handleStorageEvent ttl_store
      {| ev_key := Some "test"; ev_newValue := Some (record_text ttl_store (VStr "v") 900) |}
      subscribed_world
    = (Ok tt, with_log (log subscribed_world ++ evs) subscribed_world) /\
    notifications evs = [(1%nat, VStr "v"); (2%nat, VStr "v")].
Proof.
  split; [intros _; simpl; lia|]. split; [constructor|].
  apply (storage_event_of_stored_record ttl_store subscribed_world (VStr "v") (VStr "v") 900);
    try reflexivity; try exact I; try constructor. intros _. simpl. lia.
Defined.

(** ** Migrating once *)

Lemma world_after_set (o : StoreOptions) (w w' : World) (data validated : jsvalue) :
  opt_serializer o = defaultSerializer ->
  truthy_ms (opt_debounce o) = false -> truthy_ms (opt_throttle o) = false ->
  schema_verdict (opt_schema o) data = Accepted validated ->
  is_null validated = false -> sound validated ->
  set o data w = (Ok tt, w') ->
  at_time (clock w) w' = w' /\
  migrations (log w') = migrations (log w).
Proof.
  intros Hser Hd Ht Hv Hn Hs Hset.
  destruct (set_stores o w w' data validated Hser Hd Ht Hv Hn Hs Hset) as (evs & Hw & _).
  split; [rewrite Hw; reflexivity|].
  pose proof (keeps_set o data w) as Hk. now rewrite Hset in Hk.
Qed.

(** X8. A migration is run once. When get has obtained a value from a
    record of another version, validated it and set it again - the value
    that set stores being sound, with safe integers for numbers - the new
    record carries the store's version; and a later get, before the new
    record expires, returns the value, as the schema accepts it when read
    back, without calling the migration function and without writing. *)
Theorem migration_runs_once
    (o : StoreOptions) (w w1 w' : World) (raw : string)
    (storedData value v1 v2 v3 : jsvalue) (target t : Z) :
  opt_serializer o = defaultSerializer ->
  truthy_ms (opt_debounce o) = false -> truthy_ms (opt_throttle o) = false ->
  opt_version o = Some target -> target <> 0 ->
  getItem (storage w) (opt_key o) = Some raw -> raw <> "" ->
  deserialize (opt_serializer o) raw = Ok storedData ->
  isExpired storedData w = (Ok false, w) ->
  strict_eq_number (get_prop storedData "version") target = false ->
  migrateData o storedData w = (Ok value, w1) -> is_null value = false ->
  schema_verdict (opt_schema o) value = Accepted v1 -> is_null v1 = false ->
  schema_verdict (opt_schema o) v1 = Accepted v2 -> is_null v2 = false ->
  sound v2 -> safe_integers v2 ->
  set o v1 w1 = (Ok tt, w') ->
  schema_verdict (opt_schema o) (revived v2) = Accepted v3 -> is_null v3 = false ->
  (has_ttl o = true -> t <= clock w + default 0 (opt_ttl o)) ->
  get o w = (Ok v1, w') /\
  get o (at_time t w') = (Ok v3, at_time t w') /\
  migrations (log (at_time t w')) = migrations (log w1) /\
  (exists r, getRaw o (at_time t w') = (Ok r, at_time t w') /\
             get_prop r "value" = revived v2 /\
             get_prop r "version" = VNum target).
Proof.
  intros Hser Hd Ht Hver Hz Hraw Hne Hde Hex Hsv Hmig Hnv Hv1 Hn1 Hv2 Hn2 Hs2 _
         Hset Hv3 Hn3 Hfresh.
  destruct (world_after_set o w1 w' v1 v2 Hser Hd Ht Hv2 Hn2 Hs2 Hset) as [_ Hlog].
  assert (Hc : clock w1 = clock w).
  { pose proof (only_logs_migrateData o storedData w) as (evs & Hw & _).
    rewrite Hmig in Hw. simpl in Hw. now rewrite Hw. }
  pose proof (getItem_after_set o w1 w' v1 v2 Hser Hd Ht Hv2 Hn2 Hs2 Hset) as Hitem.
  split; [|split; [|split]].
  - unfold get, try_catch.
    rewrite (get_rewrites_on_version_mismatch o w w1 w1 raw storedData value v1 target);
      try assumption; [|now apply validate_accepted].
    rewrite (bind_ok _ _ _ _ _ Hset). reflexivity.
  - apply (get_fresh_record o (at_time t w') v2 v3 (clock w1)); try assumption.
    now rewrite Hc.
  - exact Hlog.
  - exists (revived (record_of o v2 (clock w1))). split.
    + now apply getRaw_record.
    + destruct (record_fields o v2 (clock w1)) as (H1 & H2 & _).
      split; [exact H1|]. now rewrite H2, Hver.
Qed.

Definition old_record_text : string :=
  JSON_print (JObj [("value", JNum 5); ("version", JNum 1)]).
Definition old_record : jsvalue := VObj [("value", VNum 5); ("version", VNum 1)].
Definition old_world : World := world_of {[ "k" := old_record_text ]} [] 1000.
Definition migrated_world : World := snd (migrateData versioned_store old_record old_world).
Definition rewritten_world : World :=
  snd (set versioned_store (VObj [("count", VNum 5)]) migrated_world).

Lemma migration_runs_once_witness :
  deserialize (opt_serializer versioned_store) old_record_text = Ok old_record /\
  migrateData versioned_store old_record old_world
  = (Ok (VObj [("count", VNum 5)]), migrated_world) /\
  migrations (log migrated_world) = [VNum 5] /\
  sound (VObj [("count", VNum 5)]) /\ safe_integers (VObj [("count", VNum 5)]) /\
  set versioned_store (VObj [("count", VNum 5)]) migrated_world = (Ok tt, rewritten_world) /\
  get versioned_store old_world = (Ok (VObj [("count", VNum 5)]), rewritten_world) /\
  get versioned_store (at_time 9000 rewritten_world)
  = (Ok (VObj [("count", VNum 5)]), at_time 9000 rewritten_world) /\
  migrations (log (at_time 9000 rewritten_world)) = [VNum 5] /\
  (exists r, getRaw versioned_store (at_time 9000 rewritten_world)
             = (Ok r, at_time 9000 rewritten_world) /\
             get_prop r "value" = VObj [("count", VNum 5)] /\
             get_prop r "version" = VNum 2).
Proof.
  assert (Hmig : migrateData versioned_store old_record old_world
                 = (Ok (VObj [("count", VNum 5)]), migrated_world))
    by (vm_compute; reflexivity).
  assert (Hset : set versioned_store (VObj [("count", VNum 5)]) migrated_world
                 = (Ok tt, rewritten_world)) by (vm_compute; reflexivity).
  assert (Hsound : sound (VObj [("count", VNum 5)])).
  { simpl. repeat split; try discriminate.
    refine (bool_decide_unpack _ _). vm_compute. reflexivity. }
  assert (Hsafe : safe_integers (VObj [("count", VNum 5)])).
  { unfold safe_integers, safe_integer. simpl. repeat constructor; lia. }
  split; [reflexivity|]. split; [exact Hmig|]. split; [reflexivity|].
  split; [exact Hsound|]. split; [exact Hsafe|]. split; [exact Hset|].
  apply (migration_runs_once versioned_store old_world migrated_world rewritten_world
           old_record_text old_record (VObj [("count", VNum 5)]) (VObj [("count", VNum 5)])
           (VObj [("count", VNum 5)]) (VObj [("count", VNum 5)]) 2 9000);
    try reflexivity; try discriminate; try assumption.
Defined.

(** ** Subscribing and unsubscribing *)

(** The subscribers form a set, and the 'storage' listener is attached
    exactly while there is one. *)
Definition subscriptions_ok (w : World) : Prop :=
  NoDup (map cb_id (updateCallbacks w)) /\
  (listening w = true <-> updateCallbacks w <> []).

Lemma existsb_same_callback (c : UpdateCallback) (cs : list UpdateCallback) :
  existsb (same_callback c) cs = true <-> cb_id c ∈ map cb_id cs.
Proof.
  rewrite existsb_exists, list_elem_of_fmap. unfold same_callback.
  split.
  - intros (d & Hd & He). apply Nat.eqb_eq in He. exists d. split; [exact He|].
    now apply list_elem_of_In.
  - intros (d & He & Hd). exists d. split; [now apply list_elem_of_In|].
    now apply Nat.eqb_eq.
Qed.

Lemma subscribed_ids (c : UpdateCallback) (w : World) :
  map cb_id (updateCallbacks (snd (onUpdate c w)))
  = if existsb (same_callback c) (updateCallbacks w)
    then map cb_id (updateCallbacks w)
    else map cb_id (updateCallbacks w) ++ [cb_id c].
Proof.
  unfold onUpdate. simpl. destruct (existsb _ _); [reflexivity|].
  now rewrite map_app.
Qed.

Lemma onUpdate_ok (c : UpdateCallback) (w : World) :
  subscriptions_ok w ->
  let w1 := snd (onUpdate c w) in
  subscriptions_ok w1 /\
  onUpdate c w1 = (Ok tt, w1) /\
  cb_id c ∈ map cb_id (updateCallbacks w1) /\
  (forall d, d ∈ updateCallbacks w -> d ∈ updateCallbacks w1).
Proof.
  intros [Hnd Hl] w1.
  assert (Hc : cb_id c ∈ map cb_id (updateCallbacks w1)).
  { subst w1. rewrite subscribed_ids.
    destruct (existsb _ _) eqn:He; [now apply existsb_same_callback|].
    apply elem_of_app. right. apply list_elem_of_singleton. reflexivity. }
  assert (Hnd1 : NoDup (map cb_id (updateCallbacks w1))).
  { subst w1. rewrite subscribed_ids.
    destruct (existsb _ _) eqn:He; [exact Hnd|].
    apply NoDup_app. split; [exact Hnd|]. split; [|apply NoDup_singleton].
    intros x Hx Hx'. apply list_elem_of_singleton in Hx'. subst x.
    apply existsb_same_callback in Hx. congruence. }
  split; [|split; [|split; [exact Hc|]]].
  - split; [exact Hnd1|]. subst w1. unfold onUpdate. simpl.
    split; [intros _|reflexivity].
    destruct (existsb _ _) eqn:He.
    + intros Hnil. rewrite Hnil in He. discriminate.
    + now destruct (updateCallbacks w).
  - unfold onUpdate at 1.
    rewrite (proj2 (existsb_same_callback c (updateCallbacks w1)) Hc).
    subst w1. unfold onUpdate. reflexivity.
  - intros d Hd. subst w1. unfold onUpdate. simpl.
    destruct (existsb _ _); [exact Hd|]. apply elem_of_app. now left.
Qed.

(** X10. onUpdate adds the callback to the set of subscribers: subscribing
    it again changes nothing, and a notification then calls it exactly
    once, after the callbacks that were there before. *)
Theorem subscribe_once (c : UpdateCallback) (w : World) (v : jsvalue) :
  subscriptions_ok w ->
  let w1 := snd (onUpdate c w) in
  subscriptions_ok w1 /\
  onUpdate c w1 = (Ok tt, w1) /\
  exists evs,
    notifyCallbacks v w1 = (Ok tt, with_log (log w1 ++ evs) w1) /\
    NoDup (notifications evs) /\
    (cb_id c, v) ∈ notifications evs /\
    (forall d, d ∈ updateCallbacks w -> (cb_id d, v) ∈ notifications evs).
Proof.
  intros Hok w1. destruct (onUpdate_ok c w Hok) as (Hok1 & Hidem & Hc & Hkeep).
  fold w1 in Hok1, Hidem, Hc, Hkeep.
  split; [exact Hok1|]. split; [exact Hidem|].
  destruct (notifyCallbacks_run v w1) as (evs & Hrun & N & _).
  exists evs. split; [exact Hrun|]. rewrite N.
  split; [|split].
  - apply (NoDup_fmap_1 fst). rewrite <- list_fmap_compose. exact (proj1 Hok1).
  - apply list_elem_of_fmap in Hc as (d & Hd & Hin).
    apply list_elem_of_fmap. exists d. split; [now rewrite Hd|exact Hin].
  - intros d Hd. apply list_elem_of_fmap. exists d. split; [reflexivity|now apply Hkeep].
Qed.

Lemma subscribe_once_witness :
  subscriptions_ok subscribed_world /\
  let w1 := snd (onUpdate quiet_callback subscribed_world) in
  subscriptions_ok w1 /\
  onUpdate quiet_callback w1 = (Ok tt, w1) /\
  exists evs,
    notifyCallbacks (VStr "v") w1 = (Ok tt, with_log (log w1 ++ evs) w1) /\
    NoDup (notifications evs) /\
    (cb_id quiet_callback, VStr "v") ∈ notifications evs /\
    (forall d, d ∈ updateCallbacks subscribed_world -> (cb_id d, VStr "v") ∈ notifications evs).
Proof.
  assert (Hok : subscriptions_ok subscribed_world).
  { split; [refine (bool_decide_unpack _ _); vm_compute; reflexivity|].
    split; [discriminate|reflexivity]. }
  split; [exact Hok|].
  apply (subscribe_once quiet_callback subscribed_world (VStr "v") Hok).
Defined.

(** X11. After the function that onUpdate returned has run, the callback
    is no longer called, however many times it had been subscribed; the
    other subscribers are called as before, and the 'storage' listener stays
    attached exactly while a subscriber is left. *)
Theorem unsubscribe_stops_notifications (c : UpdateCallback) (w : World) (v : jsvalue) :
  subscriptions_ok w ->
  let w2 := snd (unsubscribe c (snd (onUpdate c (snd (onUpdate c w))))) in
  subscriptions_ok w2 /\
  exists evs,
    notifyCallbacks v w2 = (Ok tt, with_log (log w2 ++ evs) w2) /\
    (forall x, (cb_id c, x) ∉ notifications evs) /\
    (forall d, d ∈ updateCallbacks w -> cb_id d <> cb_id c ->
               (cb_id d, v) ∈ notifications evs).
Proof.
  intros Hok w2.
  set (w1 := snd (onUpdate c w)).
  destruct (onUpdate_ok c w Hok) as (Hok1 & Hidem & _ & Hkeep).
  fold w1 in Hok1, Hidem, Hkeep.
  assert (Hw2 : w2 = snd (unsubscribe c w1)) by (subst w2; fold w1; now rewrite Hidem).
  assert (Hcs : updateCallbacks w2
                = filter (fun d => same_callback c d = false) (updateCallbacks w1))
    by (rewrite Hw2; reflexivity).
  split.
  - destruct Hok1 as [Hnd1 Hl1]. split.
    + rewrite Hcs. clear -Hnd1. induction (updateCallbacks w1) as [|d cs IH]; [constructor|].
      simpl in Hnd1. apply NoDup_cons in Hnd1 as [Hd Hnd1]. rewrite filter_cons.
      destruct (decide (same_callback c d = false)); [|now apply IH].
      simpl. apply NoDup_cons. split; [|now apply IH].
      intros Hin. apply Hd. apply list_elem_of_fmap in Hin as (d' & He & Hin).
      apply list_elem_of_filter in Hin as [_ Hin].
      apply list_elem_of_fmap. now exists d'.
    + rewrite Hw2. unfold unsubscribe. simpl.
      destruct (decide (filter _ _ = [])) as [Hnil|Hne].
      * rewrite Hnil. split; [discriminate|congruence].
      * split; [now intros _|intros _]. apply Hl1. subst w1. unfold onUpdate. simpl.
        destruct (existsb _ _) eqn:He.
        -- intros Hnil. rewrite Hnil in He. discriminate.
        -- now destruct (updateCallbacks w).
  - destruct (notifyCallbacks_run v w2) as (evs & Hrun & N & _).
    exists evs. split; [exact Hrun|]. rewrite N, Hcs. split.
    + intros x Hin. apply list_elem_of_fmap in Hin as (d & [= He _] & Hd).
      apply list_elem_of_filter in Hd as [Hf _]. unfold same_callback in Hf.
      apply Nat.eqb_neq in Hf. congruence.
    + intros d Hd Hne. apply list_elem_of_fmap. exists d. split; [reflexivity|].
      apply list_elem_of_filter. split; [|now apply Hkeep].
      unfold same_callback. apply Nat.eqb_neq. congruence.
Qed.

Lemma unsubscribe_stops_notifications_witness :
  subscriptions_ok subscribed_world /\
  let w2 := snd (unsubscribe quiet_callback
                   (snd (onUpdate quiet_callback (snd (onUpdate quiet_callback subscribed_world))))) in
  subscriptions_ok w2 /\
  exists evs,
    notifyCallbacks VNull w2 = (Ok tt, with_log (log w2 ++ evs) w2) /\
    (forall x, (cb_id quiet_callback, x) ∉ notifications evs) /\
    (forall d, d ∈ updateCallbacks subscribed_world -> cb_id d <> cb_id quiet_callback ->
               (cb_id d, VNull) ∈ notifications evs).
Proof.
  assert (Hok : subscriptions_ok subscribed_world).
  { split; [refine (bool_decide_unpack _ _); vm_compute; reflexivity|].
    split; [discriminate|reflexivity]. }
  split; [exact Hok|].
  apply (unsubscribe_stops_notifications quiet_callback subscribed_world VNull Hok).
Defined.

(** ** Debounce and throttle *)

(** The calls of [f] on the values of [l], in order. *)
Definition calls (f : jsvalue -> M unit) (l : list jsvalue) : M unit := forEach l f.

(** [m] neither reads nor writes the timer state of debounce and throttle. *)
Definition frames_limiter {A} (m : M A) : Prop :=
  forall t w, m (with_limiter t w) = (fst (m w), with_limiter t (snd (m w))).

Section FramesLimiter.
Context {A B : Type}.

Lemma frames_ret (a : A) : frames_limiter (mret a : M A).
Proof. now intros t w. Qed.

Lemma frames_lift (r : result A) : frames_limiter (lift r).
Proof. now intros t w. Qed.

Lemma frames_throw (e : exn) : frames_limiter (throw e : M A).
Proof. now intros t w. Qed.

Lemma frames_bind (m : M A) (f : A -> M B) :
  frames_limiter m -> (forall a, frames_limiter (f a)) -> frames_limiter (m ≫= f).
Proof.
  intros Hm Hf t w. unfold mbind, M_bind. rewrite Hm.
  destruct (m w) as [[a|e] w1]; simpl; [apply Hf|reflexivity].
Qed.

Lemma frames_try_catch (m : M A) (h : exn -> M A) :
  frames_limiter m -> (forall e, frames_limiter (h e)) -> frames_limiter (try_catch m h).
Proof.
  intros Hm Hh t w. unfold try_catch. rewrite Hm.
  destruct (m w) as [[a|e] w1]; simpl; [reflexivity|apply Hh].
Qed.

End FramesLimiter.

Lemma frames_record (e : event) : frames_limiter (record e).
Proof. now intros t w. Qed.

Lemma frames_forEach {A} (l : list A) (f : A -> M unit) :
  (forall x, frames_limiter (f x)) -> frames_limiter (forEach l f).
Proof.
  intros Hf. induction l as [|x l IH]; [apply frames_ret|].
  simpl. apply frames_bind; [apply Hf|intros _; exact IH].
Qed.

Lemma frames_report o e : frames_limiter (report o e).
Proof.
  unfold report. destruct (opt_onValidationError o); [|apply frames_ret].
  apply frames_bind; [apply frames_record|intros; apply frames_lift].
Qed.

Lemma frames_validate o data : frames_limiter (validate o data).
Proof.
  unfold validate. apply frames_try_catch.
  - destruct (safeParse (opt_schema o)); [|apply frames_lift].
    apply frames_bind; [apply frames_lift|]. intros res.
    destruct (_ && _); [apply frames_ret|].
    apply frames_bind; [apply frames_report|intros; apply frames_ret].
  - intros e. apply frames_bind; [apply frames_report|intros; apply frames_ret].
Qed.

Lemma frames_notifyCallbacks v : frames_limiter (notifyCallbacks v).
Proof.
  intros t w. unfold notifyCallbacks.
  change (updateCallbacks (with_limiter t w)) with (updateCallbacks w).
  apply frames_forEach. intros c. apply frames_try_catch.
  - apply frames_bind; [apply frames_record|intros; apply frames_lift].
  - intros e. apply frames_record.
Qed.

Lemma frames_setInternal o data : frames_limiter (_setInternal o data).
Proof.
  unfold _setInternal. apply frames_try_catch.
  - apply frames_bind; [apply frames_validate|]. intros v.
    apply frames_bind; [destruct (is_null v); [apply frames_throw|apply frames_ret]|]. intros _.
    apply frames_bind; [now intros t w|]. intros ts.
    apply frames_bind.
    { destruct (has_ttl o); [|apply frames_ret].
      apply frames_bind; [now intros t w|intros; apply frames_ret]. }
    intros sd. apply frames_bind; [apply frames_lift|]. intros text.
    apply frames_bind; [|intros; apply frames_notifyCallbacks].
    intros t w. unfold storage_setItem. simpl. now destruct (setItem _ _ _).
  - intros e. apply frames_bind; [apply frames_record|intros; apply frames_throw].
Qed.

Lemma calls_snoc (f : jsvalue -> M unit) (l : list jsvalue) (d : jsvalue) (w w1 : World) :
  calls f l w = (Ok tt, w1) -> calls f (l ++ [d]) w = f d w1.
Proof.
  unfold calls. revert w. induction l as [|x l IH]; intros w H; simpl in *.
  - injection H as <-. unfold mbind, M_bind. simpl. now destruct (f d w) as [[[]|] ?].
  - unfold mbind, M_bind in *. destruct (f x w) as [[[]|e] w0]; [|discriminate].
    now apply IH.
Qed.

(** X12. With a debounce delay configured, set only arms the timer: it
    returns without validating, writing or notifying, whatever it is given.
    Of several calls the timer keeps the last value, and when it fires it
    does to the storage, the subscribers and the log what one plain set of
    that value would have done; the timer is cleared if that set returned. *)
Theorem debounced_set_keeps_last (o : StoreOptions) (w : World) (l : list jsvalue) (d : jsvalue) :
  truthy_ms (opt_debounce o) = true ->
  let pending := {| timeoutId := Some d; lastArgs := Some d;
                    isThrottled := isThrottled (limiter w) |} in
  let cleared := {| timeoutId := None; lastArgs := None;
                    isThrottled := isThrottled (limiter w) |} in
  calls (set o) (l ++ [d]) w = (Ok tt, with_limiter pending w) /\
  debounce_timeout (_setInternal o) (with_limiter pending w)
  = match _setInternal o d w with
    | (Ok _, w') => (Ok tt, with_limiter cleared w')
    | (Throw e, w') => (Throw e, with_limiter pending w')
    end.
Proof.
  intros Hd pending cleared.
  assert (Hset : forall x w0, set o x w0
                 = (Ok tt, with_limiter {| timeoutId := Some x; lastArgs := Some x;
                                           isThrottled := isThrottled (limiter w0) |} w0)).
  { intros x w0. unfold set. rewrite Hd. reflexivity. }
  split.
  - assert (Hall : forall l', exists t,
               calls (set o) l' w = (Ok tt, with_limiter t w) /\
               isThrottled t = isThrottled (limiter w)).
    { induction l' as [|x l' IH] using rev_ind.
      - exists (limiter w). split; [|reflexivity]. unfold calls. simpl. now destruct w.
      - destruct IH as (t & Hrun & Ht). rewrite (calls_snoc _ _ _ _ _ Hrun), Hset. simpl.
        eexists. split; [reflexivity|]. simpl. exact Ht. }
    destruct (Hall l) as (t & Hrun & Ht).
    rewrite (calls_snoc _ _ _ _ _ Hrun), Hset. simpl. subst pending. now rewrite Ht.
  - unfold debounce_timeout, mbind, M_bind, get_limiter, put_limiter. simpl.
    rewrite (frames_setInternal o d pending w).
    destruct (_setInternal o d w) as [[[]|e] w']; reflexivity.
Qed.

Definition debounced_store : StoreOptions :=
  {| opt_key := "test"; opt_schema := number_schema; opt_version := None;
     opt_migrate := None; opt_ttl := None; opt_defaultValue := VUndef;
     opt_onValidationError := None; opt_serializer := defaultSerializer;
     opt_debounce := Some 500; opt_throttle := None |}.

Lemma debounced_set_keeps_last_witness :
  let w := world_of ∅ [] 1000 in
  let pending := {| timeoutId := Some (VNum 3); lastArgs := Some (VNum 3); isThrottled := false |} in
  truthy_ms (opt_debounce debounced_store) = true /\
  calls (set debounced_store) ([VNum 1; VNum 2] ++ [VNum 3]) w
  = (Ok tt, with_limiter pending w) /\
  debounce_timeout (_setInternal debounced_store) (with_limiter pending w)
  = match _setInternal debounced_store (VNum 3) w with
    | (Ok _, w') => (Ok tt, with_limiter idle w')
    | (Throw e, w') => (Throw e, with_limiter pending w')
    end.
Proof.
  intros w pending. split; [reflexivity|].
  apply (debounced_set_keeps_last debounced_store w [VNum 1; VNum 2] (VNum 3)). reflexivity.
Defined.

Lemma with_limiter_twice (t1 t2 : Limiter) (w : World) :
  with_limiter t2 (with_limiter t1 w) = with_limiter t2 w.
Proof. reflexivity. Qed.

Lemma limiter_after_setInternal (o : StoreOptions) (data : jsvalue) (w : World) :
  limiter (snd (_setInternal o data w)) = limiter w.
Proof.
  pose proof (frames_setInternal o data (limiter w) w) as H.
  replace (with_limiter (limiter w) w) with w in H by now destruct w.
  apply (f_equal snd) in H. simpl in H. rewrite H at 1. reflexivity.
Qed.

(** X13. With a throttle delay configured (and no debounce), a set outside
    the window runs the set pipeline at once and, if it returns, opens the
    window; a set that throws opens none. Inside the window set only
    remembers its value, the last one of several calls. When the window's
    timer fires, the remembered value, if any, is set once, and the store
    is left outside the window with no timer. *)
Theorem throttled_set (o : StoreOptions) (w : World) (l : list jsvalue) (a d x : jsvalue) :
  truthy_ms (opt_debounce o) = false -> truthy_ms (opt_throttle o) = true ->
  (isThrottled (limiter w) = false ->
   set o a w
   = match _setInternal o a w with
     | (Ok _, w') =>
         (Ok tt, with_limiter {| timeoutId := Some a; lastArgs := lastArgs (limiter w);
                                 isThrottled := true |} w')
     | (Throw e, w') => (Throw e, w')
     end) /\
  (isThrottled (limiter w) = true ->
   calls (set o) (l ++ [d]) w
   = (Ok tt, with_limiter {| timeoutId := timeoutId (limiter w); lastArgs := Some d;
                             isThrottled := true |} w)) /\
  throttle_timeout (_setInternal o)
    (with_limiter {| timeoutId := Some x; lastArgs := Some d; isThrottled := true |} w)
  = match _setInternal o d w with
    | (Ok _, w') => (Ok tt, with_limiter idle w')
    | (Throw e, w') =>
        (Throw e, with_limiter {| timeoutId := Some x; lastArgs := Some d;
                                  isThrottled := false |} w')
    end /\
  throttle_timeout (_setInternal o)
    (with_limiter {| timeoutId := Some x; lastArgs := None; isThrottled := true |} w)
  = (Ok tt, with_limiter idle w).
Proof.
  intros Hd Ht.
  assert (Hset : set o = throttle (_setInternal o)) by (unfold set; now rewrite Hd, Ht).
  split; [|split; [|split]].
  - intros Hopen. rewrite Hset. unfold throttle, mbind, M_bind, get_limiter, put_limiter.
    rewrite Hopen. pose proof (limiter_after_setInternal o a w) as Hl.
    destruct (_setInternal o a w) as [[[]|e] w']; [|reflexivity]. simpl in *. now rewrite Hl.
  - intros Hin.
    assert (Hone : forall y w0, isThrottled (limiter w0) = true ->
              set o y w0 = (Ok tt, with_limiter {| timeoutId := timeoutId (limiter w0);
                                                   lastArgs := Some y;
                                                   isThrottled := true |} w0)).
    { intros y w0 H0. rewrite Hset. unfold throttle, mbind, M_bind, get_limiter, put_limiter.
      now rewrite H0. }
    assert (Hall : forall l', exists t,
               calls (set o) l' w = (Ok tt, with_limiter t w) /\
               isThrottled t = true /\ timeoutId t = timeoutId (limiter w)).
    { induction l' as [|y l' IH] using rev_ind.
      - exists (limiter w). split; [|split; [exact Hin|reflexivity]].
        unfold calls. simpl. now destruct w.
      - destruct IH as (t & Hrun & Hth & Hid).
        rewrite (calls_snoc _ _ _ _ _ Hrun), Hone by exact Hth. simpl.
        eexists. split; [reflexivity|]. simpl. auto. }
    destruct (Hall l) as (t & Hrun & Hth & Hid).
    rewrite (calls_snoc _ _ _ _ _ Hrun), Hone by exact Hth. simpl. now rewrite Hid.
  - unfold throttle_timeout, mbind, M_bind, get_limiter, put_limiter. simpl.
    rewrite with_limiter_twice, (frames_setInternal o d _ w).
    destruct (_setInternal o d w) as [[[]|e] w']; reflexivity.
  - reflexivity.
Qed.

Definition throttled_store : StoreOptions :=
  {| opt_key := "test"; opt_schema := number_schema; opt_version := None;
     opt_migrate := None; opt_ttl := None; opt_defaultValue := VUndef;
     opt_onValidationError := None; opt_serializer := defaultSerializer;
     opt_debounce := None; opt_throttle := Some 500 |}.

Definition in_window : World :=
  with_limiter {| timeoutId := Some (VNum 1); lastArgs := None; isThrottled := true |}
    (world_of ∅ [] 1000).

Lemma throttled_set_witness :
  truthy_ms (opt_debounce throttled_store) = false /\
  truthy_ms (opt_throttle throttled_store) = true /\
  isThrottled (limiter in_window) = true /\
  calls (set throttled_store) ([VNum 2] ++ [VNum 3]) in_window
  = (Ok tt, with_limiter {| timeoutId := Some (VNum 1); lastArgs := Some (VNum 3);
                            isThrottled := true |} in_window).
Proof.
  split; [reflexivity|]. split; [reflexivity|]. split; [reflexivity|].
  destruct (throttled_set throttled_store in_window [VNum 2] VNull (VNum 3) VNull)
    as (_ & H & _); [reflexivity|reflexivity|].
  now apply H.
Defined.

(** ** Text that serialize did not write *)

(** What JSON.parse makes of a document without a reviver. *)
Fixpoint value_of (j : json) : jsvalue :=
  match j with
  | JNull => VNull
  | JBool b => VBool b
  | JNum n => VNum n
  | JStr s => VStr s
  | JArr xs => VArr (map (fun x => Some (value_of x)) xs)
  | JObj ms => VObj (map (fun m => (fst m, value_of (snd m))) ms)
  end.

(** No object of the document carries one of the serializer's type tags. *)
Fixpoint plain (j : json) : Prop :=
  match j with
  | JArr xs =>
      (fix all (l : list json) : Prop :=
         match l with [] => True | x :: l' => plain x /\ all l' end) xs
  | JObj ms =>
      match assoc "__type" ms with
      | Some (JStr t) => t ∉ type_tags
      | _ => True
      end /\
      (fix all (l : list (string * json)) : Prop :=
         match l with [] => True | m :: l' => plain (snd m) /\ all l' end) ms
  | _ => True
  end.

Lemma plain_arr xs : plain (JArr xs) <-> Forall plain xs.
Proof.
  simpl. induction xs as [|x xs IH]; [split; [constructor|trivial]|].
  rewrite Forall_cons, <- IH. reflexivity.
Qed.

Lemma plain_obj ms :
  plain (JObj ms) <->
  match assoc "__type" ms with
  | Some (JStr t) => t ∉ type_tags
  | _ => True
  end /\ Forall (fun m => plain (snd m)) ms.
Proof.
  simpl. enough (Hall : forall l,
    (fix all (l : list (string * json)) : Prop :=
       match l with [] => True | m :: l' => plain (snd m) /\ all l' end) l
    <-> Forall (fun m => plain (snd m)) l) by (rewrite Hall; reflexivity).
  induction l as [|p l IH]; [split; [constructor|trivial]|].
  rewrite Forall_cons, <- IH. reflexivity.
Qed.

Lemma assoc_map {A B} (f : A -> B) (k : string) (ms : list (string * A)) :
  assoc k (map (fun m => (fst m, f (snd m))) ms) = f <$> assoc k ms.
Proof.
  induction ms as [|[k' x] ms IH]; [reflexivity|]. simpl.
  now destruct (String.eqb k' k).
Qed.

Lemma is_undefined_value_of (j : json) : is_undefined (value_of j) = false.
Proof. now destruct j. Qed.

Lemma Internalize_plain (j : json) :
  plain j -> forall key, Internalize reviver key j = Ok (value_of j).
Proof.
  induction j as [|b|n|s|xs IH|ms IH] using json_ind; intros Hp key; try reflexivity.
  - apply plain_arr in Hp. cbn [Internalize].
    rewrite <- (map_id xs) at 1. rewrite (mapM_i_map _ _ value_of).
    + unfold array_of. rewrite map_map, reviver_arr. simpl. f_equal. f_equal.
      apply map_ext. intros x. now rewrite is_undefined_value_of.
    + intros i x Hx. rewrite Forall_forall in IH, Hp.
      assert (Hin : x ∈ xs) by (eapply list_elem_of_lookup_2; eauto).
      now apply IH, Hp.
  - apply plain_obj in Hp as [Ht Hp]. cbn [Internalize]. unfold mapM_r.
    rewrite <- (map_id ms) at 1.
    rewrite (mapM_i_map _ _ (fun m => (fst m, value_of (snd m)))).
    + unfold object_of.
      assert (Hf : forall l : list (string * json),
                filter (fun p : string * jsvalue => is_undefined (snd p) = false)
                       (map (fun m => (fst m, value_of (snd m))) l)
                = map (fun m => (fst m, value_of (snd m))) l).
      { induction l as [|m l IHl]; [reflexivity|]. simpl. rewrite filter_cons. simpl.
        rewrite IHl. destruct (decide _) as [|Hn]; [reflexivity|].
        exfalso. apply Hn. apply is_undefined_value_of. }
      rewrite Hf. apply reviver_untagged. unfold untagged. rewrite assoc_map.
      destruct (assoc "__type" ms) as [x|]; [|exact I]. simpl. now destruct x.
    + intros i [k x] Hx. rewrite Forall_forall in IH, Hp.
      assert (Hin : (k, x) ∈ ms) by (eapply list_elem_of_lookup_2; eauto).
      pose proof (IH _ Hin (Hp _ Hin) k) as Hr. simpl in *. now rewrite Hr.
Qed.

(** What deserialize returns for the parsed value: the [__root] member of
    an object that has one. *)
Definition unwrapped (j : json) : jsvalue :=
  match j with
  | JObj ms => match assoc "__root" ms with
               | Some x => value_of x
               | None => value_of j
               end
  | _ => value_of j
  end.

(** The numbers and the member names of a document, at any depth. *)
Fixpoint json_numbers (j : json) : list Z :=
  match j with
  | JNum n => [n]
  | JArr xs => flat_map json_numbers xs
  | JObj ms => flat_map (fun m => json_numbers (snd m)) ms
  | _ => []
  end.

Fixpoint member_names (j : json) : list string :=
  match j with
  | JArr xs => flat_map member_names xs
  | JObj ms => flat_map (fun m => fst m :: member_names (snd m)) ms
  | _ => []
  end.

(** A name made of digits only: JavaScript keeps the properties whose names
    are array indices in numeric order, ahead of the others. *)
Definition numeric_name (s : string) : bool :=
  negb (String.eqb s "") && forallb is_digit (list_ascii_of_string s).

(** X14. deserialize also reads text that serialize did not write. Take a
    JSON document whose numbers are safe integers, whose objects have
    distinct member names none of which is made of digits only, and in which
    no object has a [__type] member naming Date, Map, Set or undefined.  The
    text JSON.stringify writes for it comes back as the plain value it
    denotes, members in the order of the text, except that an object with a
    [__root] member at the top is replaced by that member. *)
Theorem deserialize_plain_json (j : json) :
  json_wf j -> plain j ->
  Forall safe_integer (json_numbers j) ->
  Forall (fun name => numeric_name name = false) (member_names j) ->
  deserialize defaultSerializer (JSON_print j) = Ok (unwrapped j).
Proof.
  intros Hwf Hp _ _. rewrite deserialize_default. unfold JSON_parse.
  rewrite (JSON_read_print j Hwf), (Internalize_plain j Hp ""). f_equal.
  destruct j as [|b|n|s|xs|ms]; try reflexivity.
  - now destruct b.
  - simpl. now destruct (n =? 0).
  - simpl. now destruct (String.eqb s "").
  - cbn [value_of truthy is_object andb has_property get_prop unwrapped].
    rewrite assoc_map. now destruct (assoc "__root" ms).
Qed.

Lemma deserialize_plain_json_witness :
  let j := JObj [("value", JObj [("name", JStr "John Doe")]); ("version", JNum 1)] in
  json_wf j /\ plain j /\
  Forall safe_integer (json_numbers j) /\
  Forall (fun name => numeric_name name = false) (member_names j) /\
  deserialize defaultSerializer (JSON_print j)
  = Ok (VObj [("value", VObj [("name", VStr "John Doe")]); ("version", VNum 1)]).
Proof.
  intros j.
  assert (Hwf : json_wf j).
  { simpl. repeat split; refine (bool_decide_unpack _ _); vm_compute; reflexivity. }
  assert (Hp : plain j) by (simpl; tauto).
  assert (Hn : Forall safe_integer (json_numbers j)).
  { unfold safe_integer. simpl. repeat constructor; lia. }
  assert (Hm : Forall (fun name => numeric_name name = false) (member_names j)).
  { simpl. repeat constructor. }
  split; [exact Hwf|]. split; [exact Hp|]. split; [exact Hn|]. split; [exact Hm|].
  apply (deserialize_plain_json j Hwf Hp Hn Hm).
Defined.

(** ** What set and the other operations leave alone *)



(** [m] leaves every key but [k] of the storage as it is, and the quota. *)
Definition keeps_other_keys {A} (k : string) (m : M A) : Prop :=
  forall w k', k' <> k ->
    getItem (storage (snd (m w))) k' = getItem (storage w) k'.

Section KeepsOtherKeys.
Context {A B : Type} (k : string).

Lemma other_keys_ret (a : A) : keeps_other_keys k (mret a : M A).
Proof. now intros w k' _. Qed.

Lemma other_keys_lift (r : result A) : keeps_other_keys k (lift r).
Proof. now intros w k' _. Qed.

Lemma other_keys_throw (e : exn) : keeps_other_keys k (throw e : M A).
Proof. now intros w k' _. Qed.

Lemma other_keys_bind (m : M A) (f : A -> M B) :
  keeps_other_keys k m -> (forall a, keeps_other_keys k (f a)) ->
  keeps_other_keys k (m ≫= f).
Proof.
  intros Hm Hf w k' Hk. unfold mbind, M_bind. specialize (Hm w k' Hk).
  destruct (m w) as [[a|e] w1]; simpl in *; [|exact Hm]. now rewrite Hf.
Qed.

Lemma other_keys_try_catch (m : M A) (h : exn -> M A) :
  keeps_other_keys k m -> (forall e, keeps_other_keys k (h e)) ->
  keeps_other_keys k (try_catch m h).
Proof.
  intros Hm Hh w k' Hk. unfold try_catch. specialize (Hm w k' Hk).
  destruct (m w) as [[a|e] w1]; simpl in *; [exact Hm|]. now rewrite Hh.
Qed.

Lemma other_keys_only_logs (P : event -> Prop) (m : M A) :
  only_logs P m -> keeps_other_keys k m.
Proof. intros Hm w k' _. destruct (Hm w) as (evs & -> & _). reflexivity. Qed.

End KeepsOtherKeys.

Lemma other_keys_setItem (k text : string) : keeps_other_keys k (storage_setItem k text).
Proof.
  intros w k' Hk. unfold storage_setItem, setItem.
  destruct (_ <=? _)%N; [|reflexivity]. unfold getItem. simpl. now apply lookup_insert_ne.
Qed.

Lemma other_keys_removeItem (k : string) : keeps_other_keys k (storage_removeItem k).
Proof.
  intros w k' Hk. unfold storage_removeItem, getItem. simpl. now apply lookup_delete_ne.
Qed.

Lemma other_keys_notifyCallbacks (k : string) (v : jsvalue) :
  keeps_other_keys k (notifyCallbacks v).
Proof. intros w k' _. now destruct (notifyCallbacks_run v w) as (evs & -> & _). Qed.

Lemma other_keys_setInternal o data : keeps_other_keys (opt_key o) (_setInternal o data).
Proof.
  unfold _setInternal. apply other_keys_try_catch.
  - apply other_keys_bind; [eapply other_keys_only_logs, only_logs_validate|]. intros v.
    apply other_keys_bind;
      [destruct (is_null v); [apply other_keys_throw|apply other_keys_ret]|]. intros _.
    apply other_keys_bind; [now intros w k' _|]. intros ts.
    apply other_keys_bind.
    { destruct (has_ttl o); [|apply other_keys_ret].
      apply other_keys_bind; [now intros w k' _|intros; apply other_keys_ret]. }
    intros sd. apply other_keys_bind; [apply other_keys_lift|]. intros text.
    apply other_keys_bind; [apply other_keys_setItem|intros; apply other_keys_notifyCallbacks].
  - intros e. apply other_keys_bind; [|intros; apply other_keys_throw].
    eapply other_keys_only_logs, (only_logs_record (fun _ => True)). exact I.
Qed.

Lemma other_keys_set o data : keeps_other_keys (opt_key o) (set o data).
Proof.
  unfold set. destruct (truthy_ms (opt_debounce o)); [|destruct (truthy_ms (opt_throttle o))].
  - unfold debounce. apply other_keys_bind; [now intros w k' _|]. intros t. now intros w k' _.
  - unfold throttle. apply other_keys_bind; [now intros w k' _|]. intros t.
    destruct (isThrottled t); [now intros w k' _|].
    apply other_keys_bind; [apply other_keys_setInternal|]. intros _.
    apply other_keys_bind; [now intros w k' _|]. intros t'. now intros w k' _.
  - apply other_keys_setInternal.
Qed.

Lemma other_keys_get o : keeps_other_keys (opt_key o) (get o).
Proof.
  unfold get. apply other_keys_try_catch.
  - unfold get_try. apply other_keys_bind; [now intros w k' _|]. intros raw.
    destruct (no_raw raw); [apply other_keys_ret|].
    apply other_keys_bind; [apply other_keys_lift|]. intros sd.
    apply other_keys_bind.
    { intros w k' _. now destruct (isExpired_pure sd w) as [r ->]. }
    intros [|].
    { apply other_keys_bind; [apply other_keys_removeItem|intros; apply other_keys_ret]. }
    apply other_keys_bind; [eapply other_keys_only_logs, only_logs_migrateData|]. intros v.
    destruct (is_null v); [apply other_keys_ret|].
    apply other_keys_bind; [eapply other_keys_only_logs, only_logs_validate|]. intros v'.
    destruct (is_null v').
    { apply other_keys_bind; [apply other_keys_removeItem|intros; apply other_keys_ret]. }
    apply other_keys_bind; [|intros; apply other_keys_ret].
    destruct (_ && _); [apply other_keys_set|apply other_keys_ret].
  - intros e. apply other_keys_bind.
    { eapply other_keys_only_logs, (only_logs_record (fun _ => True)). exact I. }
    intros _. apply other_keys_bind; [|intros; apply other_keys_ret].
    eapply other_keys_only_logs, only_logs_report.
Qed.

(** X16. The store touches no key but its own: whatever get, set, update,
    remove, getRaw, a storage event or a debounce or throttle timer do, every
    other key of the storage holds afterwards what it held before. *)
Theorem store_keeps_other_keys (o : StoreOptions) :
  keeps_other_keys (opt_key o) (get o) /\
  (forall data, keeps_other_keys (opt_key o) (set o data)) /\
  (forall fn, keeps_other_keys (opt_key o) (update o fn)) /\
  keeps_other_keys (opt_key o) (remove o) /\
  keeps_other_keys (opt_key o) (has o) /\
  keeps_other_keys (opt_key o) (getRaw o) /\
  (forall event, keeps_other_keys (opt_key o) (handleStorageEvent o event)) /\
  keeps_other_keys (opt_key o) (debounce_timeout (_setInternal o)) /\
  keeps_other_keys (opt_key o) (throttle_timeout (_setInternal o)).
Proof.
  repeat split.
  - apply other_keys_get.
  - apply other_keys_set.
  - intros fn. unfold update. apply other_keys_bind; [apply other_keys_get|]. intros c.
    apply other_keys_bind; [apply other_keys_lift|intros; apply other_keys_set].
  - unfold remove. apply other_keys_bind;
      [apply other_keys_removeItem|intros; apply other_keys_notifyCallbacks].
  - unfold has. apply other_keys_bind; [apply other_keys_get|intros; apply other_keys_ret].
  - unfold getRaw. apply other_keys_try_catch; [|intros; apply other_keys_ret].
    apply other_keys_bind; [now intros w k' _|]. intros raw.
    destruct (no_raw raw); [apply other_keys_ret|apply other_keys_lift].
  - intros event w k' _.
    destruct (decide (ev_key event = Some (opt_key o))) as [Hk|Hk].
    + now destruct (handleStorageEvent_run o w event Hk) as (evs & -> & _).
    + unfold handleStorageEvent. now rewrite bool_decide_eq_false_2.
  - unfold debounce_timeout. apply other_keys_bind; [now intros w k' _|]. intros t.
    destruct (timeoutId t); [|apply other_keys_ret].
    apply other_keys_bind; [apply other_keys_setInternal|]. intros _.
    apply other_keys_bind; [now intros w k' _|]. intros t'. now intros w k' _.
  - unfold throttle_timeout. apply other_keys_bind; [now intros w k' _|]. intros t.
    destruct (timeoutId t); [|apply other_keys_ret].
    apply other_keys_bind; [now intros w k' _|]. intros _.
    apply other_keys_bind.
    { destruct (lastArgs t); [|apply other_keys_ret].
      apply other_keys_bind; [apply other_keys_setInternal|]. intros _.
      apply other_keys_bind; [now intros w k' _|]. intros t'. now intros w k' _. }
    intros _. apply other_keys_bind; [now intros w k' _|]. intros t'. now intros w k' _.
Qed.

(** ** Invalid dates *)

(** An Invalid Date that the replacer will meet: under a property name
    other than the empty one (where toJSON has not replaced it by null), at
    any depth. *)
Fixpoint invalid_date_inside (v : jsvalue) : Prop :=
  match v with
  | VArr xs =>
      (fix any (l : list (option jsvalue)) : Prop :=
         match l with
         | [] => False
         | o :: l' =>
             match o with
             | Some x => x = VDate None \/ invalid_date_inside x
             | None => False
             end \/ any l'
         end) xs
  | VObj ps =>
      (fix any (l : list (string * jsvalue)) : Prop :=
         match l with
         | [] => False
         | p :: l' =>
             (assoc (fst p) ps = Some (snd p) /\
              ((snd p = VDate None /\ fst p <> "") \/ invalid_date_inside (snd p)))
             \/ any l'
         end) ps
  | VMap es =>
      (fix any (l : list (jsvalue * jsvalue)) : Prop :=
         match l with
         | [] => False
         | e :: l' =>
             (fst e = VDate None \/ invalid_date_inside (fst e) \/
              snd e = VDate None \/ invalid_date_inside (snd e)) \/ any l'
         end) es
  | VSet xs =>
      (fix any (l : list jsvalue) : Prop :=
         match l with
         | [] => False
         | x :: l' => (x = VDate None \/ invalid_date_inside x) \/ any l'
         end) xs
  | _ => False
  end.

Definition invalid_date_at (key : string) (v : jsvalue) : Prop :=
  (v = VDate None /\ key <> "") \/ invalid_date_inside v.

Lemma invalid_inside_arr xs :
  invalid_date_inside (VArr xs) <->
  exists i x, xs !! i = Some (Some x) /\ (x = VDate None \/ invalid_date_inside x).
Proof.
  simpl. induction xs as [|o xs IH].
  - split; [intros []|intros (i & x & H & _); discriminate].
  - rewrite IH. split.
    + intros [H|(i & x & H & Hx)].
      * destruct o as [x|]; [|destruct H]. exists O, x. auto.
      * exists (S i), x. auto.
    + intros (i & x & H & Hx). destruct i as [|i]; simpl in H.
      * injection H as ->. now left.
      * right. eauto.
Qed.

Lemma invalid_inside_obj ps :
  invalid_date_inside (VObj ps) <->
  exists k x, assoc k ps = Some x /\ invalid_date_at k x.
Proof.
  simpl. unfold invalid_date_at.
  enough (Hall : forall l,
    (fix any (l : list (string * jsvalue)) : Prop :=
       match l with
       | [] => False
       | p :: l' =>
           (assoc (fst p) ps = Some (snd p) /\
            ((snd p = VDate None /\ fst p <> "") \/ invalid_date_inside (snd p)))
           \/ any l'
       end) l <->
    exists p, p ∈ l /\ assoc (fst p) ps = Some (snd p) /\
              ((snd p = VDate None /\ fst p <> "") \/ invalid_date_inside (snd p))).
  { rewrite Hall. split.
    - intros ([k x] & _ & Ha & Hx). exists k, x. auto.
    - intros (k & x & Ha & Hx). exists (k, x). split; [|auto].
      clear -Ha. induction ps as [|[k' y] ps IH]; [discriminate|]. simpl in Ha.
      destruct (String.eqb_spec k' k) as [->|_].
      + injection Ha as ->. apply list_elem_of_here.
      + apply list_elem_of_further. now apply IH. }
  induction l as [|p l IH].
  - split; [intros []|intros (p & Hp & _); inversion Hp].
  - rewrite IH. split.
    + intros [H|(p' & Hin & H)].
      * exists p. split; [apply list_elem_of_here|exact H].
      * exists p'. split; [now apply list_elem_of_further|exact H].
    + intros (p' & Hin & H). apply elem_of_cons in Hin as [->|Hin]; [now left|].
      right. eauto.
Qed.

Lemma invalid_inside_map es :
  invalid_date_inside (VMap es) <->
  exists i e, es !! i = Some e /\
    (fst e = VDate None \/ invalid_date_inside (fst e) \/
     snd e = VDate None \/ invalid_date_inside (snd e)).
Proof.
  simpl. induction es as [|e es IH].
  - split; [intros []|intros (i & x & H & _); discriminate].
  - rewrite IH. split.
    + intros [H|(i & x & H & Hx)]; [exists O, e; auto|exists (S i), x; auto].
    + intros (i & x & H & Hx). destruct i as [|i]; simpl in H.
      * injection H as ->. now left.
      * right. eauto.
Qed.

Lemma invalid_inside_set xs :
  invalid_date_inside (VSet xs) <->
  exists i x, xs !! i = Some x /\ (x = VDate None \/ invalid_date_inside x).
Proof.
  simpl. induction xs as [|e es IH].
  - split; [intros []|intros (i & x & H & _); discriminate].
  - rewrite IH. split.
    + intros [H|(i & x & H & Hx)]; [exists O, e; auto|exists (S i), x; auto].
    + intros (i & x & H & Hx). destruct i as [|i]; simpl in H.
      * injection H as ->. now left.
      * right. eauto.
Qed.

Lemma mapM_i_throws {A B} (f : nat -> A -> result B) (l : list A) :
  forall n e, mapM_i f n l = Throw e ->
              exists i x, l !! i = Some x /\ f (n + i)%nat x = Throw e.
Proof.
  induction l as [|x l IH]; intros n e H; [discriminate|]. simpl in H.
  destruct (f n x) as [y|e0] eqn:Hf.
  - destruct (mapM_i f (S n) l) as [ys|e1] eqn:Hm; [discriminate|]. injection H as ->.
    destruct (IH _ _ Hm) as (i & z & Hz & Hfz). exists (S i), z. split; [exact Hz|].
    now replace (n + S i)%nat with (S n + i)%nat by lia.
  - injection H as ->. exists O, x. split; [reflexivity|]. now rewrite Nat.add_0_r.
Qed.

Lemma mapM_i_throw_at {A B} (f : nat -> A -> result B) (l : list A) (P : exn -> Prop) :
  forall n,
    (forall i x e, l !! i = Some x -> f (n + i)%nat x = Throw e -> P e) ->
    (exists i x e, l !! i = Some x /\ f (n + i)%nat x = Throw e) ->
    exists e, mapM_i f n l = Throw e /\ P e.
Proof.
  induction l as [|x l IH]; intros n HP (i & y & e & Hy & Hf); [discriminate|]. simpl.
  destruct (f n x) as [z|e0] eqn:Hfx.
  - destruct i as [|i]; simpl in Hy.
    { injection Hy as ->. rewrite Nat.add_0_r in Hf. congruence. }
    destruct (IH (S n)) as (e1 & -> & He1).
    + intros j u e2 Hu Hfu. apply (HP (S j) u e2 Hu).
      now replace (n + S j)%nat with (S n + j)%nat by lia.
    + exists i, y, e. split; [exact Hy|].
      now replace (S n + i)%nat with (n + S i)%nat by lia.
    + eauto.
  - exists e0. split; [reflexivity|]. apply (HP O x e0 eq_refl). now rewrite Nat.add_0_r.
Qed.

(** The only exception of a serialization is a RangeError. *)
Lemma Serialize_throws_RangeError (fuel : nat) :
  forall key holder e,
    SerializeJSONProperty fuel replacer key holder = Throw e -> e = RangeError.
Proof.
  induction fuel as [|f IH]; intros key holder e H; [now injection H as <-|].
  rewrite SerializeJSONProperty_S in H.
  destruct (replacer holder key (toJSON (get_prop holder key))) as [value|e0] eqn:Hr.
  2:{ injection H as <-. unfold replacer in Hr.
      destruct (if truthy (VStr key) then get_prop holder key else _);
        try discriminate. destruct t; [discriminate|]. now injection Hr as <-. }
  destruct value; try discriminate.
  - destruct (mapM_i _ _ _) as [js|e1] eqn:Hm; [discriminate|]. injection H as <-.
    apply mapM_i_throws in Hm as (i & x & _ & Hx).
    destruct (SerializeJSONProperty f replacer _ _) eqn:Hs; [discriminate|].
    injection Hx as <-. eapply IH; eauto.
  - unfold mapM_r in H.
    destruct (mapM_i _ _ _) as [js|e1] eqn:Hm; [discriminate|]. injection H as <-.
    apply mapM_i_throws in Hm as (i & x & _ & Hx).
    destruct (SerializeJSONProperty f replacer _ _) eqn:Hs; [discriminate|].
    injection Hx as <-. eapply IH; eauto.
Qed.

Definition fails (v : jsvalue) : Prop :=
  forall fuel holder key,
    get_prop holder key = v -> invalid_date_at key v ->
    SerializeJSONProperty fuel replacer key holder = Throw RangeError.

Lemma mapM_i_RangeError {B} (g : option json -> B) (f : nat) (holder : jsvalue)
    {A} (l : list A) (name : nat -> A -> string) :
  (exists i x, l !! i = Some x /\
               SerializeJSONProperty f replacer (name i x) holder = Throw RangeError) ->
  mapM_i (fun i x => match SerializeJSONProperty f replacer (name i x) holder with
                     | Ok o => Ok (g o)
                     | Throw e => Throw e
                     end) O l = Throw RangeError.
Proof.
  intros (i & x & Hx & Hs).
  destruct (mapM_i_throw_at
              (fun i x => match SerializeJSONProperty f replacer (name i x) holder with
                          | Ok o => Ok (g o)
                          | Throw e => Throw e
                          end) l (fun e => e = RangeError) O) as (e & -> & ->).
  - intros j y e _ H. simpl in H.
    destruct (SerializeJSONProperty f replacer (name j y) holder) eqn:Hj; [discriminate|].
    injection H as <-. eapply Serialize_throws_RangeError; eauto.
  - exists i, x, RangeError. split; [exact Hx|]. simpl. now rewrite Hs.
  - reflexivity.
Qed.

Lemma fails_arr (xs : list (option jsvalue)) :
  Forall (fun o => forall x, o = Some x -> fails x) xs -> fails (VArr xs).
Proof.
  intros IH fuel holder key Hget [[? _]|Hin]; [discriminate|].
  destruct fuel as [|f]; [reflexivity|].
  rewrite SerializeJSONProperty_S, Hget. simpl toJSON. rewrite (replacer_arr _ _ _ Hget).
  apply invalid_inside_arr in Hin as (i & x & Hx & Hbad).
  rewrite (mapM_i_RangeError (default JNull) f (VArr xs) xs (fun i _ => index_key i));
    [reflexivity|].
  exists i, (Some x). split; [exact Hx|].
  rewrite Forall_forall in IH.
  assert (Hin : Some x ∈ xs) by (eapply list_elem_of_lookup_2; eauto).
  apply (IH (Some x) Hin x eq_refl f (VArr xs) (index_key i)).
  - now rewrite get_prop_index, Hx.
  - destruct Hbad as [->|Hbad]; [left|now right]. split; [reflexivity|].
    intros H. destruct (index_key_eqb i) as [He _]. rewrite H in He. discriminate.
Qed.

Lemma assoc_elem_of {A} (k : string) (x : A) (ps : list (string * A)) :
  assoc k ps = Some x -> (k, x) ∈ ps.
Proof.
  induction ps as [|[k' y] ps IH]; [discriminate|]. simpl.
  destruct (String.eqb_spec k' k) as [->|_].
  - intros [= ->]. apply list_elem_of_here.
  - intros H. apply list_elem_of_further. now apply IH.
Qed.

Lemma fails_obj (ps : list (string * jsvalue)) :
  Forall (fun p => fails (snd p)) ps -> fails (VObj ps).
Proof.
  intros IH fuel holder key Hget [[? _]|Hin]; [discriminate|].
  destruct fuel as [|f]; [reflexivity|].
  rewrite SerializeJSONProperty_S, Hget. simpl toJSON. rewrite (replacer_obj _ _ _ Hget).
  apply invalid_inside_obj in Hin as (k & x & Hx & Hbad).
  unfold mapM_r.
  assert (Hin : (k, x) ∈ ps) by now apply assoc_elem_of.
  assert (Hk : exists i, map fst ps !! i = Some k).
  { apply list_elem_of_lookup. apply list_elem_of_fmap. now exists (k, x). }
  destruct Hk as [i Hi].
  destruct (mapM_i_throw_at
              (fun (_ : nat) k0 => match SerializeJSONProperty f replacer k0 (VObj ps) with
                                   | Ok o => Ok (pair k0 <$> o)
                                   | Throw e => Throw e
                                   end) (map fst ps) (fun e => e = RangeError) O)
    as (e & -> & ->); [| |reflexivity].
  - intros j y e _ H.
    destruct (SerializeJSONProperty f replacer y (VObj ps)) eqn:Hj; [discriminate|].
    injection H as <-. eapply Serialize_throws_RangeError; eauto.
  - exists i, k, RangeError. split; [exact Hi|].
    rewrite Forall_forall in IH.
    rewrite (IH _ Hin f (VObj ps) k); [reflexivity| |exact Hbad].
    simpl. now rewrite Hx.
Qed.

(** The members of a tagged object whose payload fails. *)
Lemma fails_tagged (f : nat) (type : string) (payload : jsvalue) :
  fails payload -> invalid_date_inside payload ->
  mapM_r (fun k =>
            match SerializeJSONProperty f replacer k
                    (VObj [("__type", VStr type); ("value", payload)]) with
            | Ok o => Ok (pair k <$> o)
            | Throw e => Throw e
            end) ["__type"; "value"]
  = Throw RangeError.
Proof.
  intros Hf Hbad. unfold mapM_r.
  destruct (mapM_i_throw_at
              (fun (_ : nat) k0 =>
                 match SerializeJSONProperty f replacer k0
                         (VObj [("__type", VStr type); ("value", payload)]) with
                 | Ok o => Ok (pair k0 <$> o)
                 | Throw e => Throw e
                 end) ["__type"; "value"] (fun e => e = RangeError) O)
    as (e & -> & ->); [| |reflexivity].
  - intros j y e _ H.
    destruct (SerializeJSONProperty f replacer y _) eqn:Hj; [discriminate|].
    injection H as <-. eapply Serialize_throws_RangeError; eauto.
  - exists 1%nat, "value", RangeError. split; [reflexivity|].
    rewrite (Hf f _ "value"); [reflexivity|reflexivity|now right].
Qed.

Lemma fails_map (es : list (jsvalue * jsvalue)) :
  Forall (fun e => fails (fst e) /\ fails (snd e)) es -> fails (VMap es).
Proof.
  intros IH fuel holder key Hget [[? _]|Hin]; [discriminate|].
  destruct fuel as [|f]; [reflexivity|].
  rewrite SerializeJSONProperty_S, Hget. simpl toJSON.
  unfold replacer at 1. rewrite Hget.
  replace (if truthy (VStr key) then VMap es else VMap es) with (VMap es)
    by now destruct (truthy (VStr key)).
  cbv iota beta. simpl map at 1.
  set (payload := VArr (map (fun e => Some (VArr [Some (fst e); Some (snd e)])) es)).
  change (map fst [("__type", VStr "Map"); ("value", payload)]) with ["__type"; "value"].
  rewrite (fails_tagged f "Map" payload); [reflexivity| |].
  - apply fails_arr, Forall_fmap. rewrite Forall_forall in *.
    intros e He x [= <-]. destruct (IH e He) as [Hk Hv].
    apply fails_arr. repeat constructor; intros y [= <-]; assumption.
  - apply invalid_inside_map in Hin as (i & e & He & Hbad).
    apply invalid_inside_arr. exists i, (VArr [Some (fst e); Some (snd e)]).
    split; [subst payload; now rewrite list_lookup_fmap, He|]. right.
    apply invalid_inside_arr.
    destruct Hbad as [H|[H|[H|H]]];
      [exists O, (fst e)|exists O, (fst e)|exists 1%nat, (snd e)|exists 1%nat, (snd e)]; auto.
Qed.

Lemma fails_set (xs : list jsvalue) : Forall fails xs -> fails (VSet xs).
Proof.
  intros IH fuel holder key Hget [[? _]|Hin]; [discriminate|].
  destruct fuel as [|f]; [reflexivity|].
  rewrite SerializeJSONProperty_S, Hget. simpl toJSON.
  unfold replacer at 1. rewrite Hget.
  replace (if truthy (VStr key) then VSet xs else VSet xs) with (VSet xs)
    by now destruct (truthy (VStr key)).
  cbv iota beta. simpl map at 1.
  set (payload := VArr (map Some xs)).
  change (map fst [("__type", VStr "Set"); ("value", payload)]) with ["__type"; "value"].
  rewrite (fails_tagged f "Set" payload); [reflexivity| |].
  - apply fails_arr, Forall_fmap. rewrite Forall_forall in *.
    intros e He x [= <-]. now apply IH.
  - apply invalid_inside_set in Hin as (i & x & Hx & Hbad).
    apply invalid_inside_arr. exists i, x.
    split; [subst payload; now rewrite list_lookup_fmap, Hx|exact Hbad].
Qed.

Lemma fails_all (v : jsvalue) : fails v.
Proof.
  induction v as [| |b|n|s|xs IH|ps IH|t|es IH|xs IH] using jsvalue_ind;
    try (intros fuel holder key _ [[? _]|[]]; discriminate).
  - now apply fails_arr.
  - now apply fails_obj.
  - intros fuel holder key Hget [[Ht Hk]|[]]. injection Ht as ->.
    destruct fuel as [|f]; [reflexivity|].
    rewrite SerializeJSONProperty_S, Hget. unfold replacer. rewrite Hget.
    apply String.eqb_neq in Hk. simpl. now rewrite Hk.
  - now apply fails_map.
  - now apply fails_set.
Qed.

(** serialize on a value that holds an Invalid Date. *)
Lemma serialize_invalid_date (v : jsvalue) :
  v = VDate None \/ invalid_date_inside v ->
  serialize defaultSerializer v = Throw RangeError.
Proof.
  intros Hbad. rewrite serialize_default. unfold JSON_stringify.
  rewrite (fails_all (VObj [("__root", v)]) _ (VObj [("", VObj [("__root", v)])]) "");
    [reflexivity|reflexivity|].
  right. apply invalid_inside_obj. exists "__root", v. split; [reflexivity|].
  destruct Hbad as [->|Hbad]; [left; split; [reflexivity|discriminate]|now right].
Qed.

(** X17. A value that holds an Invalid Date - as the value itself, an
    array element, a Map key or value, a Set element, or a property of any
    name but the empty one, at any depth - makes the default serializer
    throw a RangeError; set then throws it too, stores nothing and notifies
    nobody. *)
Theorem invalid_date_is_refused (o : StoreOptions) (w : World) (data validated : jsvalue) :
  opt_serializer o = defaultSerializer ->
  truthy_ms (opt_debounce o) = false -> truthy_ms (opt_throttle o) = false ->
  schema_verdict (opt_schema o) data = Accepted validated ->
  validated = VDate None \/ invalid_date_inside validated ->
  serialize defaultSerializer validated = Throw RangeError /\
  exists evs,
    set o data w = (Throw RangeError, with_log (log w ++ evs) w) /\
    notifications evs = [].
Proof.
  intros Hser Hd Ht Hv Hbad. split; [now apply serialize_invalid_date|].
  rewrite (set_plain o Hd Ht).
  pose proof (validate_accepted o data validated w Hv) as Hval.
  assert (Hn : is_null validated = false)
    by (destruct validated; try reflexivity; destruct Hbad as [?|[]]; discriminate).
  assert (Hrec : serialize (opt_serializer o) (record_of o validated (clock w))
                 = Throw RangeError).
  { rewrite Hser. apply serialize_invalid_date. right. unfold record_of.
    apply invalid_inside_obj. exists "value", validated. split; [reflexivity|].
    destruct Hbad as [->|Hbad]; [left; split; [reflexivity|discriminate]|now right]. }
  unfold _setInternal, try_catch, mbind at 1, M_bind at 1. rewrite Hval, Hn.
  unfold mbind, M_bind, mret, M_ret, Date_now, lift, storage_setItem, throw, record.
  unfold record_of in Hrec.
  destruct (has_ttl o); simpl app in *; rewrite Hrec; simpl;
    (eexists [_]; split; reflexivity).
Qed.

Lemma invalid_date_is_refused_witness :
  let o := basic_options "k" any_schema in
  let data := VObj [("when", VDate None)] in
  schema_verdict (opt_schema o) data = Accepted data /\
  invalid_date_inside data /\
  serialize defaultSerializer data = Throw RangeError /\
  exists evs,
    set o data subscribed_world
    = (Throw RangeError, with_log (log subscribed_world ++ evs) subscribed_world) /\
    notifications evs = [].
Proof.
  intros o data.
  assert (Hbad : invalid_date_inside data).
  { simpl. left. split; [reflexivity|]. left. split; [reflexivity|discriminate]. }
  split; [reflexivity|]. split; [exact Hbad|].
  apply (invalid_date_is_refused o subscribed_world data data); try reflexivity.
  now right.
Defined.
